(** * Agentic knowledge-graph construction: schema inference, batched
      node upserts, relationship creation and graph verification.

    A shallow embedding of
      - [src/agents/schema_proposal_agent.py] (class [SchemaProposalAgent]),
      - [src/agents/kg_constructor_agent.py]
        (class [KnowledgeGraphConstructorAgent]),
      - [L9/construct_graph.py] (class [GraphConstructor]),
    followed by the properties of the specification proved on it.

    Python strings are [string]; dictionaries with a fixed set of keys are
    records; a data-frame row is a finite map from column names to cells;
    the graph database client [graphdb] is a type class, and the code that
    talks to it is written in a small state monad whose state is the list
    of statements sent so far and the lines printed so far. *)

From Stdlib Require Import ZArith String Ascii List Bool Lia.
From Stdlib Require Import DecimalString DecimalPos DecimalZ.
From stdpp Require Import base decidable list option gmap strings.

Local Open Scope Z_scope.
Local Open Scope nat_scope.
Local Open Scope stdpp_scope.

(** ** Python string operations *)

Module Text.

Definition newline : string := String "010"%char EmptyString.

Definition dquote : ascii := "034"%char.
Definition squote : ascii := "039"%char.
Definition backslash : ascii := "092"%char.

Definition is_upper (c : ascii) : bool :=
  (65 <=? nat_of_ascii c)%nat && (nat_of_ascii c <=? 90)%nat.
Definition is_lower (c : ascii) : bool :=
  (97 <=? nat_of_ascii c)%nat && (nat_of_ascii c <=? 122)%nat.
Definition is_digit (c : ascii) : bool :=
  (48 <=? nat_of_ascii c)%nat && (nat_of_ascii c <=? 57)%nat.

Definition lower_ascii (c : ascii) : ascii :=
  if is_upper c then ascii_of_nat (nat_of_ascii c + 32) else c.
Definition upper_ascii (c : ascii) : ascii :=
  if is_lower c then ascii_of_nat (nat_of_ascii c - 32) else c.

Fixpoint map_chars (f : ascii → ascii) (s : string) : string :=
  match s with
  | EmptyString => EmptyString
  | String c s' => String (f c) (map_chars f s')
  end.

(** [str.lower()] and [str.upper()], on the ASCII letters. *)
Definition lower : string → string := map_chars lower_ascii.
Definition upper : string → string := map_chars upper_ascii.

(** [s.replace(old, new)] for a one-character [old]. *)
Fixpoint replace (old : ascii) (new : string) (s : string) : string :=
  match s with
  | EmptyString => EmptyString
  | String c s' =>
      (if Ascii.eqb c old then new else String c EmptyString)
        +:+ replace old new s'
  end.

(** [sep.join(parts)] *)
Definition join (sep : string) (parts : list string) : string :=
  String.concat sep parts.
Arguments join : simpl never.

(** [x in [a, b, ...]] on strings. *)
Definition mem (x : string) (l : list string) : bool :=
  existsb (String.eqb x) l.

(** [str(n)] for an integer. *)
Definition str_int (n : Z) : string := NilZero.string_of_int (Z.to_int n).

(** [str(b)] for a boolean. *)
Definition str_bool (b : bool) : string := if b then "True" else "False".

Definition quoted (s : string) : string :=
  String dquote s +:+ String dquote EmptyString.

End Text.

(** ** Schema inference: [SchemaProposalAgent] *)

Module SchemaProposal.
Import Text.

(** Entries of the list built by [_extract_properties_from_sample]. *)
Record property := Property {
  prop_name : string;
  prop_type : string;
  prop_required : bool;
  prop_description : string
}.

(** [node_info] of [analyze_structured_data_tool]. *)
Record node := Node {
  node_label : string;
  node_source_file : string;
  node_properties : list property;
  node_primary_key : option string
}.

(** The dictionaries appended by [_infer_relationships]. *)
Record relationship := Relationship {
  rel_type : string;
  rel_from_label : string;
  rel_to_label : string;
  rel_property : string;
  rel_description : string
}.

#[global] Instance property_eq_dec : EqDecision property.
Proof. solve_decision. Defined.
#[global] Instance node_eq_dec : EqDecision node.
Proof. solve_decision. Defined.
#[global] Instance relationship_eq_dec : EqDecision relationship.
Proof. solve_decision. Defined.

(** The part of [sample_result['data']] that schema inference can see:
    the header row, when the key ['headers'] is present, and the sampled
    data rows.  An empty dictionary has no ['headers'] key, so the two
    tests of the guard [not sample_data or 'headers' not in sample_data]
    both come down to [sample_headers = None]. *)
Record sample_data := SampleData {
  sample_headers : option (list string);
  sample_rows : list (list string)
}.

Definition property_of_header (header : string) : property :=
  {| prop_name := header;
     prop_type := "string";
     prop_required := mem (lower header) ["id"; "name"; "title"];
     prop_description := "Property " +:+ header +:+ " extracted from data" |}.

Definition _extract_properties_from_sample (sample : sample_data)
  : list property :=
  match sample_headers sample with
  | None => []
  | Some headers =>
      foldl (λ properties header, properties ++ [property_of_header header])
            [] headers
  end.

Fixpoint _infer_primary_key (properties : list property) : option string :=
  match properties with
  | [] => None
  | prop :: rest =>
      if mem (lower (prop_name prop)) ["id"; "uuid"; "key"]
      then Some (prop_name prop)
      else _infer_primary_key rest
  end.

(** The test of the innermost loop body of [_infer_relationships]. *)
Definition is_foreign_key (prop_name other_label : string) : bool :=
  String.eqb prop_name (other_label +:+ "_id")
  || String.eqb prop_name (other_label +:+ "id").

Definition belongs_to (n : node) (prop : property) (other_node : node)
  : relationship :=
  {| rel_type := "BELONGS_TO_" +:+ upper (node_label other_node);
     rel_from_label := node_label n;
     rel_to_label := node_label other_node;
     rel_property := prop_name prop;
     rel_description :=
       node_label n +:+ " belongs to " +:+ node_label other_node |}.

(** One turn of [for other_node in nodes]. *)
Definition visit_other (n : node) (prop : property)
    (relationships : list relationship) (other_node : node)
  : list relationship :=
  if decide (n = other_node) then relationships
  else
    let prop_name := lower (prop_name prop) in
    let other_label := lower (node_label other_node) in
    if is_foreign_key prop_name other_label
    then relationships ++ [belongs_to n prop other_node]
    else relationships.

Definition _infer_relationships (nodes : list node) : list relationship :=
  foldl (λ relationships n,
           foldl (λ relationships prop,
                    foldl (visit_other n prop) relationships nodes)
                 relationships (node_properties n))
        [] nodes.

Definition has_foreign_key (relationships : list relationship) (n : node)
  : bool :=
  existsb (λ rel, String.eqb (rel_from_label rel) (node_label n))
          relationships.

Definition _calculate_import_order (nodes : list node)
    (relationships : list relationship) : list string :=
  let '(independent_nodes, dependent_nodes) :=
    foldl (λ '(independent_nodes, dependent_nodes) n,
             if has_foreign_key relationships n
             then (independent_nodes, dependent_nodes ++ [node_source_file n])
             else (independent_nodes ++ [node_source_file n], dependent_nodes))
          ([], []) nodes in
  independent_nodes ++ dependent_nodes.

(** *** The specification's wording of two inference rules

    These two definitions follow the text of the specification, not the
    code; they are what the code is compared with. *)

(** Primary key as the specification words it: the first property whose
    name, case-insensitively, is one of id, uuid, key, or is the label
    followed by [_id]. *)
Fixpoint spec_primary_key (label : string) (properties : list property)
  : option string :=
  match properties with
  | [] => None
  | prop :: rest =>
      if mem (lower (prop_name prop)) ["id"; "uuid"; "key"]
         || String.eqb (lower (prop_name prop)) (lower label +:+ "_id")
      then Some (prop_name prop)
      else spec_primary_key label rest
  end.

Fixpoint all_digits (s : string) : bool :=
  match s with
  | EmptyString => true
  | String c s' => is_digit c && all_digits s'
  end.

Definition unsigned (s : string) : string :=
  match s with
  | String c s' =>
      if Ascii.eqb c "-"%char || Ascii.eqb c "+"%char then s' else s
  | EmptyString => s
  end.

Definition is_integer_literal (s : string) : bool :=
  let u := unsigned s in negb (String.eqb u "") && all_digits u.

(** Digits, then at most one dot, then digits; at least one digit. *)
Fixpoint is_decimal_body (seen_dot seen_digit : bool) (s : string) : bool :=
  match s with
  | EmptyString => seen_digit
  | String c s' =>
      if is_digit c then is_decimal_body seen_dot true s'
      else if Ascii.eqb c "."%char
           then negb seen_dot && is_decimal_body true seen_digit s'
           else false
  end.

Definition is_float_literal (s : string) : bool :=
  is_decimal_body false false (unsigned s).

Definition is_boolean_literal (s : string) : bool :=
  mem (lower s) ["true"; "false"].

(** The narrowest of integer, float, boolean, string that every sampled
    value of a column is consistent with; string when nothing narrower
    fits or when there is no value to decide on. *)
Definition spec_infer_type (values : list string) : string :=
  match values with
  | [] => "string"
  | _ =>
      if forallb is_integer_literal values then "integer"
      else if forallb is_float_literal values then "float"
      else if forallb is_boolean_literal values then "boolean"
      else "string"
  end.

(** The sampled values of the column at position [i]. *)
Definition column (i : nat) (rows : list (list string)) : list string :=
  omap (λ r, r !! i) rows.

Definition spec_extract_properties (sample : sample_data) : list property :=
  match sample_headers sample with
  | None => []
  | Some headers =>
      imap (λ i header,
              {| prop_name := header;
                 prop_type := spec_infer_type (column i (sample_rows sample));
                 prop_required := mem (lower header) ["id"; "name"; "title"];
                 prop_description :=
                   "Property " +:+ header +:+ " extracted from data" |})
           headers
  end.

(** *** Notions used in the statements below *)

(** The names the code accepts as a primary key. *)
Definition key_like (prop : property) : Prop :=
  lower (prop_name prop) ∈ ["id"; "uuid"; "key"].

(** What one pair of nodes and one property add to the relationships. *)
Definition emitted (n : node) (prop : property) (other_node : node)
  : list relationship :=
  if decide (n = other_node) then []
  else if is_foreign_key (lower (prop_name prop))
                         (lower (node_label other_node))
       then [belongs_to n prop other_node]
       else [].

(** [x] stands somewhere before [y] in [l]. *)
Definition placed_before {A} (x y : A) (l : list A) : Prop :=
  ∃ l1 l2 l3, l = l1 ++ x :: l2 ++ y :: l3.

End SchemaProposal.

(** ** The graph database client

    [graphdb.send_query(statement)] either returns a dictionary with a
    ['status'] (and, on success, the ['query_result'] rows; otherwise
    possibly an ['error_message']) or raises.  What the store answers may
    depend on everything it was sent before. *)

Module Store.

(** A cell of a data frame, or a value in a result row.  Floating-point
    cells are not modelled. *)
Inductive value :=
| VNull                (* None, NaN: what [pd.notna] rejects *)
| VStr (s : string)
| VInt (n : Z)
| VBool (b : bool).

#[global] Instance value_eq_dec : EqDecision value.
Proof. solve_decision. Defined.

Inductive response :=
| Success (query_result : list (gmap string value))
| Failure (error_message : option string)
| Raised (exception : string).

Definition is_success (r : response) : bool :=
  match r with Success _ => true | _ => false end.

(** The client: the answer to a statement, given the statements sent
    before it (oldest first). *)
Class GraphDB := reply : list string → string → response.

(** A line written by [print]. *)
Inductive message :=
| ConstraintError (label exception : string)
| CreatingNodes (label : string)
| ConstraintWarning (label : string)
| BatchError (error_message : string)
| BatchException (exception : string)
| NodesCreated (nodes_created : nat) (label : string)
| ClearingGraph
| GraphCleared
| ClearWarning (error_message : string)
| ClearError (exception : string).

(** The lines that report a failed batch. *)
Definition is_batch_issue (m : message) : bool :=
  match m with BatchError _ | BatchException _ => true | _ => false end.

(** What a run has done so far: the statements sent, each with its
    answer, and the lines printed, both oldest first. *)
Record world := World {
  sent : list (string * response);
  printed : list message
}.

Definition M (A : Type) : Type := world → A * world.

#[global] Instance M_ret : MRet M := λ A a w, (a, w).
#[global] Instance M_bind : MBind M :=
  λ A B k m w, let '(a, w') := m w in k a w'.

Definition send_query `{GraphDB} (statement : string) : M response :=
  λ w, let r := reply (sent w).*1 statement in
       (r, {| sent := sent w ++ [(statement, r)]; printed := printed w |}).

Definition print (m : message) : M unit :=
  λ w, (tt, {| sent := sent w; printed := printed w ++ [m] |}).

(** [for x in xs: acc = body(acc, x)] *)
Fixpoint for_each {A B} (body : B → A → M B) (acc : B) (xs : list A) : M B :=
  match xs with
  | [] => mret acc
  | x :: xs' => acc' ← body acc x; for_each body acc' xs'
  end.

(** *** Notions used in the statements below *)

(** A store that accepts every statement and returns no rows. *)
Definition accepting : GraphDB := λ _ _, Success [].

(** Nothing sent, nothing printed. *)
Definition fresh : world := {| sent := []; printed := [] |}.

(** Runs the binds and returns of the state monad in the goal. *)
Ltac run_M := unfold mbind, M_bind, mret, M_ret, send_query, print; cbn.

(** A store that rejects the statement with the given position among all
    statements sent (counted from 0) and accepts every other one. *)
Definition rejecting (position : nat) : GraphDB :=
  λ history _,
    if length history =? position then Failure (Some "batch rejected")
    else Success [].

End Store.

(** ** The construction script: [GraphConstructor] *)

Module GraphConstructor.
Import Text Store.

(** A row of the data frame: column name to cell. *)
Abbreviation row := (gmap string value).

Definition constraint_query (label property_key : string) : string :=
  let constraint_name := label +:+ "_" +:+ property_key +:+ "_constraint" in
  "CREATE CONSTRAINT `" +:+ constraint_name +:+ "` IF NOT EXISTS" +:+ newline
  +:+ "            FOR (n:`" +:+ label +:+ "`)" +:+ newline
  +:+ "            REQUIRE n.`" +:+ property_key +:+ "` IS UNIQUE".

Definition create_constraint `{GraphDB} (label property_key : string)
  : M bool :=
  result ← send_query (constraint_query label property_key);
  match result with
  | Success _ => mret true
  | Failure _ => mret false
  | Raised e => print (ConstraintError label e);; mret false
  end.

(** [pd.notna] *)
Definition notna (v : value) : bool :=
  match v with VNull => false | _ => true end.

(** [str(value).replace('"', '\\"').replace("'", "\\'")] *)
Definition escape (s : string) : string :=
  replace squote (String backslash (String squote EmptyString))
    (replace dquote (String backslash (String dquote EmptyString)) s).

(** The text an f-string gives a cell that is not a string. *)
Definition format_value (v : value) : string :=
  match v with
  | VInt n => str_int n
  | VBool b => str_bool b
  | VStr s => s
  | VNull => "nan"
  end.

(** The entry appended to [props] for a cell that is not null. *)
Definition prop_entry (prop : string) (v : value) : string :=
  match v with
  | VStr s => prop +:+ ": " +:+ quoted (escape s)
  | _ => prop +:+ ": " +:+ format_value v
  end.

(** The inner loop [for prop in [unique_property] + properties]. *)
Definition row_props (unique_property : string) (properties : list string)
    (r : row) : list string :=
  foldl (λ props prop,
           match r !! prop with
           | Some v => if notna v then props ++ [prop_entry prop v] else props
           | None => props
           end)
        [] (unique_property :: properties).

Definition merge_statement (label : string) (props : list string) : string :=
  "MERGE (:" +:+ label +:+ " {" +:+ join ", " props +:+ "})".

(** The loop [for _, row in batch.iterrows()]. *)
Definition merge_statements (label unique_property : string)
    (properties : list string) (batch : list row) : list string :=
  foldl (λ merge_statements r,
           match row_props unique_property properties r with
           | [] => merge_statements
           | props => merge_statements ++ [merge_statement label props]
           end)
        [] batch.

Definition batch_size : nat := 50.

(** [range(start, stop, step)] for a positive [step]. *)
Fixpoint range_from (fuel start stop step : nat) : list nat :=
  match fuel with
  | 0 => []
  | S fuel' =>
      if start <? stop
      then start :: range_from fuel' (start + step) stop step
      else []
  end.
Definition range (start stop step : nat) : list nat :=
  range_from stop start stop step.

(** [df.iloc[i:i+batch_size]] *)
Definition iloc (df : list row) (i j : nat) : list row :=
  take (j - i) (drop i df).

(** The body of [for i in range(0, len(df), batch_size)]. *)
Definition import_batch `{GraphDB} (df : list row)
    (label unique_property : string) (properties : list string)
    (nodes_created : nat) (i : nat) : M nat :=
  let batch := iloc df i (i + batch_size) in
  let merge_statements :=
    merge_statements label unique_property properties batch in
  match merge_statements with
  | [] => mret nodes_created
  | _ =>
      let batch_query := join newline merge_statements in
      result ← send_query batch_query;
      match result with
      | Success _ => mret (nodes_created + length merge_statements)
      | Failure error_message =>
          print (BatchError (default "Unknown" error_message));;
          mret nodes_created
      | Raised e => print (BatchException e);; mret nodes_created
      end
  end.

Definition create_nodes `{GraphDB} (df : list row)
    (label unique_property : string) (properties : list string) : M nat :=
  print (CreatingNodes label);;
  created ← create_constraint label unique_property;
  (if created : bool then mret tt else print (ConstraintWarning label));;
  nodes_created ←
    for_each (import_batch df label unique_property properties) 0
             (range 0 (length df) batch_size);
  print (NodesCreated nodes_created label);;
  mret nodes_created.

Definition clear_query : string := "MATCH (n) DETACH DELETE n".

(** The first step of [construct_complete_graph(clear_existing=True)]:
    the block under [# Clear existing graph if requested].  The argument
    is [None] when the caller leaves it out.  The result is [Some false]
    when the method returns from inside the block, and [None] when it
    goes on. *)
Definition clear_existing_graph `{GraphDB} (clear_existing : option bool)
  : M (option bool) :=
  let clear_existing := default true clear_existing in
  if clear_existing then
    print ClearingGraph;;
    clear_result ← send_query clear_query;
    match clear_result with
    | Success _ => print GraphCleared;; mret None
    | Failure error_message =>
        print (ClearWarning (default "Could not clear graph" error_message));;
        mret None
    | Raised e => print (ClearError e);; mret (Some false)
    end
  else mret None.

(** [construct_complete_graph]; [rest] stands for the method from the
    loading of the CSV files on, which no longer reads the flag. *)
Definition construct_complete_graph `{GraphDB} (rest : M bool)
    (clear_existing : option bool) : M bool :=
  returned ← clear_existing_graph clear_existing;
  match returned with
  | Some success => mret success
  | None => rest
  end.

(** *** The record projection of the specification

    The key-value projection of a record restricted to the primary key
    and the listed properties, without the absent and the null cells:
    the specification's description of what a merge statement carries. *)
Definition cell (r : row) (prop : string) : option (string * value) :=
  v ← r !! prop; if notna v then Some (prop, v) else None.

Definition projection (unique_property : string) (properties : list string)
    (r : row) : list (string * value) :=
  omap (cell r) (unique_property :: properties).

(** *** Notions used in the statements below *)

(** The entry of a projected pair. *)
Definition entry_of (kv : string * value) : string := prop_entry kv.1 kv.2.

(** The merge statement of one row, if the row yields one. *)
Definition row_statement (label unique_property : string)
    (properties : list string) (r : row) : option string :=
  match row_props unique_property properties r with
  | [] => None
  | props => Some (merge_statement label props)
  end.

(** The lines a batch answer makes [create_nodes] print. *)
Definition batch_lines (result : response) : list message :=
  match result with
  | Success _ => []
  | Failure error_message => [BatchError (default "Unknown" error_message)]
  | Raised e => [BatchException e]
  end.

(** The lines the creation of the constraint makes [create_nodes] print,
    after its opening line. *)
Definition constraint_lines (label : string) (result : response)
  : list message :=
  match result with
  | Success _ => []
  | Failure _ => [ConstraintWarning label]
  | Raised e => [ConstraintError label e; ConstraintWarning label]
  end.

(** A product row: a text identifier and a price cell. *)
Definition product (id : string) (price : value) : row :=
  {[ "product_id" := VStr id; "price" := price ]}.

Abbreviation chars := list_ascii_of_string.

Definition space : ascii := " "%char.

Definition brace : ascii := "{"%char.

(** The characters that can stand right before a property name. *)
Definition delimiter (c : ascii) : bool := Ascii.eqb c space || Ascii.eqb c brace.

(** A property name that holds no delimiter. *)
Definition name_ok (name : string) : bool :=
  forallb (λ c, negb (delimiter c)) (chars name).

(** [l] is not empty and its last character satisfies [D]. *)
Definition ends_in (D : ascii → Prop) (l : list ascii) : Prop :=
  ∃ l' c, l = l' ++ [c] ∧ D c.

(** What [escape] puts for one character. *)
Definition escape_char (c : ascii) : list ascii :=
  if Ascii.eqb c dquote then [backslash; dquote]
  else if Ascii.eqb c squote then [backslash; squote]
  else [c].

(** The characters of a cell that is rendered without quotes. *)
Definition plain (c : ascii) : Prop := c ≠ space ∧ c ≠ dquote.

Definition digit_or_minus (c : ascii) : bool :=
  is_digit c || Ascii.eqb c "-"%char.

(** The text of a cell in its entry. *)
Definition rendered (v : value) : string :=
  match v with
  | VStr s => quoted (escape s)
  | _ => format_value v
  end.

Definition is_text (v : value) : bool :=
  match v with VStr _ => true | _ => false end.

(** An entry that can be read back: its name holds no delimiter and its
    cell is not null. *)
Definition readable (kv : string * value) : Prop :=
  name_ok kv.1 = true ∧ kv.2 ≠ VNull.

(** The text between the braces, with the opening brace. *)
Definition body (l : list (string * value)) : list ascii :=
  brace :: chars (join ", " (entry_of <$> l)).

(** What stands before the next entry. *)
Definition lead (l : list (string * value)) : list ascii :=
  match l with
  | [] => [brace]
  | _ => body l ++ [","%char; space]
  end.


(** The slices [create_nodes] cuts a data frame into. *)
Definition batches (df : list row) : list (list row) :=
  (λ i, iloc df i (i + batch_size)) <$> range 0 (length df) batch_size.

(** The merge statements of the slices that yield any: one batch statement
    is sent for each. *)
Definition batch_statements (label unique_property : string)
    (properties : list string) (df : list row) : list (list string) :=
  filter (λ b, b ≠ [])
         (merge_statements label unique_property properties <$> batches df).

(** The rows counted for a batch, given the answer to it. *)
Definition credited (b : list string) (r : response) : nat :=
  if is_success r then length b else 0.

End GraphConstructor.

(** ** The constructor agent: [KnowledgeGraphConstructorAgent]

    The tools take the mutable [tool_context.state] and hand it back.
    Calls to the logger are left out. *)

Module KGConstructor.
Import Text Store.

(** [relationship_configs] entries. *)
Record relationship_config := RelationshipConfig {
  from_label : string;
  to_label : string;
  relationship_type : string;
  match_property : string
}.

(** Entries of the [results] list of [create_relationships_tool]. *)
Inductive relationship_result :=
| RelationshipCreated (relationship from to : string) (count : value)
| RelationshipError (relationship error : string).

(** The three counts the health block of [verify_graph_tool] reads, and
    what it adds to [verification_results]. *)
Record verification_results := VerificationResults {
  total_nodes : Z;
  total_relationships : Z;
  connected_paths : list (gmap string value);
  health_score : Z;
  issues : list string;
  status : string
}.

(** The keys of [tool_context.state] the three tools write. *)
Record tool_state := ToolState {
  database_cleared : bool;
  relationships_created : option (list (string * value));
  graph_verification : option verification_results
}.

(** What a tool returns: a dictionary with a status. *)
Inductive tool_result (A : Type) :=
| ToolSuccess (key : string) (payload : A)
| ToolError (error_message : string)
| ToolResponse (result : list (gmap string value)).
Arguments ToolSuccess {A}.
Arguments ToolError {A}.
Arguments ToolResponse {A}.

(** [BaseAgent.process_error] for this agent. *)
Definition process_error {A} (error context : string) : tool_result A :=
  ToolError ("Error in kg_constructor (" +:+ context +:+ "): " +:+ error).

Section Tools.
Context `{GraphDB}.

(** [utils.tools.clear_neo4j_data], whose source is not part of the
    files at hand: any computation that talks to the store. *)
Variable clear_neo4j_data : M response.

(** [clear_database_tool(tool_context, confirm=False)]; [confirm] is
    [None] when the caller leaves it out. *)
Definition clear_database_tool (state : tool_state) (confirm : option bool)
  : M (tool_result unit * tool_state) :=
  let confirm := default false confirm in
  if negb confirm then
    mret (ToolError
            ("Database clear requires explicit confirmation. "
             +:+ "This will delete all existing data!"), state)
  else
    result ← clear_neo4j_data;
    match result with
    | Success rows =>
        mret (ToolResponse rows,
              {| database_cleared := true;
                 relationships_created := relationships_created state;
                 graph_verification := graph_verification state |})
    | Failure error_message =>
        mret (ToolError (default "" error_message), state)
    | Raised e => mret (process_error e "clearing database", state)
    end.

Definition relationship_query (config : relationship_config) : string :=
  newline
  +:+ "                MATCH (from:`" +:+ from_label config
  +:+ "`), (to:`" +:+ to_label config +:+ "`)" +:+ newline
  +:+ "                WHERE from." +:+ match_property config
  +:+ " = to." +:+ match_property config +:+ newline
  +:+ "                MERGE (from)-[r:`" +:+ relationship_type config
  +:+ "`]->(to)" +:+ newline
  +:+ "                SET r.created_at = datetime()" +:+ newline
  +:+ "                RETURN count(r) as relationships_created" +:+ newline
  +:+ "                ".

(** [relationships_created[relationship_type] = count] *)
Fixpoint dict_set (k : string) (v : value) (d : list (string * value))
  : list (string * value) :=
  match d with
  | [] => [(k, v)]
  | (k', v') :: d' =>
      if String.eqb k k' then (k, v) :: d' else (k', v') :: dict_set k v d'
  end.

(** One turn of [for config in relationship_configs]; [inl e] is an
    exception on its way to the handler of the tool. *)
Definition create_relationship
    (acc : string + list relationship_result * list (string * value))
    (config : relationship_config)
  : M (string + list relationship_result * list (string * value)) :=
  match acc with
  | inl e => mret (inl e)
  | inr (results, created) =>
      result ← send_query (relationship_query config);
      match result with
      | Raised e => mret (inl e)
      | Success rows =>
          match rows with
          | [] =>
              mret (inr (results ++ [RelationshipCreated
                                        (relationship_type config)
                                        (from_label config)
                                        (to_label config) (VInt 0)],
                         dict_set (relationship_type config) (VInt 0)
                                  created))
          | first :: _ =>
              match first !! "relationships_created" with
              | None => mret (inl "'relationships_created'")
              | Some count =>
                  mret (inr (results ++ [RelationshipCreated
                                            (relationship_type config)
                                            (from_label config)
                                            (to_label config) count],
                             dict_set (relationship_type config) count
                                      created))
              end
          end
      | Failure error_message =>
          mret (inr (results ++ [RelationshipError
                                    (relationship_type config)
                                    (default "Unknown error" error_message)],
                     created))
      end
  end.

Definition create_relationships_tool (state : tool_state)
    (relationship_configs : list relationship_config)
  : M (tool_result (list relationship_result) * tool_state) :=
  outcome ← for_each create_relationship (inr ([], [])) relationship_configs;
  match outcome with
  | inl e => mret (process_error e "creating relationships", state)
  | inr (results, created) =>
      mret (ToolSuccess "relationship_results" results,
            {| database_cleared := database_cleared state;
               relationships_created := Some created;
               graph_verification := graph_verification state |})
  end.

End Tools.

(** The block of [verify_graph_tool] under [# Determine graph health]. *)
Definition determine_health (total_nodes total_relationships : Z)
    (connected_paths : list (gmap string value)) : verification_results :=
  let health_score := 0%Z in
  let issues : list string := [] in
  let '(health_score, issues) :=
    if (0 <? total_nodes)%Z then ((health_score + 40)%Z, issues)
    else (health_score, issues ++ ["No nodes found in graph"]) in
  let '(health_score, issues) :=
    if (0 <? total_relationships)%Z then ((health_score + 40)%Z, issues)
    else (health_score, issues ++ ["No relationships found in graph"]) in
  let '(health_score, issues) :=
    if (0 <? length connected_paths)%nat then ((health_score + 20)%Z, issues)
    else (health_score, issues ++ ["No connected paths found"]) in
  {| total_nodes := total_nodes;
     total_relationships := total_relationships;
     connected_paths := connected_paths;
     health_score := health_score;
     issues := issues;
     status := if (80 <=? health_score)%Z then "healthy"
               else if (40 <=? health_score)%Z then "degraded"
               else "unhealthy" |}.

Definition node_query : string :=
  newline +:+ "            MATCH (n) " +:+ newline
  +:+ "            RETURN labels(n)[0] as label, count(n) as count "
  +:+ newline
  +:+ "            ORDER BY count DESC" +:+ newline +:+ "            ".

Definition rel_query : string :=
  newline +:+ "            MATCH ()-[r]->() " +:+ newline
  +:+ "            RETURN type(r) as type, count(r) as count " +:+ newline
  +:+ "            ORDER BY count DESC" +:+ newline +:+ "            ".

Definition connected_query : string :=
  newline +:+ "            MATCH path = (a)-[*1..3]-(b)" +:+ newline
  +:+ "            WHERE labels(a) <> labels(b)" +:+ newline
  +:+ "            RETURN labels(a)[0] as from_label, "
  +:+ "labels(b)[0] as to_label, length(path) as path_length" +:+ newline
  +:+ "            LIMIT 10" +:+ newline +:+ "            ".

(** [sum(item['count'] for item in rows)], from the running total on.
    A boolean counts as 0 or 1, as it does for Python's [+].  [inl] is the
    text of the exception of the first row Python raises on: the row has no
    ['count'], or its count is not a number. *)
Fixpoint sum_counts (total : Z) (rows : list (gmap string value))
  : string + Z :=
  match rows with
  | [] => inr total
  | item :: rows' =>
      match item !! "count" with
      | None => inl "'count'"
      | Some (VInt n) => sum_counts (total + n) rows'
      | Some (VBool b) => sum_counts (total + (if b then 1 else 0)) rows'
      | Some (VStr _) =>
          inl "unsupported operand type(s) for +: 'int' and 'str'"
      | Some VNull =>
          inl "unsupported operand type(s) for +: 'int' and 'NoneType'"
      end
  end.

(** The total a count query contributes; [inl] is an exception. *)
Definition total_of (result : response) : string + Z :=
  match result with
  | Raised e => inl e
  | Failure _ => inr 0%Z
  | Success rows => sum_counts 0 rows
  end.

Definition verify_graph_tool `{GraphDB} (state : tool_state)
  : M (tool_result verification_results * tool_state) :=
  let fail e := (process_error e "verifying graph", state) in
  node_result ← send_query node_query;
  match total_of node_result with
  | inl e => mret (fail e)
  | inr total_nodes =>
      rel_result ← send_query rel_query;
      match total_of rel_result with
      | inl e => mret (fail e)
      | inr total_relationships =>
          connected_result ← send_query connected_query;
          match connected_result with
          | Raised e => mret (fail e)
          | _ =>
              let connected_paths :=
                match connected_result with
                | Success rows => rows
                | _ => []
                end in
              let verification_results :=
                determine_health total_nodes total_relationships
                                 connected_paths in
              mret (ToolSuccess "verification_results" verification_results,
                    {| database_cleared := database_cleared state;
                       relationships_created := relationships_created state;
                       graph_verification := Some verification_results |})
          end
      end
  end.


(** *** Notions used in the statements below *)

(** The relationship type an entry of [results] is about. *)
Definition relationship_of (r : relationship_result) : string :=
  match r with
  | RelationshipCreated relationship _ _ _ => relationship
  | RelationshipError relationship _ => relationship
  end.

(** An answer [create_relationships_tool] can digest: it is not an
    exception, and if it brings rows, the first has the count. *)
Definition count_readable (r : response) : Prop :=
  match r with
  | Raised _ => False
  | Success (first :: _) => is_Some (first !! "relationships_created")
  | _ => True
  end.

End KGConstructor.

(** ** The graph store behind [graphdb]

    The store itself (the database and the client module
    [utils/neo4j_for_adk.py]) is not among the source files; its reaction
    to a relationship statement is taken from the specification. *)

Module GraphStore.
Import Store.

(** Modelled from the spec: a typed node of the store, which is not among
    the source files: its identity, its label and its properties. *)
Record gnode := GNode {
  gnode_id : nat;
  gnode_label : string;
  gnode_props : gmap string value
}.

(** Modelled from the spec: a directed, typed edge between two nodes of
    the store, with its creation stamp. *)
Record edge := Edge {
  edge_from : nat;
  edge_type : string;
  edge_to : nat;
  created_at : Z
}.

(** Modelled from the spec: the state of the store. *)
Record graph := Graph {
  nodes : list gnode;
  edges : list edge
}.

(** Modelled from the spec: [RelationshipDescriptor] of the data model. *)
Record RelationshipDescriptor := Descriptor {
  type : string;
  fromLabel : string;
  toLabel : string;
  matchProperty : string
}.

(** Modelled from the spec: the pairs a descriptor selects, that is
    every [a:fromLabel] and [b:toLabel] with
    [a[matchProperty] == b[matchProperty]]; a node without the property
    matches nothing ("a missing match produces zero edges, not an
    error"). *)
Definition selects (d : RelationshipDescriptor) (a b : gnode) : bool :=
  String.eqb (gnode_label a) (fromLabel d)
  && String.eqb (gnode_label b) (toLabel d)
  && match gnode_props a !! matchProperty d,
           gnode_props b !! matchProperty d with
     | Some va, Some vb =>
         bool_decide (va = vb) && bool_decide (va ≠ VNull)
     | _, _ => false
     end.

Definition matched_pairs (d : RelationshipDescriptor) (g : graph)
  : list (gnode * gnode) :=
  a ← nodes g; b ← nodes g; if selects d a b then [(a, b)] else [].

(** Modelled from the spec: merging keyed on endpoint identity and
    type. *)
Definition same_edge (src : nat) (ty : string) (dst : nat) (e : edge) : bool :=
  Nat.eqb (edge_from e) src && String.eqb (edge_type e) ty
  && Nat.eqb (edge_to e) dst.

(** Modelled from the spec: "merges a directed, type-labeled edge stamped
    with a creation timestamp": an edge with these endpoints and this
    type is matched and stamped again, and one is created only when there
    is none. *)
Definition merge_edge (now : Z) (ty : string) (es : list edge)
    (pair : gnode * gnode) : list edge :=
  let src := gnode_id pair.1 in
  let dst := gnode_id pair.2 in
  if existsb (same_edge src ty dst) es
  then (λ e, if same_edge src ty dst e
             then {| edge_from := edge_from e; edge_type := edge_type e;
                     edge_to := edge_to e; created_at := now |}
             else e) <$> es
  else es ++ [{| edge_from := src; edge_type := ty; edge_to := dst;
                 created_at := now |}].

(** Modelled from the spec: the statement of one descriptor run on the
    store: the new store and the number of edges the statement returns. *)
Definition create_relationship (now : Z) (g : graph)
    (d : RelationshipDescriptor) : graph * nat :=
  let pairs := matched_pairs d g in
  ({| nodes := nodes g; edges := foldl (merge_edge now (type d)) (edges g) pairs |},
   length pairs).

(** Modelled from the spec: [CreateRelationships(descriptors) ->
    per-type counts], one statement per descriptor, in order. *)
Definition CreateRelationships (now : Z) (descriptors : list RelationshipDescriptor)
    (g : graph) : graph * list (string * nat) :=
  foldl (λ '(g, counts) d,
           let '(g', n) := create_relationship now g d in
           (g', counts ++ [(type d, n)]))
        (g, []) descriptors.

Definition edges_of_type (ty : string) (g : graph) : list edge :=
  filter (λ e, edge_type e = ty) (edges g).

(** *** Notions used in the statements below *)

(** What a merge looks at: endpoints and type. *)
Definition edge_key (e : edge) : nat * string * nat :=
  (edge_from e, edge_type e, edge_to e).

Definition pair_key (ty : string) (pair : gnode * gnode) : nat * string * nat :=
  (gnode_id pair.1, ty, gnode_id pair.2).

Definition add_key (keys : list (nat * string * nat)) (k : nat * string * nat)
  : list (nat * string * nat) :=
  if bool_decide (k ∈ keys) then keys else keys ++ [k].

(** The keys one descriptor asks for on a given set of nodes. *)
Definition wanted (ns : list gnode) (d : RelationshipDescriptor)
  : list (nat * string * nat) :=
  pair_key (type d) <$> matched_pairs d {| nodes := ns; edges := [] |}.

Definition add_wanted (ns : list gnode) (keys : list (nat * string * nat))
    (d : RelationshipDescriptor) : list (nat * string * nat) :=
  foldl add_key keys (wanted ns d).

Definition product_p1 : gnode :=
  {| gnode_id := 0; gnode_label := "Product";
     gnode_props := {[ "product_id" := VStr "P1" ]} |}.

Definition assembly_p1 : gnode :=
  {| gnode_id := 1; gnode_label := "Assembly";
     gnode_props := {[ "product_id" := VStr "P1" ]} |}.

Definition contains : RelationshipDescriptor :=
  {| type := "CONTAINS"; fromLabel := "Product"; toLabel := "Assembly";
     matchProperty := "product_id" |}.

End GraphStore.

(** ** The construction script: [GraphConstructor.create_relationships] *)

Module ScriptRelationships.
Import Text Store.

(** A line written by [create_relationships].  The lines are returned
    beside the result of the method, oldest first. *)
Inductive report :=
| CreatingRelationships
| Creating (name : string)
| Created (name : string) (count : value)
| RelationshipError (name error_message : string)
| RelationshipException (name exception : string).

Definition contains_query : string :=
  newline +:+ "        MATCH (p:Product), (a:Assembly)" +:+ newline
  +:+ "        WHERE a.product_id = p.product_id" +:+ newline
  +:+ "        MERGE (p)-[r:CONTAINS]->(a)" +:+ newline
  +:+ "        SET r.created_at = datetime()" +:+ newline
  +:+ "        RETURN count(r) as created" +:+ newline
  +:+ "        ".

Definition part_of_query : string :=
  newline +:+ "        MATCH (part:Part), (a:Assembly)" +:+ newline
  +:+ "        WHERE part.assembly_id = a.assembly_id" +:+ newline
  +:+ "        MERGE (part)-[r:IS_PART_OF]->(a)" +:+ newline
  +:+ "        SET r.created_at = datetime()" +:+ newline
  +:+ "        RETURN count(r) as created" +:+ newline
  +:+ "        ".

Definition supplier_query : string :=
  newline +:+ "        MATCH (part:Part), (supplier:Supplier)" +:+ newline
  +:+ "        WITH part, supplier" +:+ newline
  +:+ "        ORDER BY part.part_id, supplier.supplier_id" +:+ newline
  +:+ "        WITH part, collect(supplier)[0..1] as suppliers" +:+ newline
  +:+ "        UNWIND suppliers as supplier" +:+ newline
  +:+ "        MERGE (part)-[r:SUPPLIED_BY]->(supplier)" +:+ newline
  +:+ "        SET r.created_at = datetime()" +:+ newline
  +:+ "        RETURN count(r) as created" +:+ newline
  +:+ "        ".

(** One of the three numbered blocks: the line that announces it, then
    the [try] block and its handler.  Indexing an empty result and a
    first row without ['created'] both end in the handler. *)
Definition create_one `{GraphDB} (name query : string)
    (acc : list (string * value) * list report)
  : M (list (string * value) * list report) :=
  let '(relationships_created, lines) := acc in
  let lines := lines ++ [Creating name] in
  result ← send_query query;
  match result with
  | Success rows =>
      match rows with
      | [] =>
          mret (relationships_created,
                lines ++ [RelationshipException
                            name "list index out of range"])
      | first :: _ =>
          match first !! "created" with
          | None =>
              mret (relationships_created,
                    lines ++ [RelationshipException name "'created'"])
          | Some count =>
              mret (KGConstructor.dict_set name count relationships_created,
                    lines ++ [Created name count])
          end
      end
  | Failure error_message =>
      mret (relationships_created,
            lines ++ [RelationshipError name (default "Unknown" error_message)])
  | Raised e =>
      mret (relationships_created, lines ++ [RelationshipException name e])
  end.

Definition create_relationships `{GraphDB}
  : M (list (string * value) * list report) :=
  acc ← create_one "CONTAINS" contains_query ([], [CreatingRelationships]);
  acc ← create_one "IS_PART_OF" part_of_query acc;
  create_one "SUPPLIED_BY" supplier_query acc.

(** *** Notions used in the statements below *)

(** The count an answer brings for a relationship type, if it brings
    one: the answer is a success and its first row has the count. *)
Definition counted (name : string) (r : response) : option (string * value) :=
  match r with
  | Success (first :: _) => (λ count, (name, count)) <$> first !! "created"
  | _ => None
  end.

End ScriptRelationships.

(** ** The analysis tool of [SchemaProposalAgent] *)

Module SchemaTools.
Import Text SchemaProposal.

(** [s.endswith(suffix)] *)
Definition endswith (s suffix : string) : bool :=
  (String.length suffix <=? String.length s)%nat
  && String.eqb (substring (String.length s - String.length suffix)
                           (String.length suffix) s)
                suffix.

(** The dictionaries appended to [schema_proposal["constraints"]]. *)
Record constraint := Constraint {
  constraint_type : string;
  constraint_label : string;
  constraint_property : string
}.

(** [schema_proposal] of [analyze_structured_data_tool]. *)
Record schema_proposal := SchemaProposal {
  analysis_type : string;
  files_analyzed : list string;
  nodes : list node;
  relationships : list relationship;
  constraints : list constraint;
  import_order : list string
}.

(** The dictionaries appended by [_suggest_indexes]. *)
Record index := Index {
  index_type : string;
  index_label : string;
  index_property : string;
  index_reason : string
}.

(** What the call [sample_file(tool_context, filename, 3)] comes to:
    a result with status success and its data, a result with another
    status, or an exception (raised by the call, or by reading a key the
    result lacks). *)
Inductive sample_result :=
| SampleSuccess (data : sample_data)
| SampleFailed
| SampleRaised (exception : string).

(** The key of [tool_context.state] the analysis writes. *)
Record tool_state := ToolState {
  structured_schema_proposal : option schema_proposal
}.

(** [BaseAgent.process_error] for this agent. *)
Definition process_error {A} (error context : string)
  : KGConstructor.tool_result A :=
  KGConstructor.ToolError
    ("Error in schema_proposal (" +:+ context +:+ "): " +:+ error).

(** The truth value of [node["primary_key"]]: neither [None] nor the
    empty string. *)
Definition has_primary_key (n : node) : bool :=
  match node_primary_key n with
  | Some key => negb (String.eqb key "")
  | None => false
  end.

Definition _suggest_indexes (nodes : list node) : list index :=
  foldl (λ indexes n,
           if has_primary_key n
           then indexes ++ [{| index_type := "btree";
                               index_label := node_label n;
                               index_property := default "" (node_primary_key n);
                               index_reason := "Primary key lookup performance" |}]
           else indexes)
        [] nodes.

Section Analysis.

(** [utils.tools.sample_file], whose source is not part of the files at
    hand: its result may depend on the file name and on the files sampled
    before it in the same call (oldest first). *)
Variable sample_file : list string → string → sample_result.

(** [_infer_node_label]: the statements below hold for whatever label it
    gives a file name. *)
Variable _infer_node_label : string → string.

(** What the loop over [files] has built so far. *)
Record progress := Progress {
  sampled : list string;
  found_nodes : list node;
  found_constraints : list constraint
}.

(** One turn of [for filename in files]; [inl e] is an exception on its
    way to the handler of the tool. *)
Definition analyze_file (acc : string + progress) (filename : string)
  : string + progress :=
  match acc with
  | inl e => inl e
  | inr acc =>
      if negb (endswith filename ".csv") then inr acc
      else
        match sample_file (sampled acc) filename with
        | SampleRaised e => inl e
        | SampleFailed =>
            inr {| sampled := sampled acc ++ [filename];
                   found_nodes := found_nodes acc;
                   found_constraints := found_constraints acc |}
        | SampleSuccess data =>
            let node_label := _infer_node_label filename in
            let properties := _extract_properties_from_sample data in
            let node_info :=
              {| node_label := node_label;
                 node_source_file := filename;
                 node_properties := properties;
                 node_primary_key := _infer_primary_key properties |} in
            inr {| sampled := sampled acc ++ [filename];
                   found_nodes := found_nodes acc ++ [node_info];
                   found_constraints :=
                     if has_primary_key node_info
                     then found_constraints acc
                            ++ [{| constraint_type := "uniqueness";
                                   constraint_label := node_label;
                                   constraint_property :=
                                     default "" (node_primary_key node_info) |}]
                     else found_constraints acc |}
        end
  end.

Definition analyze_structured_data_tool (state : tool_state)
    (files : list string)
  : KGConstructor.tool_result schema_proposal * tool_state :=
  match foldl analyze_file
              (inr {| sampled := []; found_nodes := [];
                      found_constraints := [] |}) files with
  | inl e => (process_error e "analyzing structured data", state)
  | inr acc =>
      let relationships := _infer_relationships (found_nodes acc) in
      let import_order :=
        _calculate_import_order (found_nodes acc) relationships in
      let schema_proposal :=
        {| analysis_type := "structured";
           files_analyzed := files;
           nodes := found_nodes acc;
           relationships := relationships;
           constraints := found_constraints acc;
           import_order := import_order |} in
      (KGConstructor.ToolSuccess "structured_data_analysis" schema_proposal,
       {| structured_schema_proposal := Some schema_proposal |})
  end.

End Analysis.

(** *** Notions used in the statements below *)

(** The uniqueness constraint on a node's primary key, if it has one. *)
Definition constraint_of (n : node) : option constraint :=
  (λ key, {| constraint_type := "uniqueness";
             constraint_label := node_label n;
             constraint_property := key |}) <$> node_primary_key n.

(** A node as the analysis builds it from a file. *)
Definition analysed (_infer_node_label : string → string) (n : node) : Prop :=
  node_label n = _infer_node_label (node_source_file n)
  ∧ (∃ data, node_properties n = _extract_properties_from_sample data)
  ∧ node_primary_key n = _infer_primary_key (node_properties n).

End SchemaTools.

(** ** The base class of the agents: [BaseAgent] *)

Module AgentBase.
Import Text.

Section Validation.

(** What a field of the input holds when it is not [None]. *)
Variable payload : Type.

(** [validate_input]; [required_fields] is what the agent's
    [get_required_input_fields] returns, and a field that holds [None]
    is a key with the value [None]. *)
Definition validate_input (required_fields : list string)
    (input_data : gmap string (option payload)) : list string :=
  foldl (λ errors field,
           match input_data !! field with
           | None => errors ++ ["Required field missing: " +:+ field]
           | Some None => errors ++ ["Required field is None: " +:+ field]
           | Some (Some _) => errors
           end)
        [] required_fields.

End Validation.
Arguments validate_input {payload}.

(** [get_required_input_fields] of [BaseAgent], and its override in
    [SchemaProposalAgent] and [KnowledgeGraphConstructorAgent]. *)
Definition get_required_input_fields : list string := [].
Definition agent_required_input_fields : list string :=
  ["approved_user_goal"; "approved_files"].

(** *** Notions used in the statements below *)

(** The complaint about one field, if there is one. *)
Definition complaint {payload} (input_data : gmap string (option payload))
    (field : string) : option string :=
  match input_data !! field with
  | None => Some ("Required field missing: " +:+ field)
  | Some None => Some ("Required field is None: " +:+ field)
  | Some (Some _) => None
  end.

End AgentBase.

(** ** Configuration: [ConfigManager] *)

Module ConfigManager.
Import Text.

(** [s.split(sep)] for a one-character [sep]. *)
Fixpoint split (sep : ascii) (s : string) : list string :=
  match s with
  | EmptyString => [EmptyString]
  | String c s' =>
      if Ascii.eqb c sep then EmptyString :: split sep s'
      else match split sep s' with
           | first :: parts => String c first :: parts
           | [] => [String c EmptyString]
           end
  end.

Section Config.

(** A configuration value that is not a dictionary. *)
Variable leaf : Type.

(** A configuration value as [_deep_merge] reads it: a dictionary with
    string keys, in insertion order, or anything else. *)
#[warnings="-register-all"] Inductive cfg :=
| Leaf (v : leaf)
| Dict (entries : list (string * cfg)).

(** [d[key]]; [None] where Python raises [KeyError]. *)
Fixpoint item (key : string) (d : list (string * cfg)) : option cfg :=
  match d with
  | [] => None
  | (k, v) :: d' => if String.eqb key k then Some v else item key d'
  end.

(** [d[key] = value] *)
Fixpoint assign (key : string) (value : cfg) (d : list (string * cfg))
  : list (string * cfg) :=
  match d with
  | [] => [(key, value)]
  | (k, v) :: d' =>
      if String.eqb key k then (k, value) :: d'
      else (k, v) :: assign key value d'
  end.

(** Indexing a value by one key after the other: [None] where indexing
    raises [KeyError] (the key is not in the dictionary) or [TypeError]
    (the value is not a dictionary). *)
Fixpoint follow (value : cfg) (keys : list string) : option cfg :=
  match keys with
  | [] => Some value
  | key :: keys' =>
      match value with
      | Dict d =>
          match item key d with
          | Some value' => follow value' keys'
          | None => None
          end
      | Leaf _ => None
      end
  end.

End Config.
Arguments Leaf {leaf}.
Arguments Dict {leaf}.
Arguments item {leaf}.
Arguments assign {leaf}.
Arguments follow {leaf}.

(** *** The configuration as objects

    [get] returns and [set] stores a dictionary itself and not a copy of
    it: a dictionary is an object with an identity, and two keys can hold
    the same one. *)

Section Objects.

(** A configuration value that is not a dictionary. *)
Variable leaf : Type.

(** A value: something that is not a dictionary, or a dictionary, given
    by its identity. *)
Inductive val :=
| Atom (v : leaf)
| Obj (id : nat).

(** The dictionaries that exist, by identity, each with its entries in
    insertion order. *)
Abbreviation heap := (gmap nat (list (string * val))).

Definition entries (h : heap) (id : nat) : list (string * val) :=
  default [] (h !! id).

(** [d[key]]; [None] where Python raises [KeyError]. *)
Fixpoint entry (key : string) (d : list (string * val)) : option val :=
  match d with
  | [] => None
  | (k, v) :: d' => if String.eqb key k then Some v else entry key d'
  end.

(** The entries after [d[key] = value]. *)
Fixpoint put (key : string) (value : val) (d : list (string * val))
  : list (string * val) :=
  match d with
  | [] => [(key, value)]
  | (k, v) :: d' =>
      if String.eqb key k then (k, value) :: d'
      else (k, v) :: put key value d'
  end.

(** [config[key] = value] on the dictionary [config]. *)
Definition store (h : heap) (config : nat) (key : string) (value : val)
  : heap :=
  <[config := put key value (entries h config)]> h.

(** The identity of a dictionary made by [{}]: none that exists. *)
Definition new_dict (h : heap) : nat := fresh (dom h).

(** The loop of [get]: [None] where indexing raises [KeyError] (the key
    is not in the dictionary) or [TypeError] (the value is not a
    dictionary). *)
Fixpoint lookup_path (h : heap) (value : val) (keys : list string)
  : option val :=
  match keys with
  | [] => Some value
  | key :: keys' =>
      match value with
      | Obj id =>
          match entry key (entries h id) with
          | Some value' => lookup_path h value' keys'
          | None => None
          end
      | Atom _ => None
      end
  end.

(** [get]; [_config] is the identity of [self._config]. *)
Definition get (h : heap) (_config : nat) (key_path : string)
    (default : val) : val :=
  match lookup_path h (Obj _config) (split "." key_path) with
  | Some value => value
  | None => default
  end.

(** The body of [set] on the list of keys, from the dictionary [config]
    on: the dictionaries as the call leaves them, and the exception if one
    is raised. *)
Fixpoint set_keys (h : heap) (config : nat) (keys : list string)
    (key_path : string) (value : val) : heap * option string :=
  match keys with
  | [] => (h, Some "list index out of range")
  | key :: keys' =>
      match keys' with
      | [] => (store h config key value, None)
      | _ :: _ =>
          let h :=
            match entry key (entries h config) with
            | None =>
                let id := new_dict h in
                store (<[id := []]> h) config key (Obj id)
            | Some _ => h
            end in
          match entry key (entries h config) with
          | Some (Obj id) => set_keys h id keys' key_path value
          | _ =>
              (h,
               Some ("Cannot set nested key " +:+ key_path +:+ ": " +:+ key
                     +:+ " is not a dictionary"))
          end
      end
  end.

Definition set (h : heap) (_config : nat) (key_path : string) (value : val)
  : heap * option string :=
  set_keys h _config (split "." key_path) key_path value.

(** Every dictionary an entry refers to exists. *)
Definition closed (h : heap) : Prop :=
  ∀ id key id', entry key (entries h id) = Some (Obj id') → id' ∈ dom h.

(** The value exists, if it is a dictionary. *)
Definition known (h : heap) (value : val) : Prop :=
  match value with
  | Obj id => id ∈ dom h
  | Atom _ => True
  end.

(** The last key of a path. *)
Definition final (keys : list string) : string := default "" (last keys).

(** The keys before the last. *)
Definition leading (keys : list string) : list string :=
  take (length keys - 1) keys.

End Objects.
Abbreviation heap leaf := (gmap nat (list (string * val leaf))).
Arguments Atom {leaf}.
Arguments Obj {leaf}.
Arguments entries {leaf}.
Arguments entry {leaf}.
Arguments put {leaf}.
Arguments store {leaf}.
Arguments new_dict {leaf}.
Arguments lookup_path {leaf}.
Arguments get {leaf}.
Arguments set_keys {leaf}.
Arguments set {leaf}.
Arguments closed {leaf}.
Arguments known {leaf}.

(** What [_deep_merge] leaves under a key of the update: the old value
    merged with the new one when both are dictionaries, the new value
    otherwise.  [old] is [None] when the key is not in the base. *)
Fixpoint merged_value {leaf} (value : cfg leaf) (old : option (cfg leaf))
  : cfg leaf :=
  match value with
  | Dict update_dict =>
      match old with
      | Some (Dict base_dict) =>
          Dict ((fix items (update_dict base_dict : list (string * cfg leaf))
                   : list (string * cfg leaf) :=
                   match update_dict with
                   | [] => base_dict
                   | (key, value) :: update_dict' =>
                       items update_dict'
                             (assign key
                                     (merged_value value (item key base_dict))
                                     base_dict)
                   end) update_dict base_dict)
      | _ => value
      end
  | Leaf _ => value
  end.

(** [_deep_merge(base_dict, update_dict)]: the base as the call leaves
    it. *)
Definition _deep_merge {leaf} (base_dict update_dict : list (string * cfg leaf))
  : list (string * cfg leaf) :=
  foldl (λ base_dict '(key, value),
           assign key (merged_value value (item key base_dict)) base_dict)
        base_dict update_dict.

(** *** Notions used in the statements below *)

(** No dictionary met on the way along [keys] lists a key twice. *)
Fixpoint unique_along {leaf} (value : cfg leaf) (keys : list string) : Prop :=
  match keys, value with
  | key :: keys', Dict d =>
      NoDup d.*1
      ∧ match item key d with
        | Some value' => unique_along value' keys'
        | None => True
        end
  | _, _ => True
  end.

End ConfigManager.

(** ** The construction script: loading, verifying, the whole run

    [printed] keeps the lines of [create_nodes] and of the clearing block;
    the other lines these methods print are written and never read, and
    are not recorded here. *)

Module GraphScript.
Import Text Store GraphConstructor.

(** An entry of [self.construction_plan]. *)
Record plan_entry := PlanEntry {
  file : string;
  label : string;
  unique_property : string;
  properties : list string
}.

(** [self.construction_plan] as [__init__] sets it, in insertion order. *)
Definition construction_plan : list (string * plan_entry) :=
  [("Product",
    {| file := "products.csv"; label := "Product";
       unique_property := "product_id";
       properties := ["product_name"; "price"; "description"] |});
   ("Assembly",
    {| file := "assemblies.csv"; label := "Assembly";
       unique_property := "assembly_id";
       properties := ["assembly_name"; "quantity"; "product_id"] |});
   ("Part",
    {| file := "parts.csv"; label := "Part";
       unique_property := "part_id";
       properties := ["part_name"; "quantity"; "assembly_id"] |});
   ("Supplier",
    {| file := "suppliers.csv"; label := "Supplier";
       unique_property := "supplier_id";
       properties := ["name"; "specialty"; "city"; "country"; "website";
                      "contact_email"] |})].

(** What [load_csv_data] finds for a file of the data directory: no file,
    a file [pd.read_csv] raises on, or a data frame. *)
Inductive csv_file :=
| NotFound
| Unreadable (exception : string)
| Loaded (df : list row).

(** [load_csv_data]: the data frames by lower-cased node type. *)
Definition load_csv_data (plan : list (string * plan_entry))
    (read_csv : string → csv_file) : gmap string (list row) :=
  foldl (λ (csv_data : gmap string (list row)) '(node_type, config),
           match read_csv (file config) with
           | Loaded df => <[lower node_type := df]> csv_data
           | _ => csv_data
           end)
        ∅ plan.

(** The loop under [# Create all nodes]. *)
Definition create_all_nodes `{GraphDB} (plan : list (string * plan_entry))
    (csv_data : gmap string (list row)) : M nat :=
  for_each (λ total_nodes_created '(node_type, config),
              let df_key := lower node_type in
              match csv_data !! df_key with
              | Some df =>
                  nodes_created ←
                    create_nodes df (label config) (unique_property config)
                                 (properties config);
                  mret (total_nodes_created + nodes_created)
              | None => mret total_nodes_created
              end)
           0 plan.

(** The number a value adds to a running total; [None] where [+] raises
    [TypeError]. *)
Definition number (v : value) : option Z :=
  match v with
  | VInt n => Some n
  | VBool b => Some (if b then 1 else 0)%Z
  | VStr _ | VNull => None
  end.

(** [sum(values)] *)
Fixpoint sum_values (values : list value) : option Z :=
  match values with
  | [] => Some 0%Z
  | v :: values' =>
      n ← sum_values values'; m ← number v; Some (m + n)%Z
  end.

Definition node_count_query : string :=
  newline +:+ "            MATCH (n) " +:+ newline
  +:+ "            RETURN labels(n)[0] as node_type, count(n) as count "
  +:+ newline
  +:+ "            ORDER BY count DESC" +:+ newline +:+ "            ".

Definition relationship_count_query : string :=
  newline +:+ "            MATCH ()-[r]-() " +:+ newline
  +:+ "            RETURN type(r) as relationship_type, count(r) as count "
  +:+ newline
  +:+ "            ORDER BY count DESC" +:+ newline +:+ "            ".

Definition path_query : string :=
  newline
  +:+ "            MATCH (p:Product)-[:CONTAINS]->(a:Assembly)"
  +:+ "<-[:IS_PART_OF]-(part:Part)-[:SUPPLIED_BY]->(s:Supplier)" +:+ newline
  +:+ "            RETURN p.product_name, a.assembly_name, "
  +:+ "part.part_name, s.name" +:+ newline
  +:+ "            LIMIT 3" +:+ newline +:+ "            ".

(** What [verify_graph] returns.  [nodes] and [relationships] list the
    assignments to the two dictionaries, oldest first; a total is [None]
    when its key was never set; a connected path is kept as the four
    values its line is formatted from. *)
Record verification := Verification {
  nodes : list (value * value);
  total_nodes : option Z;
  relationships : list (value * value);
  total_relationships : option Z;
  connected_paths : list (value * value * value * value)
}.

(** The loop over the rows of a count query; it ends without a total
    when reading a row raises. *)
Fixpoint tally (type_key : string) (rows : list (gmap string value))
    (assigned : list (value * value)) (total : Z)
  : list (value * value) * option Z :=
  match rows with
  | [] => (assigned, Some total)
  | stat :: rows' =>
      match stat !! type_key with
      | None => (assigned, None)
      | Some node_type =>
          match stat !! "count" with
          | None => (assigned, None)
          | Some count =>
              let assigned := assigned ++ [(node_type, count)] in
              match number count with
              | None => (assigned, None)
              | Some n => tally type_key rows' assigned (total + n)%Z
              end
          end
      end
  end.

(** The loop over the rows of the path query; it ends at the first row
    that lacks one of the four columns. *)
Fixpoint format_paths (rows : list (gmap string value))
  : list (value * value * value * value) :=
  match rows with
  | [] => []
  | path :: rows' =>
      match path !! "p.product_name", path !! "a.assembly_name",
            path !! "part.part_name", path !! "s.name" with
      | Some p, Some a, Some part, Some s =>
          (p, a, part, s) :: format_paths rows'
      | _, _, _, _ => []
      end
  end.

Definition verify_graph `{GraphDB} : M verification :=
  node_result ← send_query node_count_query;
  let '(nodes, total_nodes) :=
    match node_result with
    | Success rows => tally "node_type" rows [] 0%Z
    | _ => ([], None)
    end in
  rel_result ← send_query relationship_count_query;
  let '(relationships, total_relationships) :=
    match rel_result with
    | Success rows => tally "relationship_type" rows [] 0%Z
    | _ => ([], None)
    end in
  path_result ← send_query path_query;
  let connected_paths :=
    match path_result with
    | Success rows => format_paths rows
    | _ => []
    end in
  mret {| nodes := nodes; total_nodes := total_nodes;
          relationships := relationships;
          total_relationships := total_relationships;
          connected_paths := connected_paths |}.

(** How a call of [construct_complete_graph] ends. *)
Inductive outcome :=
| Returns (success : bool)
| Raises (exception : string).

(** [success] of the final summary. *)
Definition graph_complete (verification : verification) : bool :=
  (0 <? default 0 (total_nodes verification))%Z
  && (0 <? default 0 (total_relationships verification))%Z
  && (0 <? length (connected_paths verification))%nat.

(** The whole of [construct_complete_graph]; the module
    [GraphConstructor] has its opening block.  [plan] is
    [self.construction_plan] and [read_csv] what the data directory
    holds. *)
Definition construct_complete_graph `{GraphDB}
    (plan : list (string * plan_entry)) (read_csv : string → csv_file)
    (clear_existing : option bool) : M outcome :=
  returned ← clear_existing_graph clear_existing;
  match returned with
  | Some success => mret (Returns success)
  | None =>
      let csv_data := load_csv_data plan read_csv in
      if decide (csv_data = ∅) then mret (Returns false)
      else
        total_nodes_created ← create_all_nodes plan csv_data;
        created ← ScriptRelationships.create_relationships;
        let relationships_created := created.1 in
        match sum_values relationships_created.*2 with
        | None => mret (Raises "TypeError")
        | Some total_rels =>
            verification ← verify_graph;
            mret (Returns (graph_complete verification))
        end
  end.

Definition test_query : string := "RETURN 'Connection successful!' as message".

(** [main]: the exit status of the script. *)
Definition main `{GraphDB} (read_csv : string → csv_file) : M Z :=
  test_result ← send_query test_query;
  match test_result with
  | Success _ =>
      outcome ← construct_complete_graph construction_plan read_csv (Some true);
      match outcome with
      | Returns true => mret 0%Z
      | Returns false => mret 1%Z
      | Raises _ => mret 1%Z
      end
  | _ => mret 1%Z
  end.

(** *** Notions used in the statements below *)

(** The statements [create_nodes] sends for the node types that have a
    data frame, in the order of the plan. *)
Definition node_statements (plan : list (string * plan_entry))
    (csv_data : gmap string (list row)) : list string :=
  plan ≫= λ '(node_type, config),
    match csv_data !! lower node_type with
    | Some df =>
        constraint_query (label config) (unique_property config)
          :: (join newline
                <$> batch_statements (label config) (unique_property config)
                                     (properties config) df)
    | None => []
    end.

(** The total [verify_graph] reads off the answer to a count query. *)
Definition counted_total (type_key : string) (r : response) : option Z :=
  match r with
  | Success rows => (tally type_key rows [] 0%Z).2
  | _ => None
  end.

(** The paths [verify_graph] reads off the answer to the path query. *)
Definition paths_of (r : response) : list (value * value * value * value) :=
  match r with
  | Success rows => format_paths rows
  | _ => []
  end.

End GraphScript.

(** ** The node merge of the store

    What the store does with a merge statement is not among the source
    files; it is taken from the specification: "a node matches only if ALL
    projected properties are identical", and a merge is "create-if-absent,
    otherwise match existing". *)

Module NodeStore.
Import Text Store GraphConstructor GraphStore.





End NodeStore.

(** * Properties *)

(** ** Lists and strings *)

Module TextFacts.
Import Text.

Lemma mem_spec (x : string) (l : list string) : mem x l = true ↔ x ∈ l.
Proof.
  unfold mem. rewrite existsb_exists, list_elem_of_In. split.
  - intros (y & Hy & Heq). apply String.eqb_eq in Heq. by subst.
  - intros Hx. exists x. split; [done | apply String.eqb_refl].
Qed.

(** A loop that only appends is a bind of the list monad. *)
Lemma foldl_app_bind {A B} (g : A → list B) (l : list A) (acc : list B) :
  foldl (λ acc x, acc ++ g x) acc l = acc ++ (l ≫= g).
Proof.
  revert acc. induction l as [|x l IH]; intros acc; simpl.
  - by rewrite app_nil_r.
  - rewrite IH. by rewrite <- app_assoc.
Qed.

Lemma foldl_snoc_map {A B} (f : A → B) (l : list A) (acc : list B) :
  foldl (λ acc x, acc ++ [f x]) acc l = acc ++ (f <$> l).
Proof.
  revert acc. induction l as [|x l IH]; intros acc; simpl.
  - by rewrite app_nil_r.
  - rewrite IH. by rewrite <- app_assoc.
Qed.

Lemma foldl_ext_in {A B} (f g : B → A → B) (l : list A) (acc : B) :
  (∀ b x, x ∈ l → f b x = g b x) → foldl f acc l = foldl g acc l.
Proof.
  revert acc. induction l as [|x l IH]; intros acc Hfg; simpl; [done|].
  rewrite Hfg by left. apply IH. intros b y Hy. apply Hfg. by right.
Qed.

End TextFacts.

(** ** Schema inference *)

Module SchemaProposalFacts.
Import Text TextFacts SchemaProposal.

Lemma key_like_mem prop :
  mem (lower (prop_name prop)) ["id"; "uuid"; "key"] = true ↔ key_like prop.
Proof. apply mem_spec. Qed.

Lemma infer_primary_key_some properties k :
  _infer_primary_key properties = Some k ↔
  ∃ before prop after,
    properties = before ++ prop :: after ∧ prop_name prop = k ∧
    key_like prop ∧ Forall (λ p, ¬ key_like p) before.
Proof.
  induction properties as [|p ps IH]; cbn [_infer_primary_key].
  - split; [done|]. intros (before & prop & after & Heq & _).
    by destruct before.
  - destruct (mem (lower (prop_name p)) ["id"; "uuid"; "key"]) eqn:Hp.
    + apply key_like_mem in Hp. split.
      * intros [= <-]. by exists [], p, ps.
      * intros (before & prop & after & Heq & Hk & Hkey & Hbefore).
        destruct before as [|q before]; simplify_eq/=; [done|].
        by inversion Hbefore.
    + assert (¬ key_like p) as Hnp.
      { intros Hk. apply key_like_mem in Hk. congruence. }
      rewrite IH. split.
      * intros (before & prop & after & -> & Hk & Hkey & Hbefore).
        exists (p :: before), prop, after. by repeat split; [| |constructor].
      * intros (before & prop & after & Heq & Hk & Hkey & Hbefore).
        destruct before as [|q before]; simplify_eq/=; [done|].
        inversion Hbefore; subst. by exists before, prop, after.
Qed.

Lemma infer_primary_key_none properties :
  _infer_primary_key properties = None ↔
  Forall (λ p, ¬ key_like p) properties.
Proof.
  induction properties as [|p ps IH]; cbn [_infer_primary_key]; [by split|].
  destruct (mem (lower (prop_name p)) ["id"; "uuid"; "key"]) eqn:Hp.
  - apply key_like_mem in Hp. split; [done|]. by inversion 1.
  - rewrite IH. split.
    + intros Hps. constructor; [|done].
      intros Hk. apply key_like_mem in Hk. congruence.
    + by inversion 1.
Qed.

Lemma visit_other_emitted n prop relationships other_node :
  visit_other n prop relationships other_node
  = relationships ++ emitted n prop other_node.
Proof.
  unfold visit_other, emitted. destruct (decide (n = other_node)).
  - by rewrite app_nil_r.
  - destruct (is_foreign_key _ _); [done | by rewrite app_nil_r].
Qed.

(** The three nested loops, as a comprehension in the order of the loops. *)
Lemma infer_relationships_bind nodes :
  _infer_relationships nodes
  = n ← nodes; prop ← node_properties n; other_node ← nodes;
    emitted n prop other_node.
Proof.
  unfold _infer_relationships.
  rewrite <- (app_nil_l (mbind _ nodes)).
  rewrite <- (foldl_app_bind
                (λ n, prop ← node_properties n; other_node ← nodes;
                      emitted n prop other_node)).
  apply foldl_ext_in. intros acc n _.
  rewrite <- (foldl_app_bind
                (λ prop, other_node ← nodes; emitted n prop other_node)).
  apply foldl_ext_in. intros acc' prop _.
  rewrite <- (foldl_app_bind (emitted n prop)).
  apply foldl_ext_in. intros acc'' other_node _.
  apply visit_other_emitted.
Qed.

Lemma is_foreign_key_spec prop_name other_label :
  is_foreign_key prop_name other_label = true ↔
  prop_name = other_label +:+ "_id" ∨ prop_name = other_label +:+ "id".
Proof.
  unfold is_foreign_key. by rewrite orb_true_iff, !String.eqb_eq.
Qed.

Lemma elem_of_emitted r n prop other_node :
  r ∈ emitted n prop other_node ↔
  n ≠ other_node ∧
  (lower (prop_name prop) = lower (node_label other_node) +:+ "_id"
   ∨ lower (prop_name prop) = lower (node_label other_node) +:+ "id") ∧
  r = belongs_to n prop other_node.
Proof.
  unfold emitted. destruct (decide (n = other_node)) as [->|Hne].
  - rewrite elem_of_nil. split; [done|]. by intros [? _].
  - destruct (is_foreign_key _ _) eqn:Hfk.
    + apply is_foreign_key_spec in Hfk. rewrite list_elem_of_singleton.
      split; [by intros -> | by intros (_ & _ & ->)].
    + rewrite elem_of_nil. split; [done|]. intros (_ & Hfk' & _).
      apply is_foreign_key_spec in Hfk'. congruence.
Qed.

Lemma has_foreign_key_spec relationships n :
  has_foreign_key relationships n = true ↔
  ∃ rel, rel ∈ relationships ∧ rel_from_label rel = node_label n.
Proof.
  unfold has_foreign_key. rewrite existsb_exists.
  setoid_rewrite String.eqb_eq. by setoid_rewrite list_elem_of_In.
Qed.

(** The loop of [_calculate_import_order] with its two accumulators. *)
Lemma import_order_loop relationships nodes independent dependent :
  foldl (λ '(independent_nodes, dependent_nodes) n,
           if has_foreign_key relationships n
           then (independent_nodes, dependent_nodes ++ [node_source_file n])
           else (independent_nodes ++ [node_source_file n], dependent_nodes))
        (independent, dependent) nodes
  = (independent
       ++ (node_source_file
             <$> filter (λ n, ¬ has_foreign_key relationships n) nodes),
     dependent
       ++ (node_source_file
             <$> filter (λ n, has_foreign_key relationships n) nodes)).
Proof.
  revert independent dependent.
  induction nodes as [|n nodes IH]; intros independent dependent; simpl.
  - by rewrite !app_nil_r.
  - destruct (has_foreign_key relationships n) eqn:Hn; rewrite IH.
    + rewrite filter_cons_False, filter_cons_True by (rewrite Hn; naive_solver).
      simpl. by rewrite <- app_assoc.
    + rewrite filter_cons_True, filter_cons_False by (rewrite Hn; naive_solver).
      simpl. by rewrite <- app_assoc.
Qed.

Lemma import_order_filters nodes relationships :
  _calculate_import_order nodes relationships
  = (node_source_file
       <$> filter (λ n, ¬ has_foreign_key relationships n) nodes)
    ++ (node_source_file
          <$> filter (λ n, has_foreign_key relationships n) nodes).
Proof. unfold _calculate_import_order. by rewrite import_order_loop. Qed.

Lemma independent_before_dependent nodes relationships X Y :
  X ∈ nodes → Y ∈ nodes →
  has_foreign_key relationships X = false →
  has_foreign_key relationships Y = true →
  placed_before (node_source_file X) (node_source_file Y)
                (_calculate_import_order nodes relationships).
Proof.
  intros HX HY HXi HYd. rewrite import_order_filters.
  assert (X ∈ filter (λ n, ¬ has_foreign_key relationships n) nodes) as HX'.
  { apply list_elem_of_filter. split; [|done]. rewrite HXi. naive_solver. }
  assert (Y ∈ filter (λ n, has_foreign_key relationships n) nodes) as HY'.
  { apply list_elem_of_filter. split; [|done]. by rewrite HYd. }
  apply list_elem_of_split in HX' as (i1 & i2 & ->).
  apply list_elem_of_split in HY' as (d1 & d2 & ->).
  exists (node_source_file <$> i1),
         ((node_source_file <$> i2) ++ (node_source_file <$> d1)),
         (node_source_file <$> d2).
  rewrite !fmap_app, !fmap_cons. by rewrite <- !app_assoc.
Qed.

Lemma referring_node_is_dependent nodes A B prop :
  A ∈ nodes → B ∈ nodes → A ≠ B → prop ∈ node_properties A →
  lower (prop_name prop) = lower (node_label B) +:+ "_id" →
  has_foreign_key (_infer_relationships nodes) A = true.
Proof.
  intros HA HB Hne Hprop Hname. apply has_foreign_key_spec.
  exists (belongs_to A prop B). split; [|done].
  rewrite infer_relationships_bind.
  apply list_elem_of_bind. exists A. split; [|done].
  apply list_elem_of_bind. exists prop. split; [|done].
  apply list_elem_of_bind. exists B. split; [|done].
  apply elem_of_emitted. auto.
Qed.

(** C3 (as amended): primary-key inference returns the name of the first
    property whose lower-cased name is one of id, uuid, key, and returns
    nothing exactly when no property has such a name; the label plays no
    part in it. *)
Theorem infer_primary_key_first_key_like properties :
  (∀ k, _infer_primary_key properties = Some k ↔
        ∃ before prop after,
          properties = before ++ prop :: after ∧ prop_name prop = k ∧
          key_like prop ∧ Forall (λ p, ¬ key_like p) before)
  ∧ (_infer_primary_key properties = None ↔
     Forall (λ p, ¬ key_like p) properties).
Proof.
  split.
  - intros k. apply infer_primary_key_some.
  - apply infer_primary_key_none.
Qed.

(** C3, as the specification states it, fails: for the label Product and
    the columns product_id, price the specification's rule picks
    product_id, and the code finds no primary key. *)
Lemma infer_primary_key_misses_label_id :
  let properties :=
    [property_of_header "product_id"; property_of_header "price"] in
  spec_primary_key "Product" properties = Some "product_id"
  ∧ _infer_primary_key properties = None.
Proof. split; reflexivity. Qed.

(** C4: the import order is the source files of the node types without an
    outbound relationship, in input order, followed by those of the node
    types with one, in input order; so every type of the first kind
    stands before every type of the second, and a type B without outbound
    relationships stands before a type A that refers to it through a
    property named after B with the ending _id. *)
Theorem import_order_two_buckets nodes :
  (∀ relationships,
      _calculate_import_order nodes relationships
      = (node_source_file
           <$> filter (λ n, ¬ has_foreign_key relationships n) nodes)
        ++ (node_source_file
              <$> filter (λ n, has_foreign_key relationships n) nodes))
  ∧ (∀ relationships X Y,
        X ∈ nodes → Y ∈ nodes →
        has_foreign_key relationships X = false →
        has_foreign_key relationships Y = true →
        placed_before (node_source_file X) (node_source_file Y)
                      (_calculate_import_order nodes relationships))
  ∧ (∀ A B prop,
        A ∈ nodes → B ∈ nodes → A ≠ B → prop ∈ node_properties A →
        lower (prop_name prop) = lower (node_label B) +:+ "_id" →
        has_foreign_key (_infer_relationships nodes) B = false →
        placed_before (node_source_file B) (node_source_file A)
                      (_calculate_import_order nodes
                                               (_infer_relationships nodes))).
Proof.
  split; [|split].
  - intros relationships. apply import_order_filters.
  - intros relationships X Y. apply independent_before_dependent.
  - intros A B prop HA HB Hne Hprop Hname HBi.
    apply independent_before_dependent; [done..|].
    by eapply referring_node_is_dependent.
Qed.

(** C8 (as amended): property extraction produces one property per
    column, in header order and named after the header, and gives every
    property the type string whatever the sampled values are; without a
    header row it produces nothing. *)
Theorem extract_properties_one_string_property_per_column sample :
  _extract_properties_from_sample sample
  = property_of_header <$> default [] (sample_headers sample)
  ∧ prop_name <$> _extract_properties_from_sample sample
    = default [] (sample_headers sample)
  ∧ Forall (λ prop, prop_type prop = "string")
           (_extract_properties_from_sample sample).
Proof.
  assert (_extract_properties_from_sample sample
          = property_of_header <$> default [] (sample_headers sample)) as ->.
  { unfold _extract_properties_from_sample.
    destruct (sample_headers sample) as [headers|]; [|done].
    by rewrite foldl_snoc_map. }
  split; [done|]. split.
  - rewrite <- list_fmap_compose. apply list_fmap_id.
  - apply Forall_fmap. by apply Forall_true.
Qed.

(** C8, as the specification states it, fails: every sampled value of the
    column quantity is an integer, so the narrowest type consistent with
    them is integer, and the code gives the column the type string. *)
Lemma extract_properties_ignores_sampled_values :
  let sample :=
    {| sample_headers := Some ["name"; "quantity"];
       sample_rows := [["bolt"; "12"]; ["nut"; "7"]] |} in
  prop_type <$> spec_extract_properties sample = ["string"; "integer"]
  ∧ prop_type <$> _extract_properties_from_sample sample
    = ["string"; "string"].
Proof. split; reflexivity. Qed.

(** C9: relationship inference emits a relationship exactly for a
    property [prop] of a node type [X] and another node type [Y] of the
    list such that the lower-cased name of [prop] is the lower-cased
    label of [Y] followed by _id or by id; the relationship goes from
    [X] to [Y], has the type BELONGS_TO_ followed by the upper-cased
    label of [Y] and matches on [prop].  Nothing else is emitted, and a
    node type is never compared with itself. *)
Theorem infer_relationships_exactly nodes :
  (∀ r, r ∈ _infer_relationships nodes ↔
        ∃ X prop Y,
          X ∈ nodes ∧ prop ∈ node_properties X ∧ Y ∈ nodes ∧ X ≠ Y ∧
          (lower (prop_name prop) = lower (node_label Y) +:+ "_id"
           ∨ lower (prop_name prop) = lower (node_label Y) +:+ "id") ∧
          r = {| rel_type := "BELONGS_TO_" +:+ upper (node_label Y);
                 rel_from_label := node_label X;
                 rel_to_label := node_label Y;
                 rel_property := prop_name prop;
                 rel_description :=
                   node_label X +:+ " belongs to " +:+ node_label Y |})
  ∧ _infer_relationships nodes
    = X ← nodes; prop ← node_properties X; Y ← nodes;
      if decide (X = Y) then []
      else if is_foreign_key (lower (prop_name prop)) (lower (node_label Y))
           then [belongs_to X prop Y] else [].
Proof.
  split; [|apply infer_relationships_bind].
  intros r. rewrite infer_relationships_bind. split.
  - intros (X & (prop & (Y & Hr & HY)%list_elem_of_bind & Hprop)
                   %list_elem_of_bind & HX)%list_elem_of_bind.
    apply elem_of_emitted in Hr as (Hne & Hname & ->).
    by exists X, prop, Y.
  - intros (X & prop & Y & HX & Hprop & HY & Hne & Hname & ->).
    apply list_elem_of_bind. exists X. split; [|done].
    apply list_elem_of_bind. exists prop. split; [|done].
    apply list_elem_of_bind. exists Y. split; [|done].
    apply elem_of_emitted. auto.
Qed.

Example infer_relationships_orders_customers :
  _infer_relationships
    [Node "Orders" "orders.csv"
          [property_of_header "id"; property_of_header "Customers_ID"]
          (Some "id");
     Node "Customers" "customers.csv"
          [property_of_header "id"; property_of_header "name"] (Some "id")]
  = [{| rel_type := "BELONGS_TO_CUSTOMERS"; rel_from_label := "Orders";
        rel_to_label := "Customers"; rel_property := "Customers_ID";
        rel_description := "Orders belongs to Customers" |}].
Proof. reflexivity. Qed.

Lemma import_order_two_buckets_witness :
  let orders :=
    Node "Orders" "orders.csv"
         [property_of_header "id"; property_of_header "Customers_ID"]
         (Some "id") in
  let customers :=
    Node "Customers" "customers.csv"
         [property_of_header "id"; property_of_header "name"] (Some "id") in
  _calculate_import_order [orders; customers]
                          (_infer_relationships [orders; customers])
  = ["customers.csv"; "orders.csv"]
  ∧ placed_before "customers.csv" "orders.csv"
                  (_calculate_import_order
                     [orders; customers]
                     (_infer_relationships [orders; customers])).
Proof.
  intros orders customers. split; [reflexivity|].
  apply (proj2 (proj2 (import_order_two_buckets [orders; customers]))
               orders customers (property_of_header "Customers_ID")).
  - apply list_elem_of_here.
  - apply list_elem_of_further, list_elem_of_here.
  - discriminate.
  - apply list_elem_of_further, list_elem_of_here.
  - reflexivity.
  - reflexivity.
Defined.

End SchemaProposalFacts.

(** ** The constructor agent and the clearing of the store *)

Module KGConstructorFacts.
Import Text Store KGConstructor.

(** C5: the health score is the sum of 40 for a positive node total, 40
    for a positive relationship total and 20 for a non-empty list of
    connected sample paths; the status is healthy exactly from 80 on,
    degraded exactly from 40 to below 80, and unhealthy exactly below 40.
    So a graph without nodes, relationships (and hence paths) scores 0
    and is unhealthy, one with nodes but no relationships (and hence no
    paths) scores 40 and is degraded, and one that passes all three
    checks scores 100 and is healthy. *)
Theorem health_score_additive (total_nodes total_relationships : Z)
    (connected_paths : list (gmap string value)) :
  let v := determine_health total_nodes total_relationships connected_paths in
  health_score v
  = ((if (0 <? total_nodes)%Z then 40 else 0)
     + (if (0 <? total_relationships)%Z then 40 else 0)
     + (if (0 <? length connected_paths)%nat then 20 else 0))%Z
  ∧ (status v = "healthy" ↔ (80 ≤ health_score v)%Z)
  ∧ (status v = "degraded" ↔ (40 ≤ health_score v < 80)%Z)
  ∧ (status v = "unhealthy" ↔ (health_score v < 40)%Z)
  ∧ (total_nodes = 0%Z → total_relationships = 0%Z → connected_paths = [] →
     health_score v = 0%Z ∧ status v = "unhealthy")
  ∧ ((0 < total_nodes)%Z → total_relationships = 0%Z → connected_paths = [] →
     health_score v = 40%Z ∧ status v = "degraded")
  ∧ ((0 < total_nodes)%Z → (0 < total_relationships)%Z →
     connected_paths ≠ [] →
     health_score v = 100%Z ∧ status v = "healthy").
Proof.
  intros v. subst v. unfold determine_health.
  destruct (Z.ltb_spec 0 total_nodes), (Z.ltb_spec 0 total_relationships),
           connected_paths as [|path paths];
    cbn; repeat split; intros; first [done | lia].
Qed.

Example health_of_empty_graph :
  determine_health 0 0 []
  = {| total_nodes := 0; total_relationships := 0; connected_paths := [];
       health_score := 0;
       issues := ["No nodes found in graph";
                  "No relationships found in graph";
                  "No connected paths found"];
       status := "unhealthy" |}.
Proof. reflexivity. Qed.

Example health_of_unconnected_graph :
  let v := determine_health 12 7 [] in
  health_score v = 80%Z ∧ status v = "healthy"
  ∧ issues v = ["No connected paths found"].
Proof. by vm_compute. Qed.

End KGConstructorFacts.

(** ** Clearing the store *)

Module ClearFacts.
Import Text Store GraphConstructor KGConstructor.

Lemma bind_run {A B} (m : M A) (k : A → M B) (w : world) :
  (m ≫= k) w = let '(a, w') := m w in k a w'.
Proof. reflexivity. Qed.

Lemma clear_database_tool_unconfirmed `{GraphDB}
    (clear_neo4j_data : M response) state confirm w :
  confirm ≠ Some true →
  clear_database_tool clear_neo4j_data state confirm w
  = (ToolError ("Database clear requires explicit confirmation. "
                +:+ "This will delete all existing data!"), state, w).
Proof. by destruct confirm as [[|]|]. Qed.

Lemma clear_database_tool_confirmed `{GraphDB}
    (clear_neo4j_data : M response) state w :
  (clear_database_tool clear_neo4j_data state (Some true) w).2
  = (clear_neo4j_data w).2.
Proof.
  unfold clear_database_tool. run_M.
  by destruct (clear_neo4j_data w) as [[rows|msg|e] w'].
Qed.

Lemma clear_existing_graph_sends `{GraphDB} clear_existing w :
  clear_existing ≠ Some false →
  ∃ returned lines,
    clear_existing_graph clear_existing w
    = (returned,
       {| sent := sent w
                    ++ [(clear_query, reply (sent w).*1 clear_query)];
          printed := printed w ++ ClearingGraph :: lines |}).
Proof.
  intros Hflag.
  assert (default true clear_existing = true) as Hdef
      by by destruct clear_existing as [[|]|].
  unfold clear_existing_graph. rewrite Hdef. run_M.
  destruct (reply (sent w).*1 clear_query) as [rows|msg|e]; cbn;
    eexists _, [_]; by rewrite <- app_assoc.
Qed.

(** C7 (as amended): the agent's clear tool, called with the confirmation
    false or left out, returns an error, sends nothing and leaves the tool
    state and the store as they were; only with the confirmation true does
    it reach the clearing of the store.  The construction script clears the
    store unless its flag is false: with the flag true or left out (it
    defaults to true) the delete statement is the next statement sent; with
    the flag false nothing is sent and the method goes on to build the
    graph, without an error. *)
Theorem clear_gated_by_flag `{GraphDB} (clear_neo4j_data : M response)
    (rest : M bool) (state : tool_state) (flag : option bool) (w : world) :
  (flag ≠ Some true →
   clear_database_tool clear_neo4j_data state flag w
   = (ToolError ("Database clear requires explicit confirmation. "
                 +:+ "This will delete all existing data!"), state, w))
  ∧ ((clear_database_tool clear_neo4j_data state flag w).2 ≠ w →
     flag = Some true
     ∧ (clear_database_tool clear_neo4j_data state flag w).2
       = (clear_neo4j_data w).2)
  ∧ (flag = Some false →
     clear_existing_graph flag w = (None, w)
     ∧ construct_complete_graph rest flag w = rest w)
  ∧ (flag ≠ Some false →
     ∃ returned lines,
       clear_existing_graph flag w
       = (returned,
          {| sent := sent w
                       ++ [(clear_query, reply (sent w).*1 clear_query)];
             printed := printed w ++ ClearingGraph :: lines |})).
Proof.
  split; [|split; [|split]].
  - apply clear_database_tool_unconfirmed.
  - intros Hchanged. destruct (decide (flag = Some true)) as [->|Hflag].
    + split; [done | apply clear_database_tool_confirmed].
    + by rewrite clear_database_tool_unconfirmed in Hchanged.
  - by intros ->.
  - apply clear_existing_graph_sends.
Qed.

(** C7, as the specification states it, fails: called without the flag on
    a store that accepts every statement, the construction script sends the
    delete statement and goes on without an error. *)
Lemma construct_complete_graph_clears_by_default :
  @construct_complete_graph accepting (mret true) None fresh
  = (true,
     {| sent := [("MATCH (n) DETACH DELETE n", Success [])];
        printed := [ClearingGraph; GraphCleared] |}).
Proof. reflexivity. Qed.

(** Once an exception is on its way, the loop of
    [create_relationships_tool] sends nothing more. *)
Lemma create_relationship_raised `{GraphDB} e configs w :
  for_each create_relationship (inl e) configs w = (inl e, w).
Proof.
  revert w. induction configs as [|config configs IH]; intros w; [done|].
  cbn [for_each]. rewrite bind_run. cbn. apply IH.
Qed.

(** The tool sends the statement of each configuration, in order, and
    stops only at an exception. *)
Lemma create_relationship_statements `{GraphDB} configs :
  ∀ results created w,
    ∃ n, (sent (for_each create_relationship (inr (results, created))
                         configs w).2).*1
         = (sent w).*1 ++ take n (relationship_query <$> configs).
Proof.
  induction configs as [|config configs IH]; intros results created w.
  - exists 0. cbn. by rewrite app_nil_r.
  - cbn [for_each]. rewrite bind_run. unfold create_relationship at 1.
    run_M. set (q := relationship_query config).
    set (w1 := {| sent := sent w ++ [(q, reply (sent w).*1 q)];
                  printed := printed w |}).
    assert ((sent w1).*1 = (sent w).*1 ++ [q]) as Hw1
        by (subst w1; cbn; by rewrite fmap_app).
    assert (∀ acc,
               (∃ e, acc = inl e) ∨ (∃ results' created', acc = inr (results', created')) →
               ∃ n, (sent (for_each create_relationship acc configs w1).2).*1
                    = (sent w).*1 ++ take n (q :: (relationship_query <$> configs)))
      as Hnext.
    { intros acc [[e ->] | (results' & created' & ->)].
      - exists 1. rewrite create_relationship_raised. cbn [snd].
        by rewrite Hw1.
      - destruct (IH results' created' w1) as [n Hn]. exists (S n).
        rewrite Hn, Hw1. cbn [take fmap]. by rewrite <- app_assoc. }
    destruct (reply (sent w).*1 q) as [[|first rows]|msg|e] eqn:Hreply;
      fold w1; cbn; try (apply Hnext; eauto).
    destruct (first !! "relationships_created"); apply Hnext; eauto.
Qed.

End ClearFacts.

(** ** Relationship creation on the store *)

Module GraphStoreFacts.
Import Store GraphStore.

Lemma same_edge_key src ty dst e :
  same_edge src ty dst e = true ↔ edge_key e = (src, ty, dst).
Proof.
  unfold same_edge, edge_key.
  rewrite !andb_true_iff, !Nat.eqb_eq, String.eqb_eq. split.
  - by intros [[-> ->] ->].
  - by intros [= -> -> ->].
Qed.

Lemma existsb_same_edge src ty dst es :
  existsb (same_edge src ty dst) es = bool_decide ((src, ty, dst) ∈ edge_key <$> es).
Proof.
  apply eq_true_iff_eq. rewrite existsb_exists, bool_decide_eq_true.
  rewrite list_elem_of_fmap. setoid_rewrite same_edge_key.
  setoid_rewrite list_elem_of_In. split.
  - intros (e & He & Hkey). by exists e.
  - intros (e & Hkey & He). by exists e.
Qed.

Lemma merge_edge_keys now ty es pair :
  edge_key <$> merge_edge now ty es pair
  = add_key (edge_key <$> es) (pair_key ty pair).
Proof.
  unfold merge_edge, add_key, pair_key. rewrite existsb_same_edge.
  case_bool_decide.
  - rewrite <- list_fmap_compose. apply list_fmap_ext.
    intros i e _. simpl. by destruct (same_edge _ _ _ e).
  - by rewrite fmap_app.
Qed.

Lemma merge_edges_keys now ty pairs es :
  edge_key <$> foldl (merge_edge now ty) es pairs
  = foldl add_key (edge_key <$> es) (pair_key ty <$> pairs).
Proof.
  revert es. induction pairs as [|pair pairs IH]; intros es; simpl; [done|].
  by rewrite IH, merge_edge_keys.
Qed.

Lemma create_relationship_nodes now g d :
  nodes (create_relationship now g d).1 = nodes g.
Proof. done. Qed.

Lemma create_relationship_keys now g d :
  edge_key <$> edges (create_relationship now g d).1
  = add_wanted (nodes g) (edge_key <$> edges g) d.
Proof.
  unfold create_relationship, add_wanted, wanted. simpl.
  by rewrite merge_edges_keys.
Qed.

Lemma CreateRelationships_loop now ds g counts :
  let result :=
    foldl (λ '(g, counts) d,
             let '(g', n) := create_relationship now g d in
             (g', counts ++ [(type d, n)]))
          (g, counts) ds in
  nodes result.1 = nodes g
  ∧ edge_key <$> edges result.1
    = foldl (add_wanted (nodes g)) (edge_key <$> edges g) ds.
Proof.
  revert g counts. induction ds as [|d ds IH]; intros g counts; [done|].
  cbn [foldl]. destruct (create_relationship now g d) as [g' n] eqn:Hstep.
  destruct (IH g' (counts ++ [(type d, n)])) as [Hnodes Hkeys].
  assert (g' = (create_relationship now g d).1) as Hg' by by rewrite Hstep.
  cbn zeta. rewrite Hnodes, Hkeys, Hg'.
  by rewrite create_relationship_nodes, create_relationship_keys.
Qed.

Lemma add_key_incl keys k k' : k' ∈ keys → k' ∈ add_key keys k.
Proof.
  unfold add_key. case_bool_decide; [done|]. intros. apply elem_of_app. by left.
Qed.

Lemma add_key_elem keys k : k ∈ add_key keys k.
Proof.
  unfold add_key. case_bool_decide; [done|].
  apply elem_of_app. right. by apply list_elem_of_singleton.
Qed.

Lemma add_keys_incl ks keys k' : k' ∈ keys → k' ∈ foldl add_key keys ks.
Proof.
  revert keys. induction ks as [|k ks IH]; intros keys Hk; simpl; [done|].
  by apply IH, add_key_incl.
Qed.

Lemma add_keys_elem ks keys k : k ∈ ks → k ∈ foldl add_key keys ks.
Proof.
  revert keys. induction ks as [|k0 ks IH]; intros keys Hk; simpl.
  - by apply elem_of_nil in Hk.
  - apply elem_of_cons in Hk as [->|Hk]; [|by apply IH].
    apply add_keys_incl, add_key_elem.
Qed.

Lemma add_keys_present ks keys :
  (∀ k, k ∈ ks → k ∈ keys) → foldl add_key keys ks = keys.
Proof.
  induction ks as [|k ks IH]; intros Hks; simpl; [done|].
  unfold add_key at 2. rewrite bool_decide_eq_true_2 by (apply Hks; by left).
  apply IH. intros k' Hk'. apply Hks. by right.
Qed.

Lemma add_all_wanted_incl ns ds keys k :
  k ∈ keys → k ∈ foldl (add_wanted ns) keys ds.
Proof.
  revert keys. induction ds as [|d ds IH]; intros keys Hk; simpl; [done|].
  by apply IH, add_keys_incl.
Qed.

Lemma add_all_wanted_elem ns ds keys d k :
  d ∈ ds → k ∈ wanted ns d → k ∈ foldl (add_wanted ns) keys ds.
Proof.
  revert keys. induction ds as [|d0 ds IH]; intros keys Hd Hk; simpl.
  - by apply elem_of_nil in Hd.
  - apply elem_of_cons in Hd as [->|Hd]; [|by apply IH].
    by apply add_all_wanted_incl, add_keys_elem.
Qed.

Lemma add_all_wanted_present ns ds keys :
  (∀ d k, d ∈ ds → k ∈ wanted ns d → k ∈ keys) →
  foldl (add_wanted ns) keys ds = keys.
Proof.
  induction ds as [|d ds IH]; intros Hds; simpl; [done|].
  unfold add_wanted at 2. rewrite add_keys_present.
  - apply IH. intros d' k Hd'. apply Hds. by right.
  - intros k. apply Hds. by left.
Qed.

(** C6: relationship creation merges on endpoints and type, so running it
    again on its own result keeps the nodes, keeps the edges with their
    endpoints and types in place and adds none; and on a store that holds
    a Product and an Assembly node with product_id P1 and no edge, the
    descriptor CONTAINS from Product to Assembly on product_id leaves
    exactly one CONTAINS edge, from the product to the assembly, after the
    first run and after the second. *)
Theorem create_relationships_idempotent :
  (∀ now now' descriptors g,
      let g1 := (CreateRelationships now descriptors g).1 in
      let g2 := (CreateRelationships now' descriptors g1).1 in
      nodes g2 = nodes g1
      ∧ edge_key <$> edges g2 = edge_key <$> edges g1
      ∧ length (edges g2) = length (edges g1))
  ∧ (∀ now now',
        let g0 := {| nodes := [product_p1; assembly_p1]; edges := [] |} in
        let g1 := (CreateRelationships now [contains] g0).1 in
        let g2 := (CreateRelationships now' [contains] g1).1 in
        edges g1 = [{| edge_from := 0; edge_type := "CONTAINS"; edge_to := 1;
                       created_at := now |}]
        ∧ length (edges_of_type "CONTAINS" g1) = 1
        ∧ length (edges_of_type "CONTAINS" g2) = 1
        ∧ length (edges g2) = length (edges g1)).
Proof.
  split.
  - intros now now' ds g g1 g2.
    destruct (CreateRelationships_loop now ds g []) as [Hn1 Hk1].
    destruct (CreateRelationships_loop now' ds g1 []) as [Hn2 Hk2].
    fold (CreateRelationships now ds g) in Hn1, Hk1.
    fold (CreateRelationships now' ds g1) in Hn2, Hk2.
    fold g1 in Hn1, Hk1. fold g2 in Hn2, Hk2.
    assert (edge_key <$> edges g2 = edge_key <$> edges g1) as Hkeys.
    { rewrite Hk2. apply add_all_wanted_present. intros d k Hd Hk.
      rewrite Hn1 in Hk. rewrite Hk1. by eapply add_all_wanted_elem. }
    split; [done|]. split; [done|].
    by rewrite <- (length_fmap edge_key (edges g2)), Hkeys, length_fmap.
  - intros now now'. by vm_compute.
Qed.

End GraphStoreFacts.

(** ** Batched node upserts *)

Module GraphConstructorFacts.
Import Text TextFacts Store GraphConstructor ClearFacts.

Lemma row_props_loop (r : row) keys acc :
  foldl (λ props prop,
           match r !! prop with
           | Some v => if notna v then props ++ [prop_entry prop v] else props
           | None => props
           end) acc keys
  = acc ++ (entry_of <$> omap (cell r) keys).
Proof.
  revert acc. induction keys as [|k keys IH]; intros acc.
  - by rewrite app_nil_r.
  - cbn [foldl omap list_omap]. rewrite IH. unfold cell at 2.
    destruct (r !! k) as [v|]; cbn; [|done].
    destruct (notna v); cbn; [|done]. by rewrite <- app_assoc.
Qed.

Lemma row_props_projection unique_property properties (r : row) :
  row_props unique_property properties r
  = entry_of <$> projection unique_property properties r.
Proof. unfold row_props. by rewrite row_props_loop. Qed.

Lemma row_statement_none label unique_property properties (r : row) :
  row_statement label unique_property properties r = None
  ↔ projection unique_property properties r = [].
Proof.
  unfold row_statement. rewrite row_props_projection.
  by destruct (projection unique_property properties r).
Qed.

Lemma merge_statements_loop label unique_property properties batch acc :
  foldl (λ merge_statements r,
           match row_props unique_property properties r with
           | [] => merge_statements
           | props => merge_statements ++ [merge_statement label props]
           end) acc batch
  = acc ++ omap (row_statement label unique_property properties) batch.
Proof.
  revert acc. induction batch as [|r batch IH]; intros acc.
  - by rewrite app_nil_r.
  - cbn [foldl omap list_omap]. rewrite IH. unfold row_statement at 2.
    destruct (row_props unique_property properties r); [done|].
    by rewrite <- app_assoc.
Qed.

Lemma merge_statements_omap label unique_property properties batch :
  merge_statements label unique_property properties batch
  = omap (row_statement label unique_property properties) batch.
Proof. unfold merge_statements. by rewrite merge_statements_loop. Qed.

Lemma length_omap_filter {A B} (f : A → option B) (l : list A) :
  length (omap f l) = length (filter (λ x, f x ≠ None) l).
Proof.
  induction l as [|x l IH]; [done|]. cbn [omap list_omap].
  destruct (f x) eqn:Hx.
  - rewrite filter_cons_True by congruence. cbn. by rewrite IH.
  - rewrite filter_cons_False by (intros ?; congruence). done.
Qed.

Lemma length_merge_statements label unique_property properties batch :
  length (merge_statements label unique_property properties batch)
  = length (filter (λ r, projection unique_property properties r ≠ []) batch).
Proof.
  rewrite merge_statements_omap, length_omap_filter.
  f_equal. apply list_filter_iff. intros r.
  by rewrite row_statement_none.
Qed.

(** What one turn of the batch loop does. *)
Lemma import_batch_run `{GraphDB} df label unique_property properties
    nodes_created i w :
  let statements :=
    merge_statements label unique_property properties
                     (iloc df i (i + batch_size)) in
  let result := reply (sent w).*1 (join newline statements) in
  import_batch df label unique_property properties nodes_created i w
  = match statements with
    | [] => (nodes_created, w)
    | _ =>
        (if is_success result then nodes_created + length statements
         else nodes_created,
         {| sent := sent w ++ [(join newline statements, result)];
            printed := printed w ++ batch_lines result |})
    end.
Proof.
  intros statements result. unfold import_batch. fold statements.
  destruct statements as [|s statements'] eqn:Hs; [done|].
  run_M. subst result.
  destruct (reply _ _); cbn; [|done..]. by rewrite app_nil_r.
Qed.

Lemma iloc_batch (df : list row) i :
  iloc df i (i + batch_size) = take batch_size (drop i df).
Proof. unfold iloc. f_equal. lia. Qed.

Lemma drop_batch (df : list row) i :
  drop i df = take batch_size (drop i df) ++ drop (i + batch_size) df.
Proof. by rewrite <- drop_drop, take_drop. Qed.

(** The batch loop from offset [i] on: it only adds to what was sent and
    printed, and when every batch it sends is accepted, it counts the rows
    from [i] on that yield a statement. *)
Lemma batch_loop `{GraphDB} df label unique_property properties fuel :
  ∀ i nodes_created w,
    let result :=
      for_each (import_batch df label unique_property properties)
               nodes_created (range_from fuel i (length df) batch_size) w in
    ∃ exchanges lines,
      sent result.2 = sent w ++ exchanges
      ∧ printed result.2 = printed w ++ lines
      ∧ (length df ≤ fuel + i →
         Forall (λ x, is_success x.2 = true) exchanges →
         result.1
         = nodes_created
           + length (omap (row_statement label unique_property properties)
                          (drop i df))).
Proof.
  induction fuel as [|fuel IH]; intros i nodes_created w; cbn [range_from].
  - exists [], []. cbn. rewrite !app_nil_r. repeat split.
    intros Hlen _. rewrite drop_ge by lia. cbn. lia.
  - destruct (Nat.ltb_spec i (length df)) as [Hi|Hi].
    + cbn [for_each]. rewrite bind_run, import_batch_run.
      rewrite iloc_batch, merge_statements_omap.
      rewrite (drop_batch df i), omap_app, length_app.
      rewrite <- (drop_batch df i).
      destruct (omap _ (take batch_size (drop i df))) as [|s statements].
      * destruct (IH (i + batch_size) nodes_created w)
          as (exchanges & lines & Hsent & Hprinted & Hcount).
        exists exchanges, lines. repeat split; [done..|].
        intros Hlen Hok. rewrite Hcount; [done | unfold batch_size; lia | done].
      * set (statements' := s :: statements).
        set (result := reply (sent w).*1 (join newline statements')).
        set (w1 := {| sent := sent w ++ [(join newline statements', result)];
                      printed := printed w ++ batch_lines result |}).
        set (c1 := if is_success result
                   then nodes_created + length statements'
                   else nodes_created).
        destruct (IH (i + batch_size) c1 w1)
          as (exchanges & lines & Hsent & Hprinted & Hcount).
        exists ((join newline statements', result) :: exchanges),
               (batch_lines result ++ lines).
        split; [|split].
        -- rewrite Hsent. subst w1. cbn. by rewrite <- app_assoc.
        -- rewrite Hprinted. subst w1. cbn. by rewrite <- app_assoc.
        -- intros Hlen Hok. inversion Hok as [|x l Hresult Hrest]; subst.
           rewrite Hcount; [|unfold batch_size; lia | done].
           subst c1. cbn in Hresult. rewrite Hresult. lia.
    + exists [], []. cbn. rewrite !app_nil_r. repeat split.
      intros _ _. rewrite drop_ge by lia. cbn. lia.
Qed.

Lemma create_nodes_run `{GraphDB} df label unique_property properties w :
  let created := reply (sent w).*1 (constraint_query label unique_property) in
  let w1 :=
    {| sent := sent w ++ [(constraint_query label unique_property, created)];
       printed := printed w ++ CreatingNodes label
                               :: constraint_lines label created |} in
  let loop :=
    for_each (import_batch df label unique_property properties) 0
             (range 0 (length df) batch_size) w1 in
  create_nodes df label unique_property properties w
  = (loop.1,
     {| sent := sent loop.2;
        printed := printed loop.2 ++ [NodesCreated loop.1 label] |}).
Proof.
  intros created w1 loop. unfold create_nodes, create_constraint. run_M.
  fold created.
  assert (∀ w' : world, w' = w1 →
            (let '(a, w'') :=
               for_each (import_batch df label unique_property properties) 0
                        (range 0 (length df) batch_size) w' in
             (a, {| sent := sent w''; printed := printed w'' ++ [NodesCreated a label] |}))
            = (loop.1, {| sent := sent loop.2;
                          printed := printed loop.2 ++ [NodesCreated loop.1 label] |}))
    as Hloop.
  { intros w' ->. fold loop. by destruct loop. }
  destruct created; cbn; apply Hloop; subst w1; cbn;
    by rewrite <- ?app_assoc.
Qed.

Lemma filter_all {A} (P : A → Prop) `{∀ x, Decision (P x)} (l : list A) :
  Forall P l → filter P l = l.
Proof.
  induction 1 as [|x l Hx Hl IH]; [done|].
  by rewrite filter_cons_True, IH.
Qed.

Lemma length_full_batch df label unique_property properties i :
  Forall (λ r, projection unique_property properties r ≠ []) df →
  length (merge_statements label unique_property properties
                           (iloc df i (i + batch_size)))
  = batch_size `min` (length df - i).
Proof.
  intros Hdf. rewrite length_merge_statements, iloc_batch.
  rewrite filter_all by by apply Forall_take, Forall_drop.
  by rewrite length_take, length_drop.
Qed.

Lemma no_issue_in_opening_lines label result :
  filter (λ m, is_batch_issue m)
         (CreatingNodes label :: constraint_lines label result) = [].
Proof. by destruct result. Qed.

Lemma no_issue_in_closing_line nodes_created label :
  filter (λ m, is_batch_issue m) [NodesCreated nodes_created label] = [].
Proof. done. Qed.

Lemma issues_of_batch_lines result :
  length (filter (λ m, is_batch_issue m) (batch_lines result))
  = if is_success result then 0 else 1.
Proof. by destruct result. Qed.

(** C10: a record whose projection is empty contributes no merge statement
    to its batch, and when every batch is accepted the count that
    [create_nodes] returns is the number of records with a non-empty
    projection; that number is at most, and can be less than, the number
    of records. *)
Theorem create_nodes_counts_rows_with_properties :
  (∀ (db : GraphDB) df label unique_property properties w,
      let result := create_nodes df label unique_property properties w in
      (∀ before r after,
          projection unique_property properties r = [] →
          merge_statements label unique_property properties
                           (before ++ r :: after)
          = merge_statements label unique_property properties
                             (before ++ after))
      ∧ (Forall (λ x, is_success x.2 = true)
                (drop (S (length (sent w))) (sent result.2)) →
         result.1
         = length (filter (λ r, projection unique_property properties r ≠ [])
                          df))
      ∧ length (filter (λ r, projection unique_property properties r ≠ []) df)
        ≤ length df)
  ∧ (∃ (db : GraphDB) df label unique_property properties w,
        let result := create_nodes df label unique_property properties w in
        Forall (λ x, is_success x.2 = true)
               (drop (S (length (sent w))) (sent result.2))
        ∧ result.1 < length df).
Proof.
  split.
  - intros db df label unique_property properties w result.
    split; [|split].
    + intros before r after Hr. rewrite !merge_statements_omap, !omap_app.
      cbn [omap list_omap].
      by rewrite (proj2 (row_statement_none label _ _ r) Hr).
    + subst result. rewrite create_nodes_run. cbn zeta. cbn [fst snd sent].
      match goal with
      | |- context [for_each ?body 0 _ ?w1] =>
          destruct (batch_loop df label unique_property properties
                               (length df) 0 0 w1)
            as (exchanges & lines & Hsent & _ & Hcount)
      end.
      fold (range 0 (length df) batch_size) in Hsent, Hcount.
      rewrite Hsent. cbn [sent].
      rewrite drop_app_length'
        by (rewrite length_app; cbn; lia).
      intros Hok. rewrite Hcount; [|lia|done].
      rewrite drop_0, <- merge_statements_omap.
      apply length_merge_statements.
    + apply length_filter.
  - exists accepting,
           [product "P1" (VInt 10); ∅; product "P2" VNull],
           "Product", "product_id", ["price"], fresh.
    split; [by vm_compute; repeat constructor | vm_compute; lia].
Qed.

(** C2: for 130 records that each yield a merge statement, [create_nodes]
    sends the constraint statement and then exactly three batch statements,
    made of the merge statements of the first 50, the next 50 and the last
    30 records; the third batch is sent whatever the answers to the first
    two are.  When the three batches are accepted the count returned is
    130 and no batch issue is printed; when the second batch alone fails
    the count is 80 and exactly one batch issue is printed. *)
Theorem create_nodes_batches_of_130 `{GraphDB} df label unique_property
    properties w :
  length df = 130 →
  Forall (λ r, projection unique_property properties r ≠ []) df →
  let result := create_nodes df label unique_property properties w in
  let issues (w : world) :=
    length (filter (λ m, is_batch_issue m) (printed w)) in
  ∃ created r1 r2 r3 b1 b2 b3,
    sent result.2
    = sent w ++ [(constraint_query label unique_property, created);
                 (join newline b1, r1); (join newline b2, r2);
                 (join newline b3, r3)]
    ∧ b1 = merge_statements label unique_property properties (take 50 df)
    ∧ b2 = merge_statements label unique_property properties
                            (take 50 (drop 50 df))
    ∧ b3 = merge_statements label unique_property properties (drop 100 df)
    ∧ length b1 = 50 ∧ length b2 = 50 ∧ length b3 = 30
    ∧ (is_success r1 = true → is_success r2 = true → is_success r3 = true →
       result.1 = 130 ∧ issues result.2 = issues w)
    ∧ (is_success r1 = true → is_success r2 = false → is_success r3 = true →
       result.1 = 80 ∧ issues result.2 = issues w + 1).
Proof.
  intros Hlen Hdf result issues.
  assert (∀ i n, batch_size `min` (130 - i) = n →
            length (merge_statements label unique_property properties
                                     (iloc df i (i + batch_size))) = n)
    as Hbatch.
  { intros i n <-. by rewrite length_full_batch, Hlen. }
  pose proof (Hbatch 0 50 eq_refl) as H1.
  pose proof (Hbatch 50 50 eq_refl) as H2.
  pose proof (Hbatch 100 30 eq_refl) as H3.
  subst result. rewrite create_nodes_run. cbn zeta. rewrite Hlen.
  change (range 0 130 batch_size) with [0; 50; 100].
  cbn [for_each].
  set (created := reply _ (constraint_query _ _)).
  set (w0 := {| sent := sent w ++ [(constraint_query _ _, created)] |}).
  rewrite bind_run, import_batch_run. cbn zeta.
  destruct (merge_statements _ _ _ (iloc df 0 _)) as [|s1 b1] eqn:Hb1;
    [done|].
  set (r1 := reply _ (join newline (s1 :: b1))).
  set (w1 := {| sent := sent w0 ++ [(join newline (s1 :: b1), r1)] |}).
  cbn beta iota zeta.
  rewrite bind_run, import_batch_run. cbn zeta.
  destruct (merge_statements _ _ _ (iloc df 50 _)) as [|s2 b2] eqn:Hb2;
    [done|].
  set (r2 := reply _ (join newline (s2 :: b2))).
  set (w2 := {| sent := sent w1 ++ [(join newline (s2 :: b2), r2)] |}).
  cbn beta iota zeta.
  rewrite bind_run, import_batch_run. cbn zeta.
  destruct (merge_statements _ _ _ (iloc df 100 _)) as [|s3 b3] eqn:Hb3;
    [done|].
  set (r3 := reply _ (join newline (s3 :: b3))).
  cbn beta iota zeta. unfold mret, M_ret. cbn [fst snd sent printed].
  exists created, r1, r2, r3, (s1 :: b1), (s2 :: b2), (s3 :: b3).
  assert (iloc df 100 (100 + batch_size) = drop 100 df) as Hlast.
  { rewrite iloc_batch. apply take_ge. rewrite length_drop.
    unfold batch_size. lia. }
  rewrite iloc_batch in Hb1, Hb2. rewrite Hlast in Hb3.
  change (drop 0 df) with df in Hb1.
  split; [|split; [|split; [|split; [|split; [|split; [|split; [|split]]]]]]];
    try done.
  - subst w2 w1 w0. cbn. by rewrite <- !app_assoc.
  - intros Hr1 Hr2 Hr3. rewrite Hr1, Hr2, Hr3. split; [lia|].
    subst issues w2 w1 w0. cbn.
    rewrite !filter_app, !length_app, !issues_of_batch_lines, Hr1, Hr2, Hr3.
    rewrite no_issue_in_opening_lines, no_issue_in_closing_line. cbn. lia.
  - intros Hr1 Hr2 Hr3. rewrite Hr1, Hr2, Hr3. split; [lia|].
    subst issues w2 w1 w0. cbn.
    rewrite !filter_app, !length_app, !issues_of_batch_lines, Hr1, Hr2, Hr3.
    rewrite no_issue_in_opening_lines, no_issue_in_closing_line. cbn. lia.
Qed.

Lemma create_nodes_counts_rows_with_properties_witness :
  let df := [product "P1" (VInt 10); ∅; product "P2" VNull] in
  let result :=
    @create_nodes accepting df "Product" "product_id" ["price"] fresh in
  Forall (λ x, is_success x.2 = true) (drop 1 (sent result.2))
  ∧ result.1 = 2 ∧ length df = 3.
Proof.
  intros df result.
  assert (Forall (λ x, is_success x.2 = true) (drop 1 (sent result.2)))
    as Hok by (vm_compute; repeat constructor).
  split; [exact Hok|]. split; [|reflexivity].
  exact (proj1 (proj2 (proj1 create_nodes_counts_rows_with_properties
                         accepting df "Product" "product_id" ["price"] fresh))
               Hok).
Defined.

Lemma create_nodes_batches_of_130_witness :
  let df := replicate 130 (product "P1" (VInt 10)) in
  let result :=
    @create_nodes (rejecting 2) df "Product" "product_id" ["price"] fresh in
  length df = 130
  ∧ Forall (λ r, projection "product_id" ["price"] r ≠ []) df
  ∧ length (sent result.2) = 4
  ∧ result.1 = 80
  ∧ length (filter (λ m, is_batch_issue m) (printed result.2)) = 1.
Proof.
  intros df result.
  assert (Forall (λ r, projection "product_id" ["price"] r ≠ []) df) as Hdf.
  { apply Forall_replicate. vm_compute. discriminate. }
  destruct (@create_nodes_batches_of_130 (rejecting 2) df "Product"
              "product_id" ["price"] fresh eq_refl Hdf)
    as (created & r1 & r2 & r3 & b1 & b2 & b3 & Hsent & _ & _ & _ & _ & _ & _
        & _ & Hsecond).
  fold result in Hsent, Hsecond.
  assert (length (sent result.2) = 4) as Hfour by by rewrite Hsent.
  apply (f_equal (fmap (λ x : string * response, is_success x.2))) in Hsent.
  vm_compute in Hsent.
  injection Hsent as _ Hr1 Hr2 Hr3.
  destruct (Hsecond (eq_sym Hr1) (eq_sym Hr2) (eq_sym Hr3)) as [Hcount Hissues].
  exact (conj eq_refl (conj Hdf (conj Hfour (conj Hcount Hissues)))).
Defined.

Example constraint_query_text :
  constraint_query "Product" "product_id"
  = "CREATE CONSTRAINT `Product_product_id_constraint` IF NOT EXISTS"
    +:+ newline +:+ "            FOR (n:`Product`)"
    +:+ newline +:+ "            REQUIRE n.`product_id` IS UNIQUE".
Proof. reflexivity. Qed.

Example create_nodes_two_rows :
  @create_nodes accepting
                [{[ "id" := VInt 1; "in_stock" := VBool true ]};
                 {[ "id" := VInt 2; "in_stock" := VNull ]}]
                "Item" "id" ["in_stock"; "colour"] fresh
  = (2,
     {| sent := [(constraint_query "Item" "id", Success []);
                 ("MERGE (:Item {id: 1, in_stock: True})" +:+ newline
                  +:+ "MERGE (:Item {id: 2})", Success [])];
        printed := [CreatingNodes "Item"; NodesCreated 2 "Item"] |}).
Proof. reflexivity. Qed.

Example create_nodes_rejected_batch :
  @create_nodes (rejecting 1) [{[ "id" := VInt 1 ]}] "Item" "id" [] fresh
  = (0,
     {| sent := [(constraint_query "Item" "id", Success []);
                 ("MERGE (:Item {id: 1})", Failure (Some "batch rejected"))];
        printed := [CreatingNodes "Item"; BatchError "batch rejected";
                    NodesCreated 0 "Item"] |}).
Proof. reflexivity. Qed.

Example range_130 : range 0 130 batch_size = [0; 50; 100].
Proof. reflexivity. Qed.

End GraphConstructorFacts.

(** ** The text of a merge statement

    The statement is spliced together from the label, the property names
    and the rendered cells.  It can be read back, and so tells two
    projections apart, when no property name holds a space or an opening
    brace. *)

Module StatementText.
Import Text TextFacts Store GraphConstructor GraphConstructorFacts.

Lemma chars_app (a b : string) : chars (a +:+ b) = chars a ++ chars b.
Proof.
  induction a as [|c a IH]; [done|]. simpl. by rewrite IH.
Qed.

Lemma chars_inj (a b : string) : chars a = chars b → a = b.
Proof.
  intros Hab. rewrite <- (string_of_list_ascii_of_string a), Hab.
  apply string_of_list_ascii_of_string.
Qed.

Lemma snoc_inj {A} (l1 l2 : list A) (x1 x2 : A) :
  l1 ++ [x1] = l2 ++ [x2] → l1 = l2 ∧ x1 = x2.
Proof. apply app_inj_tail. Qed.

Lemma ends_in_app (D : ascii → Prop) (l1 l2 : list ascii) :
  ends_in D l2 → ends_in D (l1 ++ l2).
Proof.
  intros (l' & c & -> & Hc). exists (l1 ++ l'), c. by rewrite <- app_assoc.
Qed.

Lemma ends_in_last (D : ascii → Prop) (l : list ascii) (c : ascii) :
  ends_in D (l ++ [c]) → D c.
Proof. intros (l' & c' & Heq & Hc). by apply snoc_inj in Heq as [_ ->]. Qed.

(** A text that ends in a delimiter, followed by a text without one, can
    be cut in one way only. *)
Lemma suffix_unique (D : ascii → Prop) (a1 b1 a2 b2 : list ascii) :
  a1 ++ b1 = a2 ++ b2 →
  Forall (λ c, ¬ D c) b1 → Forall (λ c, ¬ D c) b2 →
  ends_in D a1 → ends_in D a2 →
  a1 = a2 ∧ b1 = b2.
Proof.
  intros Heq Hb1 Hb2 Ha1 Ha2.
  assert (∀ x y bx by',
             x = y ++ bx → by' = bx ++ b1 ∨ by' = bx ++ b2 →
             Forall (λ c, ¬ D c) by' → ends_in D x → bx = []) as Hcut.
  { intros x y bx by' -> Hby Hfree Hend.
    destruct bx as [|c bx _] using rev_ind; [done|].
    rewrite app_assoc in Hend. apply ends_in_last in Hend.
    assert (c ∈ by') as Hc.
    { destruct Hby as [-> | ->]; rewrite !elem_of_app, list_elem_of_singleton;
        auto. }
    rewrite Forall_forall in Hfree. by apply Hfree in Hc. }
  apply app_eq_app in Heq as [l [[-> ->] | [-> ->]]].
  - assert (l = []) as ->
      by exact (Hcut _ a2 l _ eq_refl (or_introl eq_refl) Hb2 Ha1).
    by rewrite app_nil_r.
  - assert (l = []) as ->
      by exact (Hcut _ a1 l _ eq_refl (or_intror eq_refl) Hb1 Ha2).
    by rewrite app_nil_r.
Qed.

Lemma chars_replace old new s :
  chars (replace old new s)
  = c ← chars s; if Ascii.eqb c old then chars new else [c].
Proof.
  induction s as [|c s IH]; [done|]. cbn [replace].
  rewrite chars_app, IH. cbn. by destruct (Ascii.eqb c old).
Qed.

Lemma escape_two_steps (l : list ascii) :
  (l ≫= λ c, if Ascii.eqb c dquote
              then chars (String backslash (String dquote EmptyString))
              else [c])
    ≫= (λ c, if Ascii.eqb c squote
              then chars (String backslash (String squote EmptyString))
              else [c])
  = l ≫= escape_char.
Proof.
  induction l as [|c l IH]; [done|].
  rewrite !bind_cons, bind_app, IH. f_equal.
  unfold escape_char. destruct (Ascii.eqb c dquote) eqn:Hd; [done|].
  cbn. rewrite app_nil_r. by destruct (Ascii.eqb c squote).
Qed.

Lemma chars_escape s : chars (escape s) = chars s ≫= escape_char.
Proof. unfold escape. rewrite !chars_replace. apply escape_two_steps. Qed.

Lemma escape_char_last c : ∃ before, escape_char c = before ++ [c]
                                     ∧ (before = [] ∨ before = [backslash]).
Proof.
  unfold escape_char. destruct (Ascii.eqb_spec c dquote) as [->|_].
  - exists [backslash]. auto.
  - destruct (Ascii.eqb_spec c squote) as [->|_].
    + exists [backslash]. auto.
    + exists []. auto.
Qed.

Lemma escaped_snoc (l : list ascii) (c : ascii) :
  (l ++ [c]) ≫= escape_char = (l ≫= escape_char) ++ escape_char c.
Proof. rewrite bind_app. cbn. by rewrite app_nil_r. Qed.

Lemma escape_char_before c before1 before2 :
  escape_char c = before1 ++ [c] → escape_char c = before2 ++ [c] →
  before1 = before2.
Proof. intros -> Heq. by apply snoc_inj in Heq as [-> _]. Qed.

(** An escaped text behind its opening quote can be read back from the
    right: a quote in it always has a backslash before it, the opening
    quote never has. *)
Lemma escape_suffix_inj (s1 : list ascii) :
  ∀ s2 Q1 Q2,
    ends_in (λ c, c ≠ backslash) Q1 → ends_in (λ c, c ≠ backslash) Q2 →
    (Q1 ++ [dquote]) ++ (s1 ≫= escape_char)
    = (Q2 ++ [dquote]) ++ (s2 ≫= escape_char) →
    Q1 = Q2 ∧ s1 = s2.
Proof.
  induction s1 as [|c1 s1 IH] using rev_ind; intros s2 Q1 Q2 HQ1 HQ2 Heq;
    destruct s2 as [|c2 s2 _] using rev_ind.
  - cbn in Heq. rewrite !app_nil_r in Heq. by apply snoc_inj in Heq as [-> _].
  - exfalso. rewrite escaped_snoc in Heq.
    destruct (escape_char_last c2) as (before & Hc2 & Hbefore).
    rewrite Hc2 in Heq. cbn in Heq. rewrite app_nil_r, !app_assoc in Heq.
    apply snoc_inj in Heq as [HQ <-].
    assert (before = [backslash]) as ->.
    { by apply (escape_char_before dquote). }
    rewrite HQ in HQ1. by apply ends_in_last in HQ1.
  - exfalso. rewrite escaped_snoc in Heq.
    destruct (escape_char_last c1) as (before & Hc1 & Hbefore).
    rewrite Hc1 in Heq. cbn in Heq. rewrite app_nil_r, !app_assoc in Heq.
    apply snoc_inj in Heq as [HQ ->].
    assert (before = [backslash]) as ->.
    { by apply (escape_char_before dquote). }
    rewrite <- HQ in HQ2. by apply ends_in_last in HQ2.
  - rewrite !escaped_snoc in Heq.
    destruct (escape_char_last c1) as (before1 & Hc1 & _).
    destruct (escape_char_last c2) as (before2 & Hc2 & _).
    rewrite Hc1, Hc2, !app_assoc in Heq.
    apply snoc_inj in Heq as [Heq ->].
    assert (before1 = before2) as -> by by apply (escape_char_before c2).
    apply app_inv_tail in Heq. by apply IH in Heq as [-> ->].
Qed.

Lemma uint_digits d :
  forallb digit_or_minus (chars (NilEmpty.string_of_uint d)) = true.
Proof. induction d; cbn; by rewrite ?IHd. Qed.

Lemma str_int_digits n : forallb digit_or_minus (chars (str_int n)) = true.
Proof.
  unfold str_int, NilZero.string_of_int, NilZero.string_of_uint.
  destruct (Z.to_int n) as [d|d]; destruct d; cbn; try done;
    by rewrite ?andb_true_l, uint_digits.
Qed.

Lemma str_int_nonempty n : chars (str_int n) ≠ [].
Proof.
  unfold str_int, NilZero.string_of_int, NilZero.string_of_uint.
  by destruct (Z.to_int n) as [d|d]; destruct d.
Qed.

Lemma to_int_nonnil n :
  Z.to_int n ≠ Decimal.Pos Decimal.Nil ∧ Z.to_int n ≠ Decimal.Neg Decimal.Nil.
Proof.
  destruct n as [|p|p]; cbn; split; try done; intros [= Hp];
    by apply DecimalPos.Unsigned.to_uint_nonnil in Hp.
Qed.

Lemma str_int_inj n1 n2 : str_int n1 = str_int n2 → n1 = n2.
Proof.
  intros Heq. apply (f_equal NilZero.int_of_string) in Heq.
  unfold str_int in Heq.
  rewrite !NilZero.isi in Heq by apply to_int_nonnil.
  injection Heq as Heq. apply (f_equal Z.of_int) in Heq.
  by rewrite !DecimalZ.of_to in Heq.
Qed.

Lemma prop_entry_rendered prop v :
  prop_entry prop v = prop +:+ ": " +:+ rendered v.
Proof. by destruct v. Qed.

Lemma chars_entry kv :
  chars (entry_of kv) = chars kv.1 ++ [":"%char; space] ++ chars (rendered kv.2).
Proof.
  unfold entry_of. by rewrite prop_entry_rendered, !chars_app.
Qed.

Lemma chars_rendered_text s :
  chars (rendered (VStr s))
  = ([dquote] ++ (chars s ≫= escape_char)) ++ [dquote].
Proof.
  unfold rendered, quoted. rewrite chars_app. simpl.
  by rewrite chars_escape.
Qed.

Lemma digit_or_minus_plain c : digit_or_minus c = true → plain c.
Proof. intros Hc. split; intros ->; discriminate. Qed.

Lemma plain_rendered v :
  v ≠ VNull → is_text v = false →
  chars (rendered v) ≠ [] ∧ Forall plain (chars (rendered v)).
Proof.
  intros Hnull Htext. destruct v as [|s|n|b]; try done.
  - split; [apply str_int_nonempty|]. cbn.
    apply Forall_forall. intros c Hc. apply digit_or_minus_plain.
    pose proof (str_int_digits n) as Hn.
    rewrite forallb_forall in Hn. by apply Hn, list_elem_of_In.
  - split; [by destruct b|].
    destruct b; cbn; repeat constructor; discriminate.
Qed.

Lemma rendered_plain_inj v1 v2 :
  v1 ≠ VNull → v2 ≠ VNull → is_text v1 = false → is_text v2 = false →
  rendered v1 = rendered v2 → v1 = v2.
Proof.
  intros Hn1 Hn2 Ht1 Ht2 Heq.
  destruct v1 as [|s1|n1|b1], v2 as [|s2|n2|b2]; try done; cbn in Heq.
  - f_equal. by apply str_int_inj.
  - pose proof (str_int_digits n1) as Hd. rewrite Heq in Hd. by destruct b2.
  - pose proof (str_int_digits n2) as Hd. rewrite <- Heq in Hd. by destruct b1.
  - by destruct b1, b2.
Qed.

Lemma ends_in_weaken (D D' : ascii → Prop) l :
  (∀ c, D c → D' c) → ends_in D l → ends_in D' l.
Proof. intros HD (l' & c & -> & Hc). exists l', c. auto. Qed.

(** A rendered cell behind a space can be read back from the right. *)
Lemma value_inj Q1 Q2 v1 v2 :
  ends_in (λ c, c = space) Q1 → ends_in (λ c, c = space) Q2 →
  v1 ≠ VNull → v2 ≠ VNull →
  Q1 ++ chars (rendered v1) = Q2 ++ chars (rendered v2) →
  Q1 = Q2 ∧ v1 = v2.
Proof.
  intros HQ1 HQ2 Hn1 Hn2 Heq.
  assert (∀ Q, ends_in (λ c, c = space) Q → ends_in (λ c, c ≠ backslash) Q)
    as Hbs.
  { intros Q. apply ends_in_weaken. by intros c ->. }
  assert (∀ Q Q' s v,
             v ≠ VNull → is_text v = false →
             Q ++ chars (rendered (VStr s)) = Q' ++ chars (rendered v) → False)
    as Hmixed.
  { intros Q Q' s v Hn Ht Hmix.
    destruct (plain_rendered v Hn Ht) as [Hne Hplain].
    destruct (chars (rendered v)) as [|c l _] using rev_ind; [done|].
    rewrite chars_rendered_text, !app_assoc in Hmix.
    apply snoc_inj in Hmix as [_ <-].
    apply Forall_app in Hplain as [_ Hc]. inversion Hc as [|? ? [_ Hd]]. done. }
  destruct (is_text v1) eqn:Ht1, (is_text v2) eqn:Ht2.
  - destruct v1 as [|s1| |], v2 as [|s2| |]; try done.
    rewrite !chars_rendered_text, !app_assoc in Heq.
    apply snoc_inj in Heq as [Heq _].
    apply escape_suffix_inj in Heq as [-> Hs]; [|by apply Hbs..].
    by apply chars_inj in Hs as ->.
  - destruct v1 as [|s1| |]; try done.
    destruct (Hmixed Q1 Q2 s1 v2 Hn2 Ht2 Heq).
  - destruct v2 as [|s2| |]; try done.
    destruct (Hmixed Q2 Q1 s2 v1 Hn1 Ht1 (eq_sym Heq)).
  - destruct (plain_rendered v1 Hn1 Ht1) as [_ Hp1].
    destruct (plain_rendered v2 Hn2 Ht2) as [_ Hp2].
    apply (suffix_unique (λ c, c = space)) in Heq as [-> Hv]; [| | |done..].
    + split; [done|]. by apply rendered_plain_inj, chars_inj.
    + eapply Forall_impl; [exact Hp1|]. by intros c [? _].
    + eapply Forall_impl; [exact Hp2|]. by intros c [? _].
Qed.

Lemma name_ok_free name :
  name_ok name = true → Forall (λ c, ¬ delimiter c = true) (chars name).
Proof.
  unfold name_ok. rewrite forallb_forall, Forall_forall.
  intros Hname c Hc%list_elem_of_In. apply Hname in Hc.
  by destruct (delimiter c).
Qed.

Lemma ends_in_pair (D : ascii → Prop) l a c : D c → ends_in D (l ++ [a; c]).
Proof. intros Hc. exists (l ++ [a]), c. by rewrite <- app_assoc. Qed.

(** An entry behind a delimiter can be read back from the right. *)
Lemma entry_inj P1 P2 kv1 kv2 :
  ends_in (λ c, delimiter c = true) P1 →
  ends_in (λ c, delimiter c = true) P2 →
  readable kv1 → readable kv2 →
  P1 ++ chars (entry_of kv1) = P2 ++ chars (entry_of kv2) →
  P1 = P2 ∧ kv1 = kv2.
Proof.
  intros HP1 HP2 [Hk1 Hv1] [Hk2 Hv2] Heq.
  rewrite !chars_entry, !app_assoc in Heq.
  apply value_inj in Heq as [Heq Hv]; [|by apply ends_in_pair..|done|done].
  apply app_inv_tail in Heq.
  apply (suffix_unique (λ c, delimiter c = true)) in Heq as [-> Hk];
    [|by apply name_ok_free..|done|done].
  split; [done|]. apply chars_inj in Hk.
  destruct kv1, kv2; simplify_eq/=. done.
Qed.

Lemma chars_join_snoc sep parts x :
  parts ≠ [] →
  chars (join sep (parts ++ [x]))
  = chars (join sep parts) ++ chars sep ++ chars x.
Proof.
  unfold join. induction parts as [|p parts IH]; [done|]. intros _.
  destruct parts as [|q parts].
  - simpl. by rewrite !chars_app.
  - change (String.concat sep ((p :: q :: parts) ++ [x]))
      with (p +:+ sep +:+ String.concat sep ((q :: parts) ++ [x])).
    change (String.concat sep (p :: q :: parts))
      with (p +:+ sep +:+ String.concat sep (q :: parts)).
    rewrite !chars_app, IH by done. by rewrite <- !app_assoc.
Qed.

Lemma body_snoc l kv : body (l ++ [kv]) = lead l ++ chars (entry_of kv).
Proof.
  unfold body, lead. destruct l as [|kv' l]; [done|].
  rewrite fmap_app.
  change (entry_of <$> [kv]) with [entry_of kv].
  rewrite chars_join_snoc by done.
  simpl. by rewrite <- !app_assoc.
Qed.

Lemma lead_ends l : ends_in (λ c, delimiter c = true) (lead l).
Proof.
  destruct l as [|kv l].
  - by exists [], brace.
  - exists (body (kv :: l) ++ [","%char]), space.
    unfold lead. by rewrite <- app_assoc.
Qed.

Lemma lead_inj l1 l2 : lead l1 = lead l2 → body l1 = body l2.
Proof.
  destruct l1 as [|kv1 l1], l2 as [|kv2 l2]; [done| | |].
  - unfold lead, body. intros [= Heq]. by destruct (chars _).
  - unfold lead, body. intros [= Heq]. by destruct (chars _).
  - unfold lead. by intros ?%app_inv_tail.
Qed.

Lemma entry_long kv : 2 ≤ length (chars (entry_of kv)).
Proof. rewrite chars_entry, !length_app. cbn. lia. Qed.

(** The entries of a statement can be read back from its text. *)
Lemma entries_inj l1 :
  ∀ l2, Forall readable l1 → Forall readable l2 →
        body l1 = body l2 → l1 = l2.
Proof.
  assert (∀ l kv, body [] = body (l ++ [kv]) → False) as Hshort.
  { intros l kv Heq. change (body []) with [brace] in Heq.
    apply (f_equal length) in Heq.
    rewrite body_snoc, length_app in Heq.
    destruct (lead_ends l) as (l' & c & Hl & _).
    rewrite Hl, length_app in Heq. pose proof (entry_long kv). cbn in Heq. lia. }
  induction l1 as [|kv1 l1 IH] using rev_ind; intros l2 Hl1 Hl2 Heq;
    destruct l2 as [|kv2 l2 _] using rev_ind.
  - done.
  - by destruct (Hshort l2 kv2).
  - by destruct (Hshort l1 kv1).
  - apply Forall_app in Hl1 as [Hl1 Hkv1%Forall_inv].
    apply Forall_app in Hl2 as [Hl2 Hkv2%Forall_inv].
    rewrite !body_snoc in Heq.
    apply entry_inj in Heq as [Hlead ->]; [|by apply lead_ends..|done|done].
    f_equal. by apply IH, lead_inj.
Qed.

Lemma chars_merge_statement label props :
  chars (merge_statement label props)
  = (chars "MERGE (:" ++ chars label ++ [space])
      ++ (brace :: chars (join ", " props)) ++ chars "})".
Proof.
  unfold merge_statement. rewrite !chars_app. simpl.
  by rewrite <- !app_assoc.
Qed.

(** Two statements for one label with the same text have the same
    entries. *)
Lemma merge_statement_inj label l1 l2 :
  Forall readable l1 → Forall readable l2 →
  merge_statement label (entry_of <$> l1)
  = merge_statement label (entry_of <$> l2) →
  l1 = l2.
Proof.
  intros Hl1 Hl2 Heq. apply (f_equal chars) in Heq.
  rewrite !chars_merge_statement in Heq.
  apply app_inv_head, app_inv_tail in Heq. by apply entries_inj.
Qed.

Lemma cell_some (r : row) prop kv :
  cell r prop = Some kv ↔
  kv.1 = prop ∧ r !! prop = Some kv.2 ∧ kv.2 ≠ VNull.
Proof.
  unfold cell. destruct kv as [k v]. destruct (r !! prop) as [v'|]; cbn.
  - destruct v'; cbn; split; try done;
      try (intros [= <- <-]; done); by intros (<- & [= <-] & ?).
  - split; [done | by intros (_ & ? & _)].
Qed.

Lemma elem_of_projection unique_property properties (r : row) k v :
  (k, v) ∈ projection unique_property properties r ↔
  k ∈ unique_property :: properties ∧ r !! k = Some v ∧ v ≠ VNull.
Proof.
  unfold projection. rewrite list_elem_of_omap. split.
  - intros (prop & Hprop & (<- & Hv & Hnull)%cell_some). done.
  - intros (Hk & Hv & Hnull). exists k. split; [done|].
    by apply cell_some.
Qed.

Lemma projection_readable unique_property properties (r : row) :
  forallb name_ok (unique_property :: properties) = true →
  Forall readable (projection unique_property properties r).
Proof.
  rewrite forallb_forall. intros Hnames. apply Forall_forall.
  intros [k v] (Hk & _ & Hnull)%elem_of_projection.
  split; [|done]. by apply Hnames, list_elem_of_In.
Qed.

(** Two rows with the same projection have the same cells under the
    projected columns. *)
Lemma projection_cells unique_property properties (r1 r2 : row) prop :
  projection unique_property properties r1
  = projection unique_property properties r2 →
  prop ∈ unique_property :: properties →
  cell r1 prop = cell r2 prop.
Proof.
  intros Heq Hprop.
  assert (∀ (r r' : row) kv,
             projection unique_property properties r
             = projection unique_property properties r' →
             cell r prop = Some kv → cell r' prop = Some kv) as Hsame.
  { intros r r' [k v] Hrr' (Hk & Hv & Hnull)%cell_some.
    cbn in Hk, Hv, Hnull. subst k.
    assert ((prop, v) ∈ projection unique_property properties r') as Hin.
    { rewrite <- Hrr'. by apply elem_of_projection. }
    apply elem_of_projection in Hin as (_ & Hv' & _). by apply cell_some. }
  destruct (cell r1 prop) as [kv|] eqn:H1.
  - symmetry. by apply (Hsame r1 r2).
  - destruct (cell r2 prop) as [kv|] eqn:H2; [|done].
    apply (Hsame r2 r1) in H2; [congruence | done].
Qed.

(** The entries of the merge statement of a record are exactly the
    key-value pairs of the record under the primary key and the listed
    properties whose cells are present and not null, in that order; the
    record yields one statement with these entries, or none when there is
    no such pair.  Two records that differ in the cell of a listed
    property have different projections, and, when no property name
    holds a space or an opening brace, different statement texts: the
    second record is merged on its own full property set and does not
    match what the first one wrote. *)
Theorem merge_statement_carries_projection label unique_property properties
    (r : row) :
  (∀ k v, (k, v) ∈ projection unique_property properties r ↔
          k ∈ unique_property :: properties ∧ r !! k = Some v ∧ v ≠ VNull)
  ∧ row_props unique_property properties r
    = (λ kv, prop_entry kv.1 kv.2)
        <$> projection unique_property properties r
  ∧ merge_statements label unique_property properties [r]
    = match projection unique_property properties r with
      | [] => []
      | kvs => [merge_statement label ((λ kv, prop_entry kv.1 kv.2) <$> kvs)]
      end
  ∧ (∀ (r' : row) prop,
        prop ∈ properties → cell r prop ≠ cell r' prop →
        projection unique_property properties r
        ≠ projection unique_property properties r'
        ∧ (forallb name_ok (unique_property :: properties) = true →
           merge_statement label (row_props unique_property properties r)
           ≠ merge_statement label
                             (row_props unique_property properties r'))).
Proof.
  split; [|split; [|split]].
  - intros k v. apply elem_of_projection.
  - apply row_props_projection.
  - rewrite merge_statements_omap.
    change (omap ?f [r])
      with (match f r with Some y => [y] | None => [] end).
    unfold row_statement. rewrite row_props_projection.
    by destruct (projection unique_property properties r).
  - intros r' prop Hprop Hcell.
    assert (projection unique_property properties r
            ≠ projection unique_property properties r') as Hproj.
    { intros Heq. apply Hcell.
      apply (projection_cells unique_property properties); [done|].
      by right. }
    split; [done|]. intros Hnames Heq. apply Hproj.
    rewrite !row_props_projection in Heq.
    apply merge_statement_inj in Heq; [done|by apply projection_readable..].
Qed.

Example merge_statement_text :
  merge_statements "Product" "product_id" ["price"; "description"]
                   [product "P1" (VInt 10)]
  = ["MERGE (:Product {product_id: " +:+ quoted "P1" +:+ ", price: 10})"].
Proof. reflexivity. Qed.

Example escape_quotes : escape "it's" = "it\'s".
Proof. reflexivity. Qed.

Lemma merge_statement_carries_projection_witness :
  "price" ∈ ["price"]
  ∧ cell (product "P1" (VInt 10)) "price" ≠ cell (product "P1" (VInt 12)) "price"
  ∧ forallb name_ok ["product_id"; "price"] = true
  ∧ projection "product_id" ["price"] (product "P1" (VInt 10))
    ≠ projection "product_id" ["price"] (product "P1" (VInt 12))
  ∧ merge_statement "Product"
      (row_props "product_id" ["price"] (product "P1" (VInt 10)))
    ≠ merge_statement "Product"
        (row_props "product_id" ["price"] (product "P1" (VInt 12))).
Proof.
  assert ("price" ∈ ["price"]) as Hin by apply list_elem_of_here.
  assert (cell (product "P1" (VInt 10)) "price"
          ≠ cell (product "P1" (VInt 12)) "price") as Hcell
      by (vm_compute; discriminate).
  destruct (proj2 (proj2 (proj2
              (merge_statement_carries_projection
                 "Product" "product_id" ["price"] (product "P1" (VInt 10)))))
              (product "P1" (VInt 12)) "price" Hin Hcell)
    as [Hproj Htext].
  exact (conj Hin (conj Hcell (conj eq_refl (conj Hproj (Htext eq_refl))))).
Defined.

End StatementText.


(** ** Batching for every data frame and every store *)

Module BatchingFacts.
Import Text TextFacts Store GraphConstructor ClearFacts GraphConstructorFacts.

Lemma range_from_below fuel i n :
  Forall (λ j, j < n) (range_from fuel i n batch_size).
Proof.
  revert i. induction fuel as [|fuel IH]; intros i; cbn [range_from]; [done|].
  destruct (Nat.ltb_spec i n); [|done]. by constructor.
Qed.

Lemma range_from_slices (df : list row) fuel :
  ∀ i, length df ≤ fuel + i →
       concat ((λ j, iloc df j (j + batch_size))
                 <$> range_from fuel i (length df) batch_size)
       = drop i df.
Proof.
  induction fuel as [|fuel IH]; intros i Hfuel; cbn [range_from].
  - by rewrite drop_ge by lia.
  - destruct (Nat.ltb_spec i (length df)) as [Hi|Hi].
    + cbn. rewrite IH by (unfold batch_size; lia).
      by rewrite iloc_batch, <- drop_batch.
    + by rewrite drop_ge by lia.
Qed.

Lemma range_from_count n fuel :
  ∀ i, n ≤ fuel + i →
       n - i ≤ length (range_from fuel i n batch_size) * batch_size
       ∧ length (range_from fuel i n batch_size) * batch_size
         < n - i + batch_size.
Proof.
  induction fuel as [|fuel IH]; intros i Hfuel; cbn [range_from].
  - cbn. unfold batch_size. lia.
  - destruct (Nat.ltb_spec i n) as [Hi|Hi].
    + destruct (IH (i + batch_size)) as [Hlow Hhigh];
        [unfold batch_size; lia|].
      cbn [length]. rewrite Nat.mul_succ_l. unfold batch_size in *. lia.
    + cbn. unfold batch_size. lia.
Qed.

Lemma concat_batches (df : list row) : concat (batches df) = df.
Proof.
  unfold batches, range. rewrite range_from_slices by lia. apply drop_0.
Qed.

(** X1: slicing loses and repeats nothing: the slices of a data frame, put
    end to end, are the data frame; every slice holds at least one and at
    most [batch_size] rows; and there are as many slices as it takes to
    cover the rows, and no more. *)
Theorem batches_partition (df : list row) :
  concat (batches df) = df
  ∧ Forall (λ b, 0 < length b ≤ batch_size) (batches df)
  ∧ length df ≤ length (batches df) * batch_size
  ∧ length (batches df) * batch_size < length df + batch_size.
Proof.
  split; [apply concat_batches|]. unfold batches, range. split.
  - apply Forall_fmap. eapply Forall_impl; [apply range_from_below|].
    intros i Hi. cbv beta in Hi. unfold compose.
    rewrite iloc_batch, length_take, length_drop. unfold batch_size. lia.
  - rewrite length_fmap.
    destruct (range_from_count (length df) (length df) 0) as [Hlow Hhigh];
      [lia|].
    rewrite Nat.sub_0_r in Hlow, Hhigh. done.
Qed.


(** The batch loop over any list of offsets: one exchange per slice that
    yields statements, whatever the store answers. *)
Lemma batch_loop_log `{GraphDB} df label unique_property properties
    (offsets : list nat) :
  ∀ nodes_created w,
    let bs :=
      filter (λ b, b ≠ [])
             ((λ i, merge_statements label unique_property properties
                                     (iloc df i (i + batch_size)))
                <$> offsets) in
    let result :=
      for_each (import_batch df label unique_property properties)
               nodes_created offsets w in
    ∃ responses,
      length responses = length bs
      ∧ sent result.2 = sent w ++ zip (join newline <$> bs) responses
      ∧ printed result.2 = printed w ++ (responses ≫= batch_lines)
      ∧ result.1 = nodes_created + sum_list (zip_with credited bs responses).
Proof.
  induction offsets as [|i offsets IH]; intros nodes_created w.
  - exists []. cbn. by rewrite !app_nil_r, Nat.add_0_r.
  - cbn [for_each fmap list_fmap]. rewrite bind_run, import_batch_run.
    cbn zeta.
    destruct (merge_statements label unique_property properties
                               (iloc df i (i + batch_size)))
      as [|s b] eqn:Hb.
    + rewrite filter_cons_False by (intros Hne; by apply Hne).
      apply IH.
    + rewrite filter_cons_True by done.
      set (r := reply (sent w).*1 (join newline (s :: b))).
      set (w1 := {| sent := sent w ++ [(join newline (s :: b), r)];
                    printed := printed w ++ batch_lines r |}).
      destruct (IH (if is_success r then nodes_created + length (s :: b)
                    else nodes_created) w1)
        as (responses & Hlen & Hsent & Hprinted & Hcount).
      exists (r :: responses). cbn beta iota zeta.
      split; [by cbn; rewrite Hlen|]. split; [|split].
      * rewrite Hsent. subst w1. cbn. by rewrite <- app_assoc.
      * rewrite Hprinted. subst w1. cbn. by rewrite <- app_assoc.
      * rewrite Hcount. cbn [zip_with sum_list sum_list_with].
        unfold credited at 2, id. destruct (is_success r); lia.
Qed.

Lemma credited_le b r : credited b r ≤ length b.
Proof. unfold credited. destruct (is_success r); lia. Qed.

Lemma sum_credited_le bs : ∀ responses,
  sum_list (zip_with credited bs responses) ≤ length (concat bs).
Proof.
  induction bs as [|b bs IH]; intros [|r responses]; cbn; try lia.
  rewrite length_app. pose proof (credited_le b r). pose proof (IH responses).
  lia.
Qed.

Lemma concat_nonempty {A} (ls : list (list A)) :
  concat (filter (λ l, l ≠ []) ls) = concat ls.
Proof.
  induction ls as [|l ls IH]; [done|]. destruct l as [|x l].
  - rewrite filter_cons_False by (intros Hne; by apply Hne). by rewrite IH.
  - rewrite filter_cons_True by done. cbn. by rewrite IH.
Qed.

Lemma omap_concat {A B} (f : A → option B) (ls : list (list A)) :
  concat ((λ l : list A, omap f l) <$> ls) = omap f (concat ls).
Proof.
  induction ls as [|l ls IH]; [done|]. cbn. by rewrite omap_app, IH.
Qed.

(** The statements of all batches together are the statements of the
    rows of the data frame, in order. *)
Lemma concat_batch_statements label unique_property properties df :
  concat (batch_statements label unique_property properties df)
  = merge_statements label unique_property properties df.
Proof.
  unfold batch_statements. rewrite concat_nonempty.
  rewrite (list_fmap_ext _ (omap (row_statement label unique_property
                                                properties)) (batches df))
    by (intros; apply merge_statements_omap).
  rewrite omap_concat, concat_batches.
  by rewrite merge_statements_omap.
Qed.

Lemma batch_statements_offsets label unique_property properties df :
  filter (λ b, b ≠ [])
         ((λ i, merge_statements label unique_property properties
                                 (iloc df i (i + batch_size)))
            <$> range 0 (length df) batch_size)
  = batch_statements label unique_property properties df.
Proof. unfold batch_statements, batches. by rewrite <- list_fmap_compose. Qed.

(** X2: what [create_nodes] sends does not depend on what the store
    answers: the constraint statement, then one batch statement for every
    slice of the data frame that yields merge statements, in order.  A
    failed constraint or a failed batch stops nothing. *)
Theorem create_nodes_statements `{GraphDB} df label unique_property
    properties w :
  (sent (create_nodes df label unique_property properties w).2).*1
  = (sent w).*1
      ++ constraint_query label unique_property
         :: (join newline
               <$> batch_statements label unique_property properties df).
Proof.
  rewrite create_nodes_run. cbn zeta. cbn [snd sent].
  match goal with
  | |- context [for_each _ 0 _ ?w1] =>
      destruct (batch_loop_log df label unique_property properties
                               (range 0 (length df) batch_size) 0 w1)
        as (responses & Hlen & Hsent & _)
  end.
  rewrite batch_statements_offsets in Hlen, Hsent.
  rewrite Hsent. cbn [sent]. rewrite !fmap_app, fst_zip.
  - cbn. by rewrite <- app_assoc.
  - by rewrite length_fmap, Hlen.
Qed.

(** X3: the count [create_nodes] returns is the number of merge statements
    in the batches the store accepted, and it prints one batch error line
    for every batch the store did not accept.  So the count never exceeds
    the number of rows with a non-empty projection, nor the number of
    rows. *)
Theorem create_nodes_accounting `{GraphDB} df label unique_property
    properties w :
  let result := create_nodes df label unique_property properties w in
  let bs := batch_statements label unique_property properties df in
  ∃ created responses,
    length responses = length bs
    ∧ sent result.2
      = sent w ++ (constraint_query label unique_property, created)
                  :: zip (join newline <$> bs) responses
    ∧ result.1 = sum_list (zip_with credited bs responses)
    ∧ length (filter (λ m, is_batch_issue m) (printed result.2))
      = length (filter (λ m, is_batch_issue m) (printed w))
        + length (filter (λ r, is_success r = false) responses)
    ∧ result.1
      ≤ length (filter (λ r, projection unique_property properties r ≠ []) df)
    ∧ result.1 ≤ length df.
Proof.
  intros result bs. subst result. rewrite create_nodes_run. cbn zeta.
  cbn [fst snd sent printed].
  match goal with
  | |- context [for_each _ 0 _ ?w1] =>
      destruct (batch_loop_log df label unique_property properties
                               (range 0 (length df) batch_size) 0 w1)
        as (responses & Hlen & Hsent & Hprinted & Hcount)
  end.
  rewrite batch_statements_offsets in Hlen, Hsent, Hcount. fold bs in Hlen, Hsent, Hcount.
  eexists _, responses. rewrite Hsent, Hprinted, Hcount. cbn [sent printed].
  assert (sum_list (zip_with credited bs responses)
          ≤ length (filter (λ r, projection unique_property properties r ≠ [])
                           df)) as Hbound.
  { etrans; [apply sum_credited_le|]. subst bs.
    by rewrite concat_batch_statements, length_merge_statements. }
  split; [done|]. split; [by rewrite <- app_assoc|]. split; [done|].
  split; [|split; [done|]].
  - rewrite !filter_app, !length_app, no_issue_in_opening_lines,
      no_issue_in_closing_line. cbn [length].
    rewrite !Nat.add_0_r. f_equal.
    clear. induction responses as [|r responses IH]; [done|].
    cbn [mbind list_bind]. rewrite filter_app, length_app, IH.
    rewrite issues_of_batch_lines.
    destruct (is_success r) eqn:Hr.
    + by rewrite filter_cons_False by congruence.
    + by rewrite filter_cons_True by done.
  - etrans; [exact Hbound|]. apply length_filter.
Qed.

End BatchingFacts.


(** ** Quoting of text cells *)

Module EscapeFacts.
Import Text TextFacts Store GraphConstructor StatementText.

Lemma escaped_quote_guarded (l : list ascii) :
  ∀ before c after,
    l ≫= escape_char = before ++ c :: after →
    c = dquote ∨ c = squote →
    ∃ before', before = before' ++ [backslash].
Proof.
  induction l as [|x l IH] using rev_ind; intros before c after Heq Hc.
  - by destruct before.
  - rewrite escaped_snoc in Heq.
    apply app_eq_app in Heq as [l' [[Hl Hx] | [Hb Hx]]].
    + destruct l' as [|c' l'].
      * exfalso. cbn in Hx. unfold escape_char in Hx.
        destruct (Ascii.eqb_spec x dquote) as [->|?];
          [injection Hx as -> _; by destruct Hc|].
        destruct (Ascii.eqb_spec x squote) as [->|?];
          [injection Hx as -> _; by destruct Hc|].
        injection Hx as -> _. by destruct Hc.
      * injection Hx as <- _. by eapply IH.
    + unfold escape_char in Hx.
      destruct (Ascii.eqb_spec x dquote) as [->|?];
        [|destruct (Ascii.eqb_spec x squote) as [->|?]].
      * destruct l' as [|b [|b' l']]; simplify_eq/=;
          [by destruct Hc | by eexists | by destruct l'].
      * destruct l' as [|b [|b' l']]; simplify_eq/=;
          [by destruct Hc | by eexists | by destruct l'].
      * destruct l' as [|b l']; simplify_eq/=; [by destruct Hc | by destruct l'].
Qed.

(** X4: the quoting of a text cell loses nothing and leaves no quote
    bare: two different texts are escaped to different texts, and every
    double or single quote in an escaped text stands right behind a
    backslash. *)
Theorem escape_injective_and_guarded :
  (∀ s1 s2, escape s1 = escape s2 → s1 = s2)
  ∧ (∀ s before c after,
        chars (escape s) = before ++ c :: after →
        c = dquote ∨ c = squote →
        ∃ before', before = before' ++ [backslash]).
Proof.
  split.
  - intros s1 s2 Heq. apply chars_inj.
    apply (f_equal chars) in Heq. rewrite !chars_escape in Heq.
    apply (f_equal (app ([space] ++ [dquote]))) in Heq.
    apply escape_suffix_inj in Heq as [_ Hs]; [done|by exists [], space..].
  - intros s before c after. rewrite chars_escape.
    apply escaped_quote_guarded.
Qed.

End EscapeFacts.

(** ** More on the health block and on schema inference *)

Module InferenceFacts.
Import Text TextFacts Store SchemaProposal SchemaProposalFacts KGConstructor.

(** X5: the status depends on the two totals alone: healthy exactly when
    there are nodes and relationships, unhealthy exactly when there are
    neither, degraded exactly when there is one of the two; the connected
    paths move the score by 20 and never the status.  The score lies
    between 0 and 100, and it is 100 exactly when no issue is listed. *)
Theorem health_status_by_totals (total_nodes total_relationships : Z)
    (connected_paths : list (gmap string value)) :
  let v := determine_health total_nodes total_relationships connected_paths in
  (status v = "healthy" ↔ (0 < total_nodes ∧ 0 < total_relationships)%Z)
  ∧ (status v = "unhealthy" ↔ (total_nodes ≤ 0 ∧ total_relationships ≤ 0)%Z)
  ∧ (status v = "degraded" ↔
     ((0 < total_nodes ∧ total_relationships ≤ 0)
      ∨ (total_nodes ≤ 0 ∧ 0 < total_relationships))%Z)
  ∧ (0 ≤ health_score v ≤ 100)%Z
  ∧ (issues v = [] ↔ health_score v = 100%Z)
  ∧ status v
    = status (determine_health total_nodes total_relationships []).
Proof.
  intros v. subst v. unfold determine_health.
  destruct (Z.ltb_spec 0 total_nodes), (Z.ltb_spec 0 total_relationships),
           connected_paths as [|path paths];
    cbn; repeat split; intros; try done; try lia;
    try (by left; lia); try (by right; lia);
    repeat match goal with H : _ ∨ _ |- _ => destruct H end; lia.
Qed.

(** X6: an inferred primary key is the name of one of the properties it
    was inferred from, and that name is id, uuid or key up to case; for
    the properties extracted from a sample it is one of the headers. *)
Theorem infer_primary_key_is_listed :
  (∀ properties k,
      _infer_primary_key properties = Some k →
      k ∈ prop_name <$> properties ∧ lower k ∈ ["id"; "uuid"; "key"])
  ∧ (∀ sample k,
        _infer_primary_key (_extract_properties_from_sample sample) = Some k →
        ∃ headers, sample_headers sample = Some headers ∧ k ∈ headers).
Proof.
  assert (∀ properties k,
             _infer_primary_key properties = Some k →
             k ∈ prop_name <$> properties ∧ lower k ∈ ["id"; "uuid"; "key"])
    as Hlisted.
  { intros properties k
           (before & prop & after & -> & <- & Hkey & _)%infer_primary_key_some.
    split; [|done]. rewrite fmap_app, fmap_cons, elem_of_app, elem_of_cons.
    auto. }
  split; [done|]. intros sample k [Hk _]%Hlisted.
  unfold _extract_properties_from_sample in Hk.
  destruct (sample_headers sample) as [headers|]; [|by apply elem_of_nil in Hk].
  exists headers. split; [done|].
  rewrite foldl_snoc_map, app_nil_l, <- list_fmap_compose in Hk.
  by rewrite list_fmap_id in Hk.
Qed.

Lemma filter_partition_perm {A} (P : A → Prop) `{∀ x, Decision (P x)}
    (l : list A) :
  filter (λ x, ¬ P x) l ++ filter P l ≡ₚ l.
Proof.
  induction l as [|x l IH]; [done|]. destruct (decide (P x)).
  - rewrite filter_cons_False, filter_cons_True by auto.
    by rewrite <- Permutation_middle, IH.
  - rewrite filter_cons_True, filter_cons_False by auto.
    cbn. by rewrite IH.
Qed.

(** X7: the import order names every node type's source file once for
    each node type that has it: it is a rearrangement of the source files
    of the node types, whatever the relationships are. *)
Theorem import_order_permutation nodes relationships :
  _calculate_import_order nodes relationships ≡ₚ node_source_file <$> nodes
  ∧ length (_calculate_import_order nodes relationships) = length nodes.
Proof.
  assert (_calculate_import_order nodes relationships
          ≡ₚ node_source_file <$> nodes) as Hperm.
  { rewrite import_order_filters, <- fmap_app.
    by rewrite (filter_partition_perm
                  (λ n, has_foreign_key relationships n) nodes). }
  split; [done|]. by rewrite Hperm, length_fmap.
Qed.

(** X8: an inferred relationship joins the labels of two different node
    types of the list and matches on a property of the first; a list with
    fewer than two different node types gives no relationship. *)
Theorem infer_relationships_sound nodes :
  (∀ r, r ∈ _infer_relationships nodes →
        ∃ X Y, X ∈ nodes ∧ Y ∈ nodes ∧ X ≠ Y
               ∧ rel_from_label r = node_label X
               ∧ rel_to_label r = node_label Y
               ∧ rel_property r ∈ prop_name <$> node_properties X)
  ∧ ((∀ X Y, X ∈ nodes → Y ∈ nodes → X = Y) → _infer_relationships nodes = []).
Proof.
  assert (∀ r, r ∈ _infer_relationships nodes →
               ∃ X Y, X ∈ nodes ∧ Y ∈ nodes ∧ X ≠ Y
                      ∧ rel_from_label r = node_label X
                      ∧ rel_to_label r = node_label Y
                      ∧ rel_property r ∈ prop_name <$> node_properties X)
    as Hsound.
  { intros r. rewrite infer_relationships_bind.
    intros (X & (prop & (Y & Hr & HY)%list_elem_of_bind & Hprop)
                   %list_elem_of_bind & HX)%list_elem_of_bind.
    apply elem_of_emitted in Hr as (Hne & _ & ->).
    exists X, Y. repeat split; try done. cbn. by apply list_elem_of_fmap_2. }
  split; [done|]. intros Hsame.
  destruct (_infer_relationships nodes) as [|r rs] eqn:Hrs; [done|].
  destruct (Hsound r) as (X & Y & HX & HY & Hne & _); [by left|].
  by destruct (Hne (Hsame X Y HX HY)).
Qed.

End InferenceFacts.


(** ** The tools of the constructor agent, for every store *)

Module ToolFacts.
Import Text TextFacts Store KGConstructor ClearFacts.

Lemma elem_of_dict_set k v d k' v' :
  (k', v') ∈ dict_set k v d → (k', v') ∈ d ∨ k' = k.
Proof.
  induction d as [|[k0 v0] d IH]; cbn.
  - intros [= -> ->]%list_elem_of_singleton. by right.
  - destruct (String.eqb_spec k k0) as [->|Hne].
    + intros [[= -> ->] | Hin]%elem_of_cons; [by right|].
      left. by right.
    + intros [[= -> ->] | Hin]%elem_of_cons; [left; by left|].
      destruct (IH Hin) as [?|?]; [left; by right | by right].
Qed.

(** One turn of the loop of [create_relationships_tool]. *)
Lemma create_relationship_turn `{GraphDB} results created config w :
  let q := relationship_query config in
  let w1 := {| sent := sent w ++ [(q, reply (sent w).*1 q)];
               printed := printed w |} in
  ∃ acc,
    create_relationship (inr (results, created)) config w = (acc, w1)
    ∧ match acc with
      | inl _ => ¬ count_readable (reply (sent w).*1 q)
      | inr (results', created') =>
          (∃ entry, results' = results ++ [entry]
                    ∧ relationship_of entry = relationship_type config)
          ∧ ∀ k v, (k, v) ∈ created' →
                   (k, v) ∈ created ∨ k = relationship_type config
      end.
Proof.
  intros q w1. unfold create_relationship. run_M. fold q.
  destruct (reply (sent w).*1 q) as [[|first rows]|msg|e]; cbn.
  - eexists. split; [done|]. split; [by eexists|].
    intros k v. apply elem_of_dict_set.
  - destruct (first !! "relationships_created") as [count|]; cbn.
    + eexists. split; [done|]. split; [by eexists|].
      intros k v. apply elem_of_dict_set.
    + eexists. split; [done|]. by intros [? ?].
  - eexists. split; [done|]. split; [by eexists|]. auto.
  - eexists. split; [done|]. cbn. tauto.
Qed.

Lemma create_relationship_loop `{GraphDB} configs :
  ∀ results created w,
    let out :=
      for_each create_relationship (inr (results, created)) configs w in
    printed out.2 = printed w
    ∧ ((∀ history q, count_readable (reply history q)) →
       ∃ done, out.1 = inr done)
    ∧ match out.1 with
      | inl _ => True
      | inr (results', created') =>
          (∃ new, results' = results ++ new
                  ∧ relationship_of <$> new = relationship_type <$> configs)
          ∧ (sent out.2).*1
            = (sent w).*1 ++ (relationship_query <$> configs)
          ∧ ∀ k v, (k, v) ∈ created' →
                   (k, v) ∈ created ∨ k ∈ relationship_type <$> configs
      end.
Proof.
  induction configs as [|config configs IH]; intros results created w.
  - cbn. split; [done|]. split; [by eexists|].
    split; [exists []; by rewrite app_nil_r|]. split; [by rewrite app_nil_r|].
    auto.
  - cbn [for_each]. rewrite bind_run.
    destruct (create_relationship_turn results created config w)
      as (acc & -> & Hacc).
    set (w1 := {| sent := sent w ++ _; printed := printed w |}).
    assert ((sent w1).*1 = (sent w).*1 ++ [relationship_query config]) as Hw1
        by (subst w1; cbn [sent]; by rewrite fmap_app).
    destruct acc as [e|[results' created']].
    + rewrite create_relationship_raised. cbn.
      split; [done|]. split; [|done]. intros Hok. by destruct Hacc.
    + destruct Hacc as [(entry & -> & Hentry) Hcreated].
      destruct (IH (results ++ [entry]) created' w1) as (Hp & Hok & Hout).
      split; [done|]. split; [done|].
      destruct (for_each _ _ configs w1).1 as [e|[results'' created'']];
        [done|].
      destruct Hout as ((new & -> & Hnew) & Hsent & Hkeys).
      split; [|split].
      * exists (entry :: new). rewrite <- app_assoc. split; [done|].
        cbn. by rewrite Hentry, Hnew.
      * rewrite Hsent, Hw1, <- app_assoc. done.
      * intros k v [Hin | Hin]%Hkeys.
        -- destruct (Hcreated k v Hin) as [? | ->]; [by left|].
           right. by left.
        -- right. by right.
Qed.

(** X9: [create_relationships_tool] either finishes or changes nothing
    it was given.  When it finishes it has sent one statement per
    configuration, in order, and reports one entry per configuration, in
    order, whether the store accepted the statement or rejected it; the
    counts it stores are under relationship types of the configurations,
    and the other keys of the tool state are as before.  When it returns
    an error, which takes an exception or a first row without the count,
    the tool state is as before.  It prints nothing. *)
Theorem create_relationships_tool_outcome `{GraphDB} state configs w :
  let run := create_relationships_tool state configs w in
  printed run.2 = printed w
  ∧ ((∀ history q, count_readable (reply history q)) →
     ∃ results, run.1.1 = ToolSuccess "relationship_results" results)
  ∧ match run.1.1 with
    | ToolSuccess key results =>
        key = "relationship_results"
        ∧ relationship_of <$> results = relationship_type <$> configs
        ∧ (sent run.2).*1 = (sent w).*1 ++ (relationship_query <$> configs)
        ∧ (∃ created,
              relationships_created run.1.2 = Some created
              ∧ ∀ k v, (k, v) ∈ created → k ∈ relationship_type <$> configs)
        ∧ database_cleared run.1.2 = database_cleared state
        ∧ graph_verification run.1.2 = graph_verification state
    | ToolError _ => run.1.2 = state
    | ToolResponse _ => False
    end.
Proof.
  intros run. subst run. unfold create_relationships_tool.
  rewrite bind_run.
  destruct (create_relationship_loop configs [] [] w) as (Hp & Hok & Hout).
  destruct (for_each create_relationship (inr ([], [])) configs w)
    as [[e|[results created]] w'] eqn:Hrun; cbn in Hp, Hok, Hout |- *.
  - split; [done|]. split; [|done]. intros Hall.
    by destruct (Hok Hall) as [? ?].
  - destruct Hout as ((new & -> & Hnew) & Hsent & Hkeys).
    split; [done|]. split; [by eexists|].
    repeat split; try done.
    exists created. split; [done|]. intros k v [Hin|Hin]%Hkeys; [|done].
    by apply elem_of_nil in Hin.
Qed.


Lemma determine_health_totals tn tr paths :
  total_nodes (determine_health tn tr paths) = tn
  ∧ total_relationships (determine_health tn tr paths) = tr
  ∧ connected_paths (determine_health tn tr paths) = paths.
Proof.
  unfold determine_health.
  by destruct (0 <? tn)%Z, (0 <? tr)%Z, (0 <? length paths)%nat.
Qed.

(** X10: [verify_graph_tool] sends its three read queries in order and
    stops at the first exception; it prints nothing.  When it returns an
    error the tool state is as before.  When it succeeds, all three
    queries were sent, the result it returns is the one it stores under
    [graph_verification], the other keys are as before, and the totals
    are those of the answers, a rejected count query counting as zero.
    In particular a store that rejects all three queries gives a
    successful result with status unhealthy, score zero and three
    issues. *)
Theorem verify_graph_tool_outcome `{GraphDB} state w :
  let run := verify_graph_tool state w in
  let queries := [node_query; rel_query; connected_query] in
  printed run.2 = printed w
  ∧ (∃ n, (sent run.2).*1 = (sent w).*1 ++ take n queries)
  ∧ match run.1.1 with
    | ToolSuccess key v =>
        key = "verification_results"
        ∧ graph_verification run.1.2 = Some v
        ∧ database_cleared run.1.2 = database_cleared state
        ∧ relationships_created run.1.2 = relationships_created state
        ∧ ∃ r1 r2 r3,
            sent run.2 = sent w ++ zip queries [r1; r2; r3]
            ∧ total_of r1 = inr (total_nodes v)
            ∧ total_of r2 = inr (total_relationships v)
            ∧ connected_paths v
              = match r3 with Success rows => rows | _ => [] end
            ∧ v = determine_health (total_nodes v) (total_relationships v)
                                   (connected_paths v)
    | ToolError _ => run.1.2 = state
    | ToolResponse _ => False
    end
  ∧ (∀ answers,
       sent run.2 = sent w ++ answers →
       Forall (λ a, ∃ msg, a.2 = Failure msg) answers →
       ∃ v, run.1.1 = ToolSuccess "verification_results" v
            ∧ status v = "unhealthy" ∧ health_score v = 0%Z
            ∧ length (issues v) = 3).
Proof.
  intros run queries. subst run queries. unfold verify_graph_tool. run_M.
  set (r1 := reply (sent w).*1 node_query).
  set (w1 := {| sent := sent w ++ [(node_query, r1)]; printed := printed w |}).
  destruct (total_of r1) as [e1|tn] eqn:H1; cbn.
  { split; [done|]. split; [exists 1; by rewrite fmap_app|]. split; [done|].
    intros answers <-%app_inv_head [[msg Hmsg] _]%Forall_cons.
    cbn in Hmsg. rewrite Hmsg in H1. done. }
  set (r2 := reply (sent w ++ [(node_query, r1)]).*1 rel_query).
  destruct (total_of r2) as [e2|tr] eqn:H2; cbn.
  { split; [done|].
    split; [exists 2; by rewrite !fmap_app, <- app_assoc|]. split; [done|].
    rewrite <- app_assoc.
    intros answers <-%app_inv_head
      [_ [[msg Hmsg] _]%Forall_cons]%Forall_cons.
    cbn in Hmsg. rewrite Hmsg in H2. done. }
  set (r3 := reply ((sent w ++ [(node_query, r1)]) ++ [(rel_query, r2)]).*1
                   connected_query).
  assert (∀ rest : list (string * response),
            ((sent w ++ [(node_query, r1)]) ++ [(rel_query, r2)]) ++ rest
            = sent w ++ (node_query, r1) :: (rel_query, r2) :: rest) as Hassoc
      by (intros rest; by rewrite <- !app_assoc).
  destruct r3 as [rows|msg3|e3] eqn:H3; cbn;
    (split; [done|]);
    (split; [exists 3; by rewrite !fmap_app, <- !app_assoc|]).
  - split.
    + repeat split. exists r1, r2, (Success rows).
      destruct (determine_health_totals tn tr rows) as (-> & -> & ->).
      by rewrite Hassoc.
    + rewrite Hassoc.
      intros answers <-%app_inv_head
        [_ [_ [[msg Hmsg] _]%Forall_cons]%Forall_cons]%Forall_cons.
      done.
  - split.
    + repeat split. exists r1, r2, (Failure msg3).
      destruct (determine_health_totals tn tr []) as (-> & -> & ->).
      by rewrite Hassoc.
    + rewrite Hassoc.
      intros answers <-%app_inv_head
        [[m1 Hm1] [[m2 Hm2] _]%Forall_cons]%Forall_cons.
      cbn in Hm1, Hm2. rewrite Hm1 in H1. rewrite Hm2 in H2.
      injection H1 as <-. injection H2 as <-. by eexists.
  - split; [done|]. rewrite Hassoc.
    intros answers <-%app_inv_head
      [_ [_ [[msg Hmsg] _]%Forall_cons]%Forall_cons]%Forall_cons.
    done.
Qed.


(** A count of [True] is summed as 1, as Python's [sum] does: the tool
    succeeds and reports one node. *)
Example verify_graph_tool_counts_true :
  let store : GraphDB :=
    λ _ query, if String.eqb query node_query
               then Success [{[ "count" := VBool true ]}] else Success [] in
  let state := {| database_cleared := false; relationships_created := None;
                  graph_verification := None |} in
  match (@verify_graph_tool store state fresh).1.1 with
  | ToolSuccess _ v => total_nodes v = 1%Z ∧ status v = "degraded"
  | _ => False
  end.
Proof. split; reflexivity. Qed.

End ToolFacts.


(** ** The relationships of the construction script *)

Module ScriptRelationshipsFacts.
Import Text Store ScriptRelationships ClearFacts.

Lemma create_one_run `{GraphDB} name query relationships_created lines w :
  let r := reply (sent w).*1 query in
  ∃ outcome,
    create_one name query (relationships_created, lines) w
    = ((match counted name r with
        | Some (k, count) => KGConstructor.dict_set k count relationships_created
        | None => relationships_created
        end, lines ++ [Creating name; outcome]),
       {| sent := sent w ++ [(query, r)]; printed := printed w |}).
Proof.
  intros r. subst r. unfold create_one. run_M.
  destruct (reply (sent w).*1 query) as [[|first rows]|msg|e]; cbn;
    [| destruct (first !! "created") as [count|]; cbn | |];
    eexists; by rewrite <- app_assoc.
Qed.

(** X11: [create_relationships] of the script always sends its three
    statements, in the same order, whatever the store answers, an
    exception included; it returns a count for exactly the relationship
    types whose answer was a success with the count in its first row,
    in the order CONTAINS, IS_PART_OF, SUPPLIED_BY, and writes seven
    lines. *)
Theorem create_relationships_sends_all_three `{GraphDB} w :
  let run := create_relationships w in
  ∃ r1 r2 r3,
    sent run.2
    = sent w ++ [(contains_query, r1); (part_of_query, r2);
                 (supplier_query, r3)]
    ∧ run.1.1 = omap id [counted "CONTAINS" r1; counted "IS_PART_OF" r2;
                         counted "SUPPLIED_BY" r3]
    ∧ length run.1.2 = 7
    ∧ printed run.2 = printed w.
Proof.
  intros run. subst run. unfold create_relationships.
  rewrite bind_run.
  destruct (create_one_run "CONTAINS" contains_query [] [CreatingRelationships] w)
    as (o1 & ->).
  set (r1 := reply (sent w).*1 contains_query).
  set (w1 := {| sent := sent w ++ [(contains_query, r1)];
                printed := printed w |}).
  set (rc1 := match counted "CONTAINS" r1 with
              | Some (k, count) => KGConstructor.dict_set k count []
              | None => []
              end).
  rewrite bind_run.
  destruct (create_one_run "IS_PART_OF" part_of_query rc1
              ([CreatingRelationships] ++ [Creating "CONTAINS"; o1]) w1)
    as (o2 & ->).
  set (r2 := reply (sent w1).*1 part_of_query).
  set (w2 := {| sent := sent w1 ++ [(part_of_query, r2)];
                printed := printed w1 |}).
  set (rc2 := match counted "IS_PART_OF" r2 with
              | Some (k, count) => KGConstructor.dict_set k count rc1
              | None => rc1
              end).
  destruct (create_one_run "SUPPLIED_BY" supplier_query rc2
              (([CreatingRelationships] ++ [Creating "CONTAINS"; o1])
                 ++ [Creating "IS_PART_OF"; o2]) w2)
    as (o3 & ->).
  set (r3 := reply (sent w2).*1 supplier_query).
  exists r1, r2, r3. cbn [fst snd sent printed].
  split; [subst w2 w1; cbn [sent]; by rewrite <- !app_assoc|].
  split; [|done].
  subst rc2 rc1. unfold counted.
  destruct r1 as [[|f1 ?]|?|?], r2 as [[|f2 ?]|?|?], r3 as [[|f3 ?]|?|?];
    try reflexivity;
    try destruct (f1 !! "created"); try destruct (f2 !! "created");
    try destruct (f3 !! "created"); reflexivity.
Qed.

End ScriptRelationshipsFacts.


(** ** The analysis of structured data *)

Module SchemaToolsFacts.
Import Text TextFacts SchemaProposal SchemaProposalFacts SchemaTools.

Lemma substring_all s : substring 0 (String.length s) s = s.
Proof. induction s as [|c s IH]; cbn; [done | by rewrite IH]. Qed.

Lemma substring_after p s :
  substring (String.length p) (String.length s) (p +:+ s) = s.
Proof. induction p as [|c p IH]; cbn; [apply substring_all | done]. Qed.

Lemma length_app p s :
  String.length (p +:+ s) = String.length p + String.length s.
Proof. induction p as [|c p IH]; simpl; [done | by f_equal]. Qed.

Lemma substring_split s :
  ∀ n, n ≤ String.length s →
       s = substring 0 n s +:+ substring n (String.length s - n) s.
Proof.
  induction s as [|c s IH]; intros [|n] Hn; simpl in *.
  - done.
  - lia.
  - by rewrite substring_all.
  - change (String c (substring 0 n s) +:+ ?b)
      with (String c (substring 0 n s +:+ b)).
    f_equal. apply IH. lia.
Qed.

(** [endswith] holds of the strings that are something followed by the
    suffix. *)
Lemma endswith_spec s suffix :
  endswith s suffix = true ↔ ∃ p, s = p +:+ suffix.
Proof.
  unfold endswith. rewrite andb_true_iff, Nat.leb_le, String.eqb_eq. split.
  - intros [Hlen Hsub].
    exists (substring 0 (String.length s - String.length suffix) s).
    pose proof (substring_split s (String.length s - String.length suffix))
      as Hsplit.
    replace (String.length s - (String.length s - String.length suffix))
      with (String.length suffix) in Hsplit by lia.
    rewrite Hsub in Hsplit. apply Hsplit. lia.
  - intros [p ->]. rewrite length_app. split; [lia|].
    replace (String.length p + String.length suffix - String.length suffix)
      with (String.length p) by lia.
    apply substring_after.
Qed.

Lemma infer_primary_key_nonempty properties k :
  _infer_primary_key properties = Some k → k ≠ "".
Proof.
  induction properties as [|p ps IH]; cbn [_infer_primary_key]; [done|].
  destruct (mem (lower (prop_name p)) ["id"; "uuid"; "key"]) eqn:Hp; [|done].
  intros [= <-] Hempty. by rewrite Hempty in Hp.
Qed.

(** A node whose primary key was inferred has one in the eyes of [if]
    exactly when the inference found one. *)
Lemma truth_of_inferred_key label n :
  analysed label n →
  (if has_primary_key n
   then Some {| constraint_type := "uniqueness";
                constraint_label := node_label n;
                constraint_property := default "" (node_primary_key n) |}
   else None)
  = constraint_of n.
Proof.
  intros (_ & _ & Hkey). unfold has_primary_key, constraint_of.
  destruct (node_primary_key n) as [k|] eqn:Hk; [|done].
  symmetry in Hkey. apply infer_primary_key_nonempty in Hkey.
  by destruct (String.eqb_spec k "").
Qed.

Lemma foldl_snoc_if {A B} (test : A → bool) (f : A → B) (l : list A) :
  ∀ acc,
    foldl (λ acc x, if test x then acc ++ [f x] else acc) acc l
    = acc ++ omap (λ x, if test x then Some (f x) else None) l.
Proof.
  induction l as [|x l IH]; intros acc; cbn [foldl].
  - cbn. by rewrite app_nil_r.
  - rewrite IH. change (omap ?g (x :: l)) with
      (match g x with Some y => y :: omap g l | None => omap g l end).
    cbv beta. destruct (test x); [|done]. by rewrite <- app_assoc.
Qed.

Lemma suggest_indexes_omap ns :
  _suggest_indexes ns
  = omap (λ n, if has_primary_key n
               then Some {| index_type := "btree";
                            index_label := node_label n;
                            index_property := default "" (node_primary_key n);
                            index_reason := "Primary key lookup performance" |}
               else None) ns.
Proof. unfold _suggest_indexes. by rewrite foldl_snoc_if. Qed.

Section Loop.
Variable sample_file : list string → string → sample_result.
Variable label : string → string.

Lemma analyze_file_raised e files :
  foldl (analyze_file sample_file label) (inl e) files = inl e.
Proof. by induction files. Qed.

Lemma analyze_loop files :
  ∀ acc,
    match foldl (analyze_file sample_file label) (inr acc) files with
    | inl _ => ∃ history f e, sample_file history f = SampleRaised e
    | inr acc' =>
        ∃ new,
          found_nodes acc' = found_nodes acc ++ new
          ∧ node_source_file <$> new
              `sublist_of` filter (λ f, endswith f ".csv") files
          ∧ ((∀ history f, sample_file history f ≠ SampleFailed) →
             node_source_file <$> new = filter (λ f, endswith f ".csv") files)
          ∧ Forall (analysed label) new
          ∧ found_constraints acc'
            = found_constraints acc ++ omap constraint_of new
    end.
Proof.
  induction files as [|f files IH]; intros acc.
  - cbn. exists []. by rewrite !app_nil_r.
  - cbn [foldl]. unfold analyze_file at 2.
    destruct (endswith f ".csv") eqn:Hcsv; cbn [negb].
    + rewrite filter_cons_True by by rewrite Hcsv.
      destruct (sample_file (sampled acc) f) as [data| |e] eqn:Hsample.
      * set (n := {| node_label := label f; node_source_file := f;
                     node_properties := _extract_properties_from_sample data;
                     node_primary_key :=
                       _infer_primary_key
                         (_extract_properties_from_sample data) |}).
        assert (analysed label n) as Hn by (split; [done | split; [by eexists | done]]).
        match goal with
        | |- context [foldl _ (inr ?a) files] => specialize (IH a)
        end.
        destruct (foldl _ _ files) as [e|acc']; [done|].
        destruct IH as (new & Hnodes & Hsub & Hall & Hnew & Hcons).
        cbn [found_nodes found_constraints] in Hnodes, Hcons.
        exists (n :: new). rewrite Hnodes, Hcons, <- app_assoc.
        split; [done|]. split; [by apply sublist_skip|].
        split; [intros Hok; cbn; by rewrite Hall|].
        split; [by constructor|].
        change (omap constraint_of (n :: new))
          with (match constraint_of n with
                | Some y => y :: omap constraint_of new
                | None => omap constraint_of new
                end).
        rewrite <- (truth_of_inferred_key label n Hn).
        fold n. by destruct (has_primary_key n); rewrite <- ?app_assoc.
      * match goal with
        | |- context [foldl _ (inr ?a) files] => specialize (IH a)
        end.
        destruct (foldl _ _ files) as [e|acc']; [done|].
        destruct IH as (new & Hnodes & Hsub & Hall & Hnew & Hcons).
        exists new. split; [done|]. split; [by apply sublist_cons|].
        split; [|done]. intros Hok. by destruct (Hok (sampled acc) f).
      * rewrite analyze_file_raised. by eexists _, _, _.
    + rewrite filter_cons_False by (rewrite Hcsv; intros []).
      apply IH.
Qed.

End Loop.

(** X12: [analyze_structured_data_tool] either stores and returns one
    proposal or leaves the tool state as it was, the latter only when
    sampling raised.  The proposal lists the files it was given; its nodes
    come from files whose name ends in [.csv], in the order of the files,
    and from every such file when no sample is refused; each node has the
    label inferred from its file, properties extracted from a sample and
    the primary key inferred from them; and the constraints are, in order,
    one uniqueness constraint for each node with a primary key, on the
    node's label and that key. *)
Theorem analyze_structured_data_outcome
    (sample_file : list string → string → sample_result)
    (label : string → string) (state : tool_state) (files : list string) :
  let run := analyze_structured_data_tool sample_file label state files in
  match run.1 with
  | KGConstructor.ToolSuccess key schema =>
      key = "structured_data_analysis"
      ∧ run.2 = {| structured_schema_proposal := Some schema |}
      ∧ files_analyzed schema = files
      ∧ node_source_file <$> nodes schema
          `sublist_of` filter (λ f, endswith f ".csv") files
      ∧ ((∀ history f, sample_file history f ≠ SampleFailed) →
         node_source_file <$> nodes schema
         = filter (λ f, endswith f ".csv") files)
      ∧ Forall (λ n, ∃ name, node_source_file n = name +:+ ".csv")
               (nodes schema)
      ∧ Forall (analysed label) (nodes schema)
      ∧ constraints schema = omap constraint_of (nodes schema)
  | KGConstructor.ToolError _ =>
      run.2 = state ∧ ∃ history f e, sample_file history f = SampleRaised e
  | KGConstructor.ToolResponse _ => False
  end.
Proof.
  intros run. subst run. unfold analyze_structured_data_tool.
  pose proof (analyze_loop sample_file label files
                {| sampled := []; found_nodes := [];
                   found_constraints := [] |}) as Hloop.
  destruct (foldl _ _ files) as [e|acc]; cbn.
  - done.
  - destruct Hloop as (new & Hnodes & Hsub & Hall & Hnew & Hcons).
    cbn in Hnodes, Hcons. rewrite Hnodes, Hcons.
    repeat (split; [done|]). split; [|done].
    apply Forall_forall. intros n Hn. apply endswith_spec.
    apply (list_elem_of_fmap_2 node_source_file) in Hn.
    apply (elem_of_sublist _ _ _ Hn) in Hsub.
    apply list_elem_of_filter in Hsub as [Hcsv _].
    by destruct (endswith (node_source_file n) ".csv").
Qed.

(** X13: the indexes [_suggest_indexes] proposes for the nodes of an
    analysis are, in order, on the very labels and properties that the
    analysis already put under a uniqueness constraint: one index per
    constraint, each of type btree. *)
Theorem suggested_indexes_repeat_constraints
    (sample_file : list string → string → sample_result)
    (label : string → string) (state : tool_state) (files : list string) :
  match (analyze_structured_data_tool sample_file label state files).1 with
  | KGConstructor.ToolSuccess _ schema =>
      (λ i, (index_label i, index_property i))
        <$> _suggest_indexes (nodes schema)
      = (λ c, (constraint_label c, constraint_property c))
          <$> constraints schema
      ∧ Forall (λ i, index_type i = "btree") (_suggest_indexes (nodes schema))
      ∧ Forall (λ c, constraint_type c = "uniqueness") (constraints schema)
  | _ => True
  end.
Proof.
  unfold analyze_structured_data_tool.
  pose proof (analyze_loop sample_file label files
                {| sampled := []; found_nodes := [];
                   found_constraints := [] |}) as Hloop.
  destruct (foldl _ _ files) as [e|acc]; cbn; [done|].
  destruct Hloop as (new & Hnodes & _ & _ & Hnew & Hcons).
  cbn in Hnodes, Hcons. rewrite Hnodes, Hcons, suggest_indexes_omap.
  clear Hnodes Hcons. induction Hnew as [|n new Hn Hnew IH]; [done|].
  destruct IH as (IH1 & IH2 & IH3).
  change (omap constraint_of (n :: new))
    with (match constraint_of n with
          | Some y => y :: omap constraint_of new
          | None => omap constraint_of new
          end).
  rewrite <- (truth_of_inferred_key label n Hn).
  match goal with
  | |- context [omap ?g (n :: new)] =>
      change (omap g (n :: new))
        with (match g n with
              | Some y => y :: omap g new
              | None => omap g new
              end)
  end.
  cbv beta. destruct (has_primary_key n); [|done].
  cbn [fmap list_fmap]. split; [by f_equal|].
  split; by constructor.
Qed.

End SchemaToolsFacts.


(** ** Validation of an agent's input *)

Module AgentBaseFacts.
Import Text TextFacts AgentBase.

Lemma validate_input_loop {payload} required_fields
    (input_data : gmap string (option payload)) :
  ∀ errors,
    foldl (λ errors field,
             match input_data !! field with
             | None => errors ++ ["Required field missing: " +:+ field]
             | Some None => errors ++ ["Required field is None: " +:+ field]
             | Some (Some _) => errors
             end)
          errors required_fields
    = errors ++ omap (complaint input_data) required_fields.
Proof.
  induction required_fields as [|field fields IH]; intros errors;
    cbn [foldl].
  - cbn. by rewrite app_nil_r.
  - rewrite IH.
    change (omap (complaint input_data) (field :: fields))
      with (match complaint input_data field with
            | Some y => y :: omap (complaint input_data) fields
            | None => omap (complaint input_data) fields
            end).
    unfold complaint at 2.
    destruct (input_data !! field) as [[v|]|]; by rewrite <- ?app_assoc.
Qed.

Lemma validate_input_omap {payload} required_fields
    (input_data : gmap string (option payload)) :
  validate_input required_fields input_data
  = omap (complaint input_data) required_fields.
Proof. unfold validate_input. by rewrite validate_input_loop. Qed.

(** X14: [validate_input] returns no error exactly when every required
    field is a key of the input with a value other than [None].  It
    returns at most one error per required field, each naming a required
    field that is missing or [None], and it looks at the required fields
    only: inputs that agree on them get the same errors.  With the
    required fields of [BaseAgent] itself there is never an error. *)
Theorem validate_input_accepts_iff_fields_present {payload}
    (required_fields : list string)
    (input_data : gmap string (option payload)) :
  (validate_input required_fields input_data = []
   ↔ ∀ field, field ∈ required_fields →
              ∃ v, input_data !! field = Some (Some v))
  ∧ length (validate_input required_fields input_data)
    ≤ length required_fields
  ∧ (∀ error, error ∈ validate_input required_fields input_data →
       ∃ field, field ∈ required_fields
                ∧ ((input_data !! field = None
                    ∧ error = "Required field missing: " +:+ field)
                   ∨ (input_data !! field = Some None
                      ∧ error = "Required field is None: " +:+ field)))
  ∧ (∀ other : gmap string (option payload),
       (∀ field, field ∈ required_fields →
                 other !! field = input_data !! field) →
       validate_input required_fields other
       = validate_input required_fields input_data)
  ∧ validate_input get_required_input_fields input_data = [].
Proof.
  rewrite validate_input_omap. repeat split.
  - intros Hnil field Hfield.
    destruct (input_data !! field) as [[v|]|] eqn:Hv; [by eexists| |].
    + assert ("Required field is None: " +:+ field ∈ @nil string) as Hin.
      { rewrite <- Hnil. apply list_elem_of_omap. exists field.
        split; [done|]. unfold complaint. by rewrite Hv. }
      by apply elem_of_nil in Hin.
    + assert ("Required field missing: " +:+ field ∈ @nil string) as Hin.
      { rewrite <- Hnil. apply list_elem_of_omap. exists field.
        split; [done|]. unfold complaint. by rewrite Hv. }
      by apply elem_of_nil in Hin.
  - intros Hall. induction required_fields as [|field fields IH]; [done|].
    change (omap (complaint input_data) (field :: fields))
      with (match complaint input_data field with
            | Some y => y :: omap (complaint input_data) fields
            | None => omap (complaint input_data) fields
            end).
    destruct (Hall field) as [v Hv]; [by left|].
    unfold complaint at 1. rewrite Hv. apply IH.
    intros f Hf. apply Hall. by right.
  - induction required_fields as [|field fields IH]; [done|].
    change (omap (complaint input_data) (field :: fields))
      with (match complaint input_data field with
            | Some y => y :: omap (complaint input_data) fields
            | None => omap (complaint input_data) fields
            end).
    destruct (complaint input_data field); cbn [length]; lia.
  - intros error (field & Hfield & Herror)%list_elem_of_omap.
    exists field. split; [done|]. unfold complaint in Herror.
    destruct (input_data !! field) as [[v|]|]; [done| |];
      injection Herror as <-; auto.
  - intros other Hsame. rewrite validate_input_omap.
    induction required_fields as [|field fields IH]; [done|].
    change (omap ?g (field :: fields))
      with (match g field with
            | Some y => y :: omap g fields
            | None => omap g fields
            end).
    rewrite IH by (intros f Hf; apply Hsame; by right).
    unfold complaint at 1 3. by rewrite Hsame by left.
Qed.

End AgentBaseFacts.


(** ** Reading and writing the configuration *)

Module ConfigManagerFacts.
Import Text ConfigManager.

Lemma split_cons sep s : ∃ first parts, split sep s = first :: parts.
Proof.
  induction s as [|c s (first & parts & IH)]; cbn; [by eexists _, _|].
  destruct (Ascii.eqb c sep); [by eexists _, _|].
  rewrite IH. by eexists _, _.
Qed.

(** Joining the parts with the separator gives the string back. *)
Lemma join_split sep s :
  String.concat (String sep EmptyString) (split sep s) = s.
Proof.
  induction s as [|c s IH]; [done|]. cbn [split].
  destruct (split_cons sep s) as (first & parts & Hs).
  rewrite Hs in IH |- *.
  destruct (Ascii.eqb_spec c sep) as [->|Hc].
  - change (String.concat ?x (EmptyString :: first :: parts))
      with (String sep (String.concat x (first :: parts))).
    by rewrite IH.
  - destruct parts as [|part parts].
    + cbn in IH |- *. by rewrite IH.
    + change (String.concat ?x (String c first :: part :: parts))
        with (String c (first +:+ x +:+ String.concat x (part :: parts))).
      f_equal. exact IH.
Qed.

Section Facts.
Context {leaf : Type}.
Implicit Types (d : list (string * cfg leaf)) (value : cfg leaf).

Lemma item_assign key value d : item key (assign key value d) = Some value.
Proof.
  induction d as [|[k v] d IH]; cbn.
  - by rewrite String.eqb_refl.
  - destruct (String.eqb key k) eqn:Hk; cbn; by rewrite Hk.
Qed.

Lemma item_assign_ne key key' value d :
  key' ≠ key → item key' (assign key value d) = item key' d.
Proof.
  intros Hne. induction d as [|[k v] d IH]; cbn.
  - by destruct (String.eqb_spec key' key).
  - destruct (String.eqb_spec key k) as [->|Hk]; cbn.
    + by destruct (String.eqb_spec key' k).
    + by rewrite IH.
Qed.

Lemma assign_same key value d :
  item key d = Some value → assign key value d = d.
Proof.
  induction d as [|[k v] d IH]; cbn; [done|].
  destruct (String.eqb key k); [by intros [= ->]|].
  intros Hd. by rewrite IH.
Qed.

End Facts.

Section ObjectFacts.
Context {leaf : Type}.
Implicit Types (h : heap leaf) (d : list (string * val leaf)).
Implicit Types (value : val leaf).

Lemma entry_put key value d : entry key (put key value d) = Some value.
Proof.
  induction d as [|[k v] d IH]; cbn.
  - by rewrite String.eqb_refl.
  - destruct (String.eqb key k) eqn:Hk; cbn; by rewrite Hk.
Qed.

Lemma entry_put_ne key key' value d :
  key' ≠ key → entry key' (put key value d) = entry key' d.
Proof.
  intros Hne. induction d as [|[k v] d IH]; cbn.
  - by destruct (String.eqb_spec key' key).
  - destruct (String.eqb_spec key k) as [->|Hk]; cbn.
    + by destruct (String.eqb_spec key' k).
    + by rewrite IH.
Qed.

Lemma entries_insert h id d : entries (<[id := d]> h) id = d.
Proof. unfold entries. by rewrite lookup_insert_eq. Qed.

Lemma entries_insert_ne h id id' d :
  id' ≠ id → entries (<[id := d]> h) id' = entries h id'.
Proof. intros Hne. unfold entries. by rewrite lookup_insert_ne. Qed.

Lemma entries_absent h id : id ∉ dom h → entries h id = [].
Proof. intros Hid%not_elem_of_dom. unfold entries. by rewrite Hid. Qed.

Lemma new_dict_fresh h : new_dict h ∉ dom h.
Proof. apply is_fresh. Qed.

(** An entry of the dictionary written to is the value written, or as
    before; the other dictionaries are as before. *)
Lemma entry_store h config key value id key' :
  entry key' (entries (store h config key value) id)
  = if decide (id = config ∧ key' = key) then Some value
    else entry key' (entries h id).
Proof.
  unfold store. destruct (decide (id = config ∧ key' = key)) as [[-> ->]|Hne].
  - by rewrite entries_insert, entry_put.
  - destruct (decide (id = config)) as [->|Hid].
    + rewrite entries_insert, entry_put_ne; [done|]. intros ->. by apply Hne.
    + by rewrite entries_insert_ne.
Qed.

Lemma final_cons key key' keys :
  final (key :: key' :: keys) = final (key' :: keys).
Proof. done. Qed.

Lemma leading_cons key key' keys :
  leading (key :: key' :: keys) = key :: leading (key' :: keys).
Proof.
  unfold leading. cbn [length].
  replace (S (S (length keys)) - 1) with (S (length keys)) by lia.
  by replace (S (length keys) - 1) with (length keys) by lia.
Qed.

(** The dictionaries after the step of [set] that makes a missing
    dictionary. *)
Lemma closed_after_new h config key :
  closed h → config ∈ dom h →
  let id := new_dict h in
  let h1 := store (<[id := []]> h) config key (Obj id) in
  closed h1 ∧ dom h ⊆ dom h1 ∧ id ∈ dom h1 ∧ entries h1 id = []
  ∧ entry key (entries h1 config) = Some (Obj id)
  ∧ ∀ id0 key0 v0,
      entry key0 (entries h id0) = Some v0 →
      entry key (entries h config) = None →
      entry key0 (entries h1 id0) = Some v0.
Proof.
  intros Hclosed Hconfig id h1.
  pose proof (new_dict_fresh h) as Hfresh. fold id in Hfresh.
  assert (id ≠ config) as Hne by (intros Heq; apply Hfresh; by rewrite Heq).
  assert (dom h ⊆ dom h1) as Hdom.
  { subst h1. unfold store. rewrite !dom_insert. set_solver. }
  assert (id ∈ dom h1) as Hid.
  { subst h1. unfold store. rewrite !dom_insert. set_solver. }
  split; [|split; [done|split; [done|split; [|split]]]].
  - intros id0 key0 id' Hentry. subst h1. rewrite entry_store in Hentry.
    destruct (decide (id0 = config ∧ key0 = key)) as [_|_].
    + injection Hentry as <-. exact Hid.
    + destruct (decide (id0 = id)) as [->|Hid0].
      * by rewrite entries_insert in Hentry.
      * rewrite entries_insert_ne in Hentry by done.
        apply Hdom. by eapply Hclosed.
  - subst h1. unfold store. rewrite entries_insert_ne by done.
    apply entries_insert.
  - subst h1. rewrite entry_store. by rewrite decide_True.
  - intros id0 key0 v0 Hentry Hnone. subst h1. rewrite entry_store.
    destruct (decide (id0 = config ∧ key0 = key)) as [[-> ->]|_];
      [congruence|].
    destruct (decide (id0 = id)) as [->|Hid0].
    + by rewrite (entries_absent h id) in Hentry.
    + by rewrite entries_insert_ne.
Qed.

Lemma set_keys_step h config key key2 keys key_path value :
  set_keys h config (key :: key2 :: keys) key_path value
  = let h1 :=
      match entry key (entries h config) with
      | None =>
          let id := new_dict h in store (<[id := []]> h) config key (Obj id)
      | Some _ => h
      end in
    match entry key (entries h1 config) with
    | Some (Obj id) => set_keys h1 id (key2 :: keys) key_path value
    | _ =>
        (h1,
         Some ("Cannot set nested key " +:+ key_path +:+ ": " +:+ key
               +:+ " is not a dictionary"))
    end.
Proof. reflexivity. Qed.

Lemma set_keys_spec key_path value keys :
  ∀ h config,
    keys ≠ [] → closed h → config ∈ dom h → known h value →
    let result := set_keys h config keys key_path value in
    (result.2 ≠ None → result.1 = h)
    ∧ (result.2 ≠ None
       ↔ ∃ n a, 0 < n < length keys
                ∧ lookup_path h (Obj config) (take n keys) = Some (Atom a))
    ∧ (∀ id key v0,
         entry key (entries h id) = Some v0 →
         entry key (entries result.1 id) = Some v0
         ∨ (key = final keys
            ∧ entry key (entries result.1 id) = Some value))
    ∧ (result.2 = None →
       Forall (λ k, k ≠ final keys) (leading keys) →
       lookup_path result.1 (Obj config) keys = Some value).
Proof.
  induction keys as [|key [|key2 keys] IH];
    intros h config Hkeys Hclosed Hconfig Hknown; [done| |].
  - cbn [set_keys fst snd]. split; [done|]. split; [|split].
    + split; [done|]. intros (n & a & Hn & _). cbn in Hn. lia.
    + intros id key0 v0 Hentry. rewrite entry_store.
      destruct (decide (id = config ∧ key0 = key)) as [[-> ->]|_];
        [right; by split | by left].
    + intros _ _. cbn [lookup_path]. rewrite entry_store.
      by rewrite decide_True.
  - rewrite set_keys_step. cbv zeta.
    destruct (entry key (entries h config)) as [[a|id]|] eqn:Hentry.
    + rewrite Hentry. cbn [fst snd]. split; [done|]. split; [|split].
      * split; [|done]. intros _. exists 1, a. split; [cbn; lia|].
        cbn. by rewrite Hentry.
      * intros id key0 v0 H0. by left.
      * done.
    + rewrite Hentry.
      assert (id ∈ dom h) as Hid by by eapply Hclosed.
      destruct (IH h id ltac:(done) Hclosed Hid Hknown)
        as (Hsame & Hraise & Hframe & Hget).
      rewrite final_cons, leading_cons.
      destruct (set_keys h id (key2 :: keys) key_path value)
        as [h' raised]. cbn [fst snd] in *.
      split; [done|]. split; [|split].
      * rewrite Hraise. split.
        -- intros (n & a & Hn & Ha). exists (S n), a.
           split; [cbn [length] in *; lia|]. cbn [take lookup_path].
           by rewrite Hentry.
        -- intros (n & a & Hn & Ha). destruct n as [|n]; [lia|].
           cbn [take lookup_path] in Ha. rewrite Hentry in Ha.
           destruct n as [|n]; [done|].
           exists (S n), a. split; [cbn [length] in *; lia | done].
      * done.
      * intros Hok [Hkey Hleading]%Forall_cons. cbn [lookup_path].
        destruct (Hframe config key (Obj id) Hentry) as [->|[Heq _]];
          [by apply Hget | done].
    + destruct (closed_after_new h config key Hclosed Hconfig)
        as (Hclosed1 & Hdom & Hid & Hempty & Hentry1 & Hkeep).
      set (id := new_dict h) in *.
      set (h1 := store (<[id := []]> h) config key (Obj id)) in *.
      rewrite Hentry1.
      assert (known h1 value) as Hknown1
          by (destruct value; [done | by apply Hdom]).
      destruct (IH h1 id ltac:(done) Hclosed1 Hid Hknown1)
        as (Hsame & Hraise & Hframe & Hget).
      rewrite final_cons, leading_cons.
      destruct (set_keys h1 id (key2 :: keys) key_path value)
        as [h' raised]. cbn [fst snd] in *.
      assert (raised = None) as ->.
      { destruct raised as [e|]; [|done]. exfalso.
        destruct (proj1 Hraise ltac:(done)) as (n & a & Hn & Ha).
        destruct n as [|n]; [lia|]. cbn [take lookup_path] in Ha.
        by rewrite Hempty in Ha. }
      split; [done|]. split; [|split].
      * split; [done|]. intros (n & a & Hn & Ha).
        destruct n as [|n]; [lia|]. cbn [take lookup_path] in Ha.
        by rewrite Hentry in Ha.
      * intros id0 key0 v0 H0. apply Hframe. by apply Hkeep.
      * intros _ [Hkey Hleading]%Forall_cons. cbn [lookup_path].
        destruct (Hframe config key (Obj id) Hentry1) as [->|[Heq _]];
          [by apply Hget | done].
Qed.

End ObjectFacts.

(** A heap is closed when every entry of every dictionary is known. *)
Lemma closed_by_entries {leaf} (h : heap leaf) :
  map_Forall (λ _ d, Forall (λ kv, known h kv.2) d) h → closed h.
Proof.
  intros Hall id key id' Hentry. unfold entries in Hentry.
  destruct (h !! id) as [d|] eqn:Hd; [|done]. apply Hall in Hd.
  cbn in Hentry, Hd. induction Hd as [|[k v] d Hv Hd IH]; [done|].
  cbn in Hentry. destruct (String.eqb key k); [|by apply IH].
  injection Hentry as ->. exact Hv.
Qed.

(** X15: what [set] writes, [get] reads, where every dictionary referred
    to exists: when [set] does not raise and the last key of the path does
    not occur earlier in it, [get] with the same path returns the value,
    whatever the default.  When [set] raises it has changed nothing, and it
    raises exactly when a proper, non-empty prefix of the path leads to a
    value that is not a dictionary.  An entry of any dictionary that was
    there before is still there with its value, unless it is the entry
    under the last key that was written. *)
Theorem set_then_get {leaf} (h : heap leaf) (_config : nat)
    (key_path : string) (value default : val leaf) :
  closed h → _config ∈ dom h → known h value →
  let result := set h _config key_path value in
  let keys := split "." key_path in
  (result.2 = None →
   Forall (λ k, k ≠ final keys) (leading keys) →
   get result.1 _config key_path default = value)
  ∧ (result.2 ≠ None → result.1 = h)
  ∧ (result.2 ≠ None
     ↔ ∃ n a, 0 < n < length keys
              ∧ lookup_path h (Obj _config) (take n keys) = Some (Atom a))
  ∧ (∀ id key v0,
       entry key (entries h id) = Some v0 →
       entry key (entries result.1 id) = Some v0
       ∨ (key = final keys ∧ entry key (entries result.1 id) = Some value)).
Proof.
  intros Hclosed Hconfig Hknown result keys. subst result keys.
  unfold set, get.
  assert (split "." key_path ≠ []) as Hkeys
      by (destruct (split_cons "." key_path) as (? & ? & ->); done).
  destruct (set_keys_spec key_path value (split "." key_path) h _config
              Hkeys Hclosed Hconfig Hknown)
    as (Hsame & Hraise & Hframe & Hget).
  split; [|done]. intros Hok Hfinal. by rewrite (Hget Hok Hfinal).
Qed.

(** The default address of the store is overwritten and read back. *)
Lemma set_then_get_witness :
  let h : heap string :=
    {[ 0 := [("neo4j", Obj 1)];
       1 := [("uri", Atom "bolt://localhost:7687")] ]} in
  (set h 0 "neo4j.uri" (Atom "bolt://db:7687")).2 = None
  ∧ get (set h 0 "neo4j.uri" (Atom "bolt://db:7687")).1 0 "neo4j.uri"
        (Atom "")
    = Atom "bolt://db:7687".
Proof.
  intros h. split; [reflexivity|].
  assert (closed h) as Hclosed.
  { apply closed_by_entries, map_Forall_insert_2.
    - by repeat constructor.
    - apply map_Forall_singleton. by repeat constructor. }
  assert (0 ∈ dom h) as Hroot
      by (apply elem_of_dom; by exists [("neo4j", Obj 1)]).
  apply (proj1 (set_then_get h 0 "neo4j.uri" (Atom "bolt://db:7687")
                  (Atom "") Hclosed Hroot I)); [reflexivity|].
  change (Forall (λ k : string, k ≠ "uri") ["neo4j"]).
  constructor; [discriminate | constructor].
Defined.

(** Two keys can hold one dictionary: after [set('b', get('a'))], what
    is set below [a] is read below [b]. *)
Example set_through_shared_dictionary :
  let h : heap string := {[ 0 := [("a", Obj 1)]; 1 := [] ]} in
  let h1 := (set h 0 "b" (get h 0 "a" (Atom ""))).1 in
  let h2 := (set h1 0 "a.k" (Atom "v")).1 in
  get h1 0 "b.k" (Atom "") = Atom ""
  ∧ get h2 0 "b.k" (Atom "") = Atom "v".
Proof. split; reflexivity. Qed.


Section MergeFacts.
Context {leaf : Type}.
Implicit Types (d base update : list (string * cfg leaf)) (value : cfg leaf).

(** The recursive call of [_deep_merge] on two dictionaries. *)
Lemma merged_value_dicts update base :
  merged_value (Dict update) (Some (Dict base))
  = Dict (_deep_merge base update).
Proof.
  cbn [merged_value]. f_equal. unfold _deep_merge.
  revert base. induction update as [|[key value] update IH]; intros base;
    [done|].
  cbn [foldl]. by rewrite <- IH.
Qed.

Lemma item_None key d : item key d = None ↔ key ∉ d.*1.
Proof.
  induction d as [|[k v] d IH]; cbn.
  - split; [intros _; apply not_elem_of_nil | done].
  - rewrite not_elem_of_cons, <- IH.
    destruct (String.eqb_spec key k); split; try done; tauto.
Qed.

Lemma deep_merge_item_other key base update :
  key ∉ update.*1 → item key (_deep_merge base update) = item key base.
Proof.
  unfold _deep_merge. revert base.
  induction update as [|[k v] update IH]; intros base Hkey; [done|].
  cbn [foldl]. cbn in Hkey. apply not_elem_of_cons in Hkey as [Hk Hkey].
  rewrite IH by done. by apply item_assign_ne.
Qed.

Lemma deep_merge_item key value base update :
  NoDup update.*1 →
  item key update = Some value →
  item key (_deep_merge base update)
  = Some (merged_value value (item key base)).
Proof.
  unfold _deep_merge. revert base.
  induction update as [|[k v] update IH]; intros base Hnodup; [done|].
  cbn in Hnodup. apply NoDup_cons in Hnodup as [Hk Hnodup].
  cbn [foldl item].
  destruct (String.eqb_spec key k) as [->|Hne].
  - intros [= ->].
    fold (_deep_merge
            (assign k (merged_value value (item k base)) base) update).
    rewrite deep_merge_item_other by done. apply item_assign.
  - intros Hitem. rewrite IH by done. by rewrite item_assign_ne.
Qed.

Lemma deep_merge_follow keys :
  ∀ base update v,
    unique_along (Dict update) keys →
    follow (Dict update) keys = Some (Leaf v) →
    follow (Dict (_deep_merge base update)) keys = Some (Leaf v).
Proof.
  induction keys as [|key keys IH]; intros base update v Hunique Hfollow;
    [done|].
  cbn [follow unique_along] in *. destruct Hunique as [Hnodup Hunique].
  destruct (item key update) as [value|] eqn:Hitem; [|done].
  rewrite (deep_merge_item key value) by done.
  destruct value as [v'|inner].
  - done.
  - destruct (item key base) as [[old|base']|]; [done | | done].
    rewrite merged_value_dicts.
    destruct keys as [|key' keys']; [done|]. by apply IH.
Qed.

End MergeFacts.

(** X16: in [_deep_merge] the update wins: a path that leads to a value
    other than a dictionary in the update leads to the same value in the
    merged base.  A key of the base that the update does not list keeps
    its value, and no key of the base is lost. *)
Theorem deep_merge_update_wins {leaf}
    (base_dict update_dict : list (string * cfg leaf))
    (keys : list string) (v : leaf) :
  unique_along (Dict update_dict) keys →
  follow (Dict update_dict) keys = Some (Leaf v) →
  follow (Dict (_deep_merge base_dict update_dict)) keys = Some (Leaf v)
  ∧ (∀ key, key ∉ update_dict.*1 →
            item key (_deep_merge base_dict update_dict)
            = item key base_dict)
  ∧ (∀ key, is_Some (item key base_dict) →
            is_Some (item key (_deep_merge base_dict update_dict))).
Proof.
  intros Hunique Hfollow. split; [by apply deep_merge_follow|].
  split; [intros key; apply deep_merge_item_other|].
  clear. revert base_dict. unfold _deep_merge.
  induction update_dict as [|[k value] update IH]; intros base key Hkey;
    [done|].
  cbn [foldl]. apply IH.
  destruct (decide (key = k)) as [->|Hne].
  - by rewrite item_assign.
  - by rewrite item_assign_ne.
Qed.

(** A file that overrides the address of the store keeps the user name of
    the defaults. *)
Lemma deep_merge_update_wins_witness :
  follow (Dict (_deep_merge
                  [("neo4j", Dict [("uri", Leaf "bolt://localhost:7687");
                                   ("username", Leaf "neo4j")])]
                  [("neo4j", Dict [("uri", Leaf "bolt://db:7687")])]))
         ["neo4j"; "uri"]
  = Some (Leaf "bolt://db:7687")
  ∧ follow (Dict (_deep_merge
                    [("neo4j", Dict [("uri", Leaf "bolt://localhost:7687");
                                     ("username", Leaf "neo4j")])]
                    [("neo4j", Dict [("uri", Leaf "bolt://db:7687")])]))
           ["neo4j"; "username"]
    = Some (Leaf "neo4j").
Proof.
  refine (conj (proj1 (deep_merge_update_wins
                         [("neo4j", Dict [("uri", Leaf "bolt://localhost:7687");
                                          ("username", Leaf "neo4j")])]
                         [("neo4j", Dict [("uri", Leaf "bolt://db:7687")])]
                         ["neo4j"; "uri"] "bolt://db:7687" _ _)) _).
  - cbn. split; [apply NoDup_singleton|]. split; [apply NoDup_singleton|done].
  - reflexivity.
  - reflexivity.
Defined.

End ConfigManagerFacts.


(** ** The whole run of the construction script *)

Module GraphScriptFacts.
Import Text TextFacts Store GraphConstructor ClearFacts GraphConstructorFacts.
Import BatchingFacts ScriptRelationships ScriptRelationshipsFacts GraphScript.

Lemma create_nodes_sent `{GraphDB} df label unique_property properties w :
  (sent (create_nodes df label unique_property properties w).2).*1
  = (sent w).*1
      ++ constraint_query label unique_property
         :: (join newline
               <$> batch_statements label unique_property properties df).
Proof.
  rewrite create_nodes_run. cbn zeta. cbn [snd sent].
  match goal with
  | |- context [for_each _ 0 _ ?w1] =>
      destruct (batch_loop_log df label unique_property properties
                               (range 0 (length df) batch_size) 0 w1)
        as (responses & Hlen & Hsent & _)
  end.
  rewrite batch_statements_offsets in Hlen, Hsent.
  rewrite Hsent. cbn [sent]. rewrite !fmap_app, fst_zip.
  - cbn. by rewrite <- app_assoc.
  - by rewrite length_fmap, Hlen.
Qed.

Lemma create_all_nodes_sent `{GraphDB} csv_data plan :
  ∀ total w,
    (sent (for_each
             (λ total_nodes_created '(node_type, config),
                let df_key := lower node_type in
                match csv_data !! df_key with
                | Some df =>
                    nodes_created ←
                      create_nodes df (label config) (unique_property config)
                                   (properties config);
                    mret (total_nodes_created + nodes_created)
                | None => mret total_nodes_created
                end)
             total plan w).2).*1
    = (sent w).*1 ++ node_statements plan csv_data.
Proof.
  induction plan as [|[node_type config] plan IH]; intros total w.
  - cbn. by rewrite app_nil_r.
  - cbn [for_each]. rewrite bind_run. unfold node_statements.
    cbn [mbind list_bind]. fold (node_statements plan csv_data).
    destruct (csv_data !! lower node_type) as [df|] eqn:Hdf; cbn zeta.
    + rewrite bind_run.
      pose proof (create_nodes_sent df (label config) (unique_property config)
                    (properties config) w) as Hsent.
      destruct (create_nodes df (label config) (unique_property config)
                             (properties config) w) as [n w1].
      cbn [snd] in Hsent. unfold mret at 1, M_ret at 1.
      rewrite IH, Hsent. by rewrite <- app_assoc.
    + unfold mret at 1, M_ret at 1. by rewrite IH.
Qed.

Lemma create_relationships_sent `{GraphDB} w :
  (sent (create_relationships w).2).*1
  = (sent w).*1 ++ [contains_query; part_of_query; supplier_query].
Proof.
  unfold create_relationships. rewrite bind_run.
  destruct (create_one_run "CONTAINS" contains_query []
              [CreatingRelationships] w) as (o1 & ->).
  rewrite bind_run.
  match goal with
  | |- context [create_one "IS_PART_OF" part_of_query (?rc, ?ls) ?w1] =>
      destruct (create_one_run "IS_PART_OF" part_of_query rc ls w1)
        as (o2 & ->)
  end.
  match goal with
  | |- context [create_one "SUPPLIED_BY" supplier_query (?rc, ?ls) ?w2] =>
      destruct (create_one_run "SUPPLIED_BY" supplier_query rc ls w2)
        as (o3 & ->)
  end.
  cbn [snd sent]. rewrite !fmap_app, <- !app_assoc. done.
Qed.

Lemma verify_graph_run `{GraphDB} w :
  let r1 := reply (sent w).*1 node_count_query in
  let w1 := sent w ++ [(node_count_query, r1)] in
  let r2 := reply w1.*1 relationship_count_query in
  let w2 := w1 ++ [(relationship_count_query, r2)] in
  let r3 := reply w2.*1 path_query in
  ∃ v,
    verify_graph w
    = (v, {| sent := sent w ++ [(node_count_query, r1);
                                (relationship_count_query, r2);
                                (path_query, r3)];
             printed := printed w |})
    ∧ total_nodes v = counted_total "node_type" r1
    ∧ total_relationships v = counted_total "relationship_type" r2
    ∧ connected_paths v = paths_of r3.
Proof.
  intros r1 w1 r2 w2 r3. unfold verify_graph. run_M.
  fold r1. fold w1. unfold counted_total, paths_of.
  destruct (match r1 with
            | Success rows => tally "node_type" rows [] 0%Z
            | _ => ([], None)
            end) as [ns tn] eqn:H1.
  cbn. fold r2. fold w2.
  destruct (match r2 with
            | Success rows => tally "relationship_type" rows [] 0%Z
            | _ => ([], None)
            end) as [rs tr] eqn:H2.
  cbn. fold r3. eexists. split.
  - f_equal. f_equal. subst w2 w1. by rewrite <- !app_assoc.
  - cbn. repeat split.
    + revert H1. generalize r1.
      intros [rows|?|?] H1; [by rewrite H1 | by inversion H1..].
    + revert H2. generalize r2.
      intros [rows|?|?] H2; [by rewrite H2 | by inversion H2..].
Qed.

Lemma load_csv_data_loop read_csv plan :
  ∀ csv_data : gmap string (list row),
    foldl (λ (csv_data : gmap string (list row)) '(node_type, config),
             match read_csv (file config) with
             | Loaded df => <[lower node_type := df]> csv_data
             | _ => csv_data
             end)
          csv_data plan = ∅
    ↔ csv_data = ∅
      ∧ ∀ node_type config df,
          (node_type, config) ∈ plan → read_csv (file config) ≠ Loaded df.
Proof.
  induction plan as [|[node_type config] plan IH]; intros csv_data.
  - cbn. split; [|by intros [-> _]]. intros ->. split; [done|].
    intros ? ? ? Hin. by apply elem_of_nil in Hin.
  - cbn [foldl]. rewrite IH. split.
    + intros [Hempty Hnone].
      destruct (read_csv (file config)) as [|e|df] eqn:Hread.
      * split; [done|]. intros nt c df [[= -> ->]|Hin]%elem_of_cons;
          [by rewrite Hread | by apply (Hnone nt)].
      * split; [done|]. intros nt c df [[= -> ->]|Hin]%elem_of_cons;
          [by rewrite Hread | by apply (Hnone nt)].
      * by apply insert_non_empty in Hempty.
    + intros [-> Hnone].
      destruct (read_csv (file config)) as [|e|df] eqn:Hread.
      * split; [done|]. intros nt c df Hin. apply (Hnone nt). by right.
      * split; [done|]. intros nt c df Hin. apply (Hnone nt). by right.
      * exfalso. by apply (Hnone node_type config df); [left|].
Qed.

(** No data frame is loaded exactly when no file of the plan is read. *)
Lemma load_csv_data_empty plan read_csv :
  load_csv_data plan read_csv = ∅
  ↔ ∀ node_type config df,
      (node_type, config) ∈ plan → read_csv (file config) ≠ Loaded df.
Proof.
  unfold load_csv_data. rewrite load_csv_data_loop. split; [by intros []|done].
Qed.

(** The method, step by step. *)
Lemma construct_complete_graph_run `{GraphDB} plan read_csv clear_existing w :
  let cleared := clear_existing_graph clear_existing w in
  let csv_data := load_csv_data plan read_csv in
  let imported := create_all_nodes plan csv_data cleared.2 in
  let related := create_relationships imported.2 in
  let verified := verify_graph related.2 in
  GraphScript.construct_complete_graph plan read_csv clear_existing w
  = match cleared.1 with
    | Some success => (Returns success, cleared.2)
    | None =>
        if decide (csv_data = ∅) then (Returns false, cleared.2)
        else
          match sum_values related.1.1.*2 with
          | None => (Raises "TypeError", related.2)
          | Some _ => (Returns (graph_complete verified.1), verified.2)
          end
    end.
Proof.
  intros cleared csv_data imported related verified.
  unfold GraphScript.construct_complete_graph. rewrite bind_run.
  fold cleared. destruct cleared as [[success|] w0] eqn:Hcleared; [done|].
  cbn zeta. fold csv_data. cbn [fst snd] in *.
  destruct (decide (csv_data = ∅)); [done|].
  rewrite bind_run. fold imported. destruct imported as [count w1].
  rewrite bind_run. cbn [snd] in related. fold related.
  destruct related as [created w2]. cbn [fst snd] in *.
  destruct (sum_values created.1.*2); [|done].
  rewrite bind_run. fold verified. by destruct verified.
Qed.

(** The clearing block returns from the method only with false. *)
Lemma clear_existing_graph_returns_false `{GraphDB} clear_existing w success :
  (clear_existing_graph clear_existing w).1 = Some success → success = false.
Proof.
  unfold clear_existing_graph. destruct (default true clear_existing);
    [|done]. run_M.
  destruct (reply (sent w).*1 clear_query); cbn; congruence.
Qed.

(** X17: when none of the files of the plan can be read,
    [construct_complete_graph] returns false and does nothing beyond the
    clearing block: unless it was called with the flag false, the delete
    statement has been sent by then, and nothing else is. *)
Theorem construct_without_data `{GraphDB} plan read_csv clear_existing w :
  (∀ node_type config df,
     (node_type, config) ∈ plan → read_csv (file config) ≠ Loaded df) →
  let run :=
    GraphScript.construct_complete_graph plan read_csv clear_existing w in
  run.1 = Returns false
  ∧ run.2 = (clear_existing_graph clear_existing w).2
  ∧ (clear_existing = Some false → run.2 = w)
  ∧ (clear_existing ≠ Some false →
     (sent run.2).*1 = (sent w).*1 ++ [clear_query]).
Proof.
  intros Hnone%load_csv_data_empty run. subst run.
  rewrite construct_complete_graph_run. cbn zeta. rewrite Hnone.
  rewrite decide_True by done.
  pose proof (clear_existing_graph_returns_false clear_existing w) as Hfalse.
  destruct (clear_existing_graph clear_existing w) as [[success|] w0]
    eqn:Hcleared; cbn [fst snd] in *.
  - rewrite (Hfalse success eq_refl). repeat split.
    + intros ->. by inversion Hcleared.
    + intros Hflag.
      destruct (clear_existing_graph_sends clear_existing w Hflag)
        as (returned & lines & Hsends).
      rewrite Hsends in Hcleared. injection Hcleared as _ <-.
      cbn [sent]. by rewrite fmap_app.
  - repeat split.
    + intros ->. by inversion Hcleared.
    + intros Hflag.
      destruct (clear_existing_graph_sends clear_existing w Hflag)
        as (returned & lines & Hsends).
      rewrite Hsends in Hcleared. injection Hcleared as _ <-.
      cbn [sent]. by rewrite fmap_app.
Qed.

(** With an empty data directory and the flag left out, the store is
    cleared and nothing is imported. *)
Lemma construct_without_data_witness :
  (@GraphScript.construct_complete_graph accepting construction_plan
     (λ _, NotFound) None fresh).1 = Returns false
  ∧ (sent (@GraphScript.construct_complete_graph accepting construction_plan
             (λ _, NotFound) None fresh).2).*1
    = [clear_query].
Proof.
  pose proof (@construct_without_data accepting construction_plan
                (λ _, NotFound) None fresh
                (λ _ _ _ _ Hread, eq_ind NotFound
                   (λ f, match f with NotFound => True | _ => False end)
                   I _ Hread)) as Hrun.
  exact (conj (proj1 Hrun)
              (proj2 (proj2 (proj2 Hrun))
                     (λ Hflag, eq_ind None
                        (λ o, match o with None => True | Some _ => False end)
                        I _ Hflag))).
Defined.

(** X18: once a file of the plan is read and the clearing has not
    raised, [construct_complete_graph] sends, after the clearing, the
    constraint and batch statements of the node types that have data, in
    the order of the plan, then the three relationship statements, then
    the three verification queries.  What it returns is decided by the
    answers to those three queries alone: true exactly when both totals
    read from them are positive and a path could be formatted.  It raises
    only between the relationship statements and the verification, and
    then no verification query is sent. *)
Theorem construct_statement_order `{GraphDB} plan read_csv clear_existing w
    node_type config df :
  (node_type, config) ∈ plan →
  read_csv (file config) = Loaded df →
  (clear_existing_graph clear_existing w).1 = None →
  let cleared := (clear_existing_graph clear_existing w).2 in
  let csv_data := load_csv_data plan read_csv in
  let run :=
    GraphScript.construct_complete_graph plan read_csv clear_existing w in
  ∃ before,
    before.*1
    = (sent cleared).*1 ++ node_statements plan csv_data
        ++ [contains_query; part_of_query; supplier_query]
    ∧ match run.1 with
      | Raises exception => exception = "TypeError" ∧ sent run.2 = before
      | Returns success =>
          ∃ r1 r2 r3,
            sent run.2
            = before ++ [(node_count_query, r1);
                         (relationship_count_query, r2); (path_query, r3)]
            ∧ success
              = (0 <? default 0 (counted_total "node_type" r1))%Z
                && (0 <? default 0 (counted_total "relationship_type" r2))%Z
                && (0 <? length (paths_of r3))%nat
      end.
Proof.
  intros Hin Hread Hcleared cleared csv_data run. subst run.
  rewrite construct_complete_graph_run. cbn zeta. rewrite Hcleared.
  fold cleared csv_data.
  assert (csv_data ≠ ∅) as Hdata.
  { intros Hempty. unfold csv_data in Hempty.
    pose proof (proj1 (load_csv_data_empty plan read_csv) Hempty) as Hnone.
    by apply (Hnone node_type config df). }
  rewrite decide_False by done.
  assert ((sent (create_all_nodes plan csv_data cleared).2).*1
          = (sent cleared).*1 ++ node_statements plan csv_data) as Hnodes
      by apply create_all_nodes_sent.
  pose proof (create_relationships_sent
                (create_all_nodes plan csv_data cleared).2) as Hrels.
  rewrite Hnodes in Hrels.
  set (related := create_relationships
                    (create_all_nodes plan csv_data cleared).2) in *.
  exists (sent related.2). split; [by rewrite <- app_assoc in Hrels|].
  destruct (sum_values related.1.1.*2); cbn [fst snd]; [|done].
  destruct (verify_graph_run related.2) as (v & -> & Htn & Htr & Hpaths).
  cbn [fst snd sent]. eexists _, _, _. split; [done|].
  unfold graph_complete. by rewrite Htn, Htr, Hpaths.
Qed.


(** A data directory that holds the products only, a store that accepts
    every statement and returns no rows, and the flag false. *)
Lemma construct_statement_order_witness :
  let read_csv := λ f, if String.eqb f "products.csv"
                       then Loaded [product "P1" (VInt 10)] else NotFound in
  let run :=
    @GraphScript.construct_complete_graph accepting construction_plan
      read_csv (Some false) fresh in
  run.1 = Returns false
  ∧ length (sent run.2) = 8
  ∧ ∃ before,
      before.*1
      = node_statements construction_plan
                        (load_csv_data construction_plan read_csv)
          ++ [contains_query; part_of_query; supplier_query]
      ∧ match run.1 with
        | Raises exception => exception = "TypeError" ∧ sent run.2 = before
        | Returns success =>
            ∃ r1 r2 r3,
              sent run.2
              = before ++ [(node_count_query, r1);
                           (relationship_count_query, r2); (path_query, r3)]
              ∧ success
                = (0 <? default 0 (counted_total "node_type" r1))%Z
                  && (0 <? default 0
                                   (counted_total "relationship_type" r2))%Z
                  && (0 <? length (paths_of r3))%nat
        end.
Proof.
  intros read_csv run.
  split; [vm_compute; reflexivity|]. split; [vm_compute; reflexivity|].
  exact (@construct_statement_order accepting construction_plan read_csv
           (Some false) fresh "Product"
           {| file := "products.csv"; label := "Product";
              unique_property := "product_id";
              properties := ["product_name"; "price"; "description"] |}
           [product "P1" (VInt 10)]
           (list_elem_of_here _ _) eq_refl eq_refl).
Defined.


(** What the method has sent when it ends, by name: the statements of the
    clearing block come first. *)
Lemma construct_complete_graph_sent `{GraphDB} plan read_csv clear_existing w :
  ∃ rest,
    (sent (GraphScript.construct_complete_graph plan read_csv
             clear_existing w).2).*1
    = (sent (clear_existing_graph clear_existing w).2).*1 ++ rest.
Proof.
  rewrite construct_complete_graph_run. cbn zeta.
  set (cleared := clear_existing_graph clear_existing w).
  set (csv_data := load_csv_data plan read_csv).
  destruct cleared.1; [exists []; by rewrite app_nil_r|].
  destruct (decide (csv_data = ∅)); [exists []; by rewrite app_nil_r|].
  assert ((sent (create_all_nodes plan csv_data cleared.2).2).*1
          = (sent cleared.2).*1 ++ node_statements plan csv_data) as Hnodes
      by apply create_all_nodes_sent.
  pose proof (create_relationships_sent
                (create_all_nodes plan csv_data cleared.2).2) as Hrels.
  rewrite Hnodes, <- app_assoc in Hrels.
  set (related := create_relationships
                    (create_all_nodes plan csv_data cleared.2).2) in *.
  destruct (sum_values related.1.1.*2); cbn [fst snd]; [|by eexists].
  destruct (verify_graph_run related.2) as (v & -> & _).
  cbn [snd sent]. rewrite fmap_app, Hrels, <- app_assoc. by eexists.
Qed.

(** [main], step by step. *)
Lemma main_run `{GraphDB} read_csv w :
  let r := reply (sent w).*1 test_query in
  let w1 := {| sent := sent w ++ [(test_query, r)]; printed := printed w |} in
  let built :=
    GraphScript.construct_complete_graph construction_plan read_csv
      (Some true) w1 in
  main read_csv w
  = match r with
    | Success _ =>
        (match built.1 with Returns true => 0%Z | _ => 1%Z end, built.2)
    | _ => (1%Z, w1)
    end.
Proof.
  intros r w1 built. unfold main. rewrite bind_run.
  unfold send_query. fold r. fold w1.
  destruct r; [|done..]. rewrite bind_run. fold built.
  by destruct built as [[[|]|] w2].
Qed.

(** X19: the exit status of the script is 0 or 1.  When the connection
    test is not answered with a success, the test query is all that is
    sent and the status is 1.  When it is, the delete statement is the
    next statement sent.  The status is 0 only if the three verification
    queries were the last statements sent and their answers give two
    positive totals and a path. *)
Theorem main_exit_status `{GraphDB} read_csv w :
  let run := main read_csv w in
  let r := reply (sent w).*1 test_query in
  (run.1 = 0 ∨ run.1 = 1)%Z
  ∧ (is_success r = false →
     run = (1%Z, {| sent := sent w ++ [(test_query, r)];
                    printed := printed w |}))
  ∧ (is_success r = true →
     ∃ rest,
       (sent run.2).*1 = (sent w).*1 ++ test_query :: clear_query :: rest)
  ∧ (run.1 = 0%Z →
     ∃ before r1 r2 r3,
       sent run.2
       = before ++ [(node_count_query, r1); (relationship_count_query, r2);
                    (path_query, r3)]
       ∧ (0 < default 0 (counted_total "node_type" r1))%Z
       ∧ (0 < default 0 (counted_total "relationship_type" r2))%Z
       ∧ 0 < length (paths_of r3)).
Proof.
  intros run r. pose proof (main_run read_csv w) as Hmain.
  cbn zeta in Hmain. fold run r in Hmain. clearbody run.
  set (w1 := {| sent := sent w ++ [(test_query, r)]; printed := printed w |})
    in *.
  destruct r as [rows|msg|e]; subst run; cbn [is_success fst snd];
    [|by repeat split; auto..].
  destruct (construct_complete_graph_sent construction_plan read_csv
              (Some true) w1) as (rest & Hsent).
  destruct (clear_existing_graph_sends (Some true) w1 ltac:(done))
    as (returned & lines & Hclear).
  rewrite Hclear in Hsent. cbn [snd sent] in Hsent.
  pose proof (construct_complete_graph_run construction_plan read_csv
                (Some true) w1) as Hrun. cbn zeta in Hrun.
  destruct (GraphScript.construct_complete_graph construction_plan read_csv
              (Some true) w1) as [outcome w2].
  cbn [fst snd] in *.
  split; [destruct outcome as [[|]|]; auto|].
  split; [done|].
  split.
  { intros _. exists rest. subst w1. cbn [sent] in Hsent.
    rewrite Hsent, !fmap_app, <- !app_assoc. done. }
  intros Hzero.
  assert (outcome = Returns true) as -> by (by destruct outcome as [[|]|]).
  pose proof (clear_existing_graph_returns_false (Some true) w1) as Hfalse.
  destruct (clear_existing_graph (Some true) w1).1 as [success|].
  { injection Hrun as Hs _. by rewrite (Hfalse success eq_refl) in Hs. }
  destruct (decide (load_csv_data construction_plan read_csv = ∅));
    [done|].
  match type of Hrun with
  | context [verify_graph ?w3] =>
      destruct (verify_graph_run w3) as (v & Hv & Htn & Htr & Hpaths);
      rewrite Hv in Hrun
  end.
  match type of Hrun with
  | context [sum_values ?vs] => destruct (sum_values vs); [|done]
  end.
  cbn [fst snd] in Hrun. injection Hrun as Hcomplete ->.
  symmetry in Hcomplete. unfold graph_complete in Hcomplete.
  rewrite Htn, Htr, Hpaths in Hcomplete.
  apply andb_true_iff in Hcomplete as [Hcomplete Hp].
  apply andb_true_iff in Hcomplete as [Hn Hrel].
  apply Z.ltb_lt in Hn, Hrel. apply Nat.ltb_lt in Hp.
  by eexists _, _, _, _.
Qed.

End GraphScriptFacts.


(** ** What [create_nodes] upserts, and what the store merges *)

Module UpsertFacts.
Import Text TextFacts Store GraphConstructor GraphConstructorFacts.
Import StatementText BatchingFacts GraphStore NodeStore.










End UpsertFacts.
